(** * folio-user-import: the reconciliation and roll-back pipeline of
      [src/index.js] (the revision with [deleteUser] and
      [removeUserCredentials]), as a shallow embedding.

    The program is written in continuation-passing style over node's
    [http] module.  The embedding keeps that shape: every function that
    takes a [callback] in the source takes one here, a remote call is a
    question put to an oracle [env], and what a function does is a [run]:
    the events it produces (requests sent, log lines written) followed by
    the way it ends.  User records are JavaScript objects that the source
    updates in place; a batch is therefore a small heap (the parsed array)
    and a record is referred to by its index in it.

    Strings are kept as the bytes of their UTF-8 encoding. *)

From Stdlib Require Import ZArith Ascii String.
From stdpp Require Import base option list sorting gmap strings.

Local Open Scope string_scope.
Local Open Scope list_scope.
Local Open Scope Z_scope.

(** ** JavaScript values as far as the program looks at them *)

(** The double quote character, used by the query of [searchUsers]. *)
Definition dquote : string := String (ascii_of_nat 34) EmptyString.

(** Truthiness of a property that holds a string or is absent:
    [undefined] and the empty string are falsy. *)
Definition truthy (v : option string) : bool :=
  match v with
  | Some s => negb (String.eqb s "")
  | None => false
  end.

(** String concatenation with a property that may be absent:
    ['/users/' + undefined] is ['/users/undefined']. *)
Definition js_string (v : option string) : string :=
  match v with
  | Some s => s
  | None => "undefined"
  end.

(** [200 <= statusCode <= 299] is written in the source, at every call
    site, as the failure test
    [response.statusCode > 299 || response.statusCode < 200]. *)
Definition status_failed (statusCode : Z) : bool :=
  (statusCode >? 299) || (statusCode <? 200).

(** What one of the translated properties of a record ([patronGroup],
    [preferredContactTypeId], [addressTypeId]) can hold: a string, or a
    member of [Object.prototype].  The tables of the program are plain
    objects, so [table[name]] for a name such as [constructor] or
    [toString] gives the function of that name that every object
    inherits, and [mapUserData] assigns it.  [Builtin name] is the member
    called [name] (a function; for [__proto__] the prototype object
    itself). *)
Inductive value :=
| Str (s : string)
| Builtin (name : string).

(** A function and an object are truthy. *)
Definition truthy_value (v : option value) : bool :=
  match v with
  | Some (Str s) => negb (String.eqb s "")
  | Some (Builtin _) => true
  | None => false
  end.

(** [Object.getOwnPropertyNames(Object.prototype)] *)
Definition Object_prototype : list string :=
  ["constructor"; "__defineGetter__"; "__defineSetter__"; "hasOwnProperty";
   "__lookupGetter__"; "__lookupSetter__"; "isPrototypeOf";
   "propertyIsEnumerable"; "toString"; "valueOf"; "__proto__";
   "toLocaleString"].

(** The string that a member of [Object.prototype] is converted to when
    it is used as a property key: the source text of a native function
    ([constructor] is the function [Object]), and [[object Object]] for
    the prototype object. *)
Definition source_text (name : string) : string :=
  if String.eqb name "__proto__" then "[object Object]"
  else "function "
       +:+ (if String.eqb name "constructor" then "Object" else name)
       +:+ "() { [native code] }".

(** The key of [table[v]]. *)
Definition property_key (v : option value) : string :=
  match v with
  | None => "undefined"
  | Some (Str s) => s
  | Some (Builtin name) => source_text name
  end.

(** ** Data model *)

Module Address.
Record t := mk {
  addressTypeId : option value;
  addressLine1 : string
}.
Definition set_addressTypeId (v : option value) (a : t) : t :=
  {| addressTypeId := v; addressLine1 := addressLine1 a |}.
End Address.

Module Personal.
Record t := mk {
  lastName : string;
  preferredContactTypeId : option value;
  addresses : option (list Address.t)
}.
Definition set_preferredContactTypeId (v : option value) (p : t) : t :=
  {| lastName := lastName p;
     preferredContactTypeId := v;
     addresses := addresses p |}.
Definition set_addresses (v : option (list Address.t)) (p : t) : t :=
  {| lastName := lastName p;
     preferredContactTypeId := preferredContactTypeId p;
     addresses := v |}.
End Personal.

Module User.
Record t := mk {
  id : option string;
  externalSystemId : string;
  username : string;
  patronGroup : option value;
  personal : option Personal.t
}.
Definition set_id (v : option string) (u : t) : t :=
  {| id := v;
     externalSystemId := externalSystemId u;
     username := username u;
     patronGroup := patronGroup u;
     personal := personal u |}.
Definition set_patronGroup (v : option value) (u : t) : t :=
  {| id := id u;
     externalSystemId := externalSystemId u;
     username := username u;
     patronGroup := v;
     personal := personal u |}.
Definition set_personal (v : option Personal.t) (u : t) : t :=
  {| id := id u;
     externalSystemId := externalSystemId u;
     username := username u;
     patronGroup := patronGroup u;
     personal := v |}.
End User.

(** A user as the server returns it from [GET /users]; only these two
    properties are read. *)
Module Remote.
Record t := mk {
  id : option string;
  externalSystemId : string
}.
End Remote.

(** [var preferredContactTypes = { 'mail': '001', ... }] *)
Definition preferredContactTypes : gmap string string :=
  <["mail" := "001"]> (<["email" := "002"]> (<["text" := "003"]>
  (<["phone" := "004"]> (<["mobile" := "005"]> ∅)))).

(** ** Requests, replies and events *)

Inductive verb := GET | POST | PUT | DELETE.

(** The options object built by [createRequest]; protocol, host, port,
    tenant and token are configuration and the same in every request. *)
Record options := {
  method : verb;
  path : string;
  accept : string;
  contenttype : option string
}.

(** The header [Content-type] is set [if (contenttype)]. *)
Definition createRequest (method : verb) (path accept : string)
    (contenttype : option string) : options :=
  {| method := method; path := path; accept := accept;
     contenttype := if truthy contenttype then contenttype else None |}.

(** What [req.write] is given.  [UserBody user] is [JSON.stringify(user)],
    kept as the object that is written: in the text a property that
    holds a function is left out, and the prototype object is written as
    an empty object. *)
Inductive payload :=
| NoBody
| UserBody (user : User.t)
| CredentialsBody (username password : string)
| PermissionsBody (username : string) (permissions : list string).

Record request := { opts : options; written : payload }.

Inductive error :=
| Error (message : string)
| TypeError (message : string)
| SyntaxError (message : string)
| SocketError (message : string).

Definition message_of (e : error) : string :=
  match e with
  | Error m | TypeError m | SyntaxError m | SocketError m => m
  end.

(** The text of a response as far as it is looked at: [JSON.parse] either
    throws or gives a value whose [users] property is an array or is
    missing.  Only [searchUsers] parses the text. *)
Inductive raw :=
| Garbage
| Json (users : option (list Remote.t)).

(** What comes back for a request: the ['error'] event of the request, or
    a response with its [statusCode] and text. *)
Inductive reply :=
| NoResponse (e : error)
| Response (statusCode : Z) (rawData : raw).

Inductive level := TRACE | DEBUG | INFO | WARN | ERROR.

(** A log line is recorded with its level and first argument. *)
Inductive event :=
| Sent (r : request)
| Logged (l : level) (message : string).

(** ** [mapUserData] *)

Section Materializer.

(** The two tables filled by [getPatronGroups] and [getAddressTypes]
    before any user is processed, and only read afterwards.  A table is
    a plain object: the map holds its own properties. *)
Variable patronGroups : gmap string string.
Variable addressTypes : gmap string string.

(** [table[key]]: the own property, or else the member of
    [Object.prototype] of that name.  The key [__proto__] is not an own
    property: it gives the prototype, and an assignment of a string to it
    does nothing. *)
Definition object_get (table : gmap string string) (key : string)
  : option value :=
  if String.eqb key "__proto__" then Some (Builtin "__proto__")
  else
    match table !! key with
    | Some s => Some (Str s)
    | None =>
        if bool_decide (key ∈ Object_prototype) then Some (Builtin key)
        else None
    end.

(** [table[name]] for a property [name] of a record. *)
Definition table_get (table : gmap string string) (name : option value)
  : option value :=
  object_get table (property_key name).

(** The body of [user.personal.addresses.forEach]: what is logged, and
    the address that is pushed, if any.  An address is pushed, with its
    type translated, when it has a type for which the table gives
    something truthy; for a type for which it does not, a warning is
    logged; an address without a type is passed over in silence. *)
Definition mapAddress (address : Address.t) : list event * option Address.t :=
  if truthy_value (Address.addressTypeId address) then
    if truthy_value
         (table_get addressTypes (Address.addressTypeId address)) then
      ([], Some (Address.set_addressTypeId
                   (table_get addressTypes (Address.addressTypeId address))
                   address))
    else
      ([Logged WARN
          "Address does not have valid address type which is mandatory. Skipping."],
       None)
  else ([], None).

Definition mapPersonal (p : Personal.t) : Personal.t :=
  let p :=
    if truthy_value (Personal.preferredContactTypeId p) then
      if truthy_value (table_get preferredContactTypes
                         (Personal.preferredContactTypeId p)) then
        Personal.set_preferredContactTypeId
          (table_get preferredContactTypes
             (Personal.preferredContactTypeId p)) p
      else Personal.set_preferredContactTypeId None p
    else p in
  match Personal.addresses p with
  | Some (a :: l) =>
      Personal.set_addresses
        (Some (omap (λ address, (mapAddress address).2) (a :: l))) p
  | _ => p
  end.

(** What [mapUserData(user)] makes of the object it is given.  The
    source assigns to and deletes properties of [user] itself and
    returns it: see [mapUserData_in_place] for the effect on memory, and
    [mapUserData_log] for what is logged on the way. *)
Definition mapUserData (user : User.t) : User.t :=
  let user :=
    if truthy_value (User.patronGroup user) then
      if truthy_value (table_get patronGroups (User.patronGroup user)) then
        User.set_patronGroup
          (table_get patronGroups (User.patronGroup user)) user
      else User.set_patronGroup None user
    else user in
  match User.personal user with
  | Some p => User.set_personal (Some (mapPersonal p)) user
  | None => user
  end.

(** The lines that [mapUserData(user)] logs: those of the loop over the
    addresses, in the order of the addresses. *)
Definition mapUserData_log (user : User.t) : list event :=
  match User.personal user with
  | Some p =>
      match Personal.addresses p with
      | Some (a :: l) => (a :: l) ≫= λ address, (mapAddress address).1
      | _ => []
      end
  | None => []
  end.

(** Memory is the parsed array of user objects; a reference is an index
    into it.  [mapUserData] updates the object behind the reference and
    returns the same reference. *)
Definition mapUserData_in_place (heap : list User.t) (ref : nat)
  : list User.t * nat :=
  (alter mapUserData ref heap, ref).

End Materializer.

(** ** The partition loop of [processUsers] *)

Section Partition.
Context {A : Type}.

(** [data.splice(0, deleteCount)]: removes the first
    [min(max(deleteCount, 0), data.length)] elements of [data] and
    returns them; the second component is what is left in [data]. *)
Definition splice0 (deleteCount : Z) (data : list A) : list A * list A :=
  let n := Z.to_nat (Z.min (Z.max deleteCount 0) (Z.of_nat (length data))) in
  (take n data, drop n data).

(** [while (data.length) { userData.push(data.splice(0, folioPageSize)); }]
    The loop need not end, so it is run for at most [fuel] tests of its
    condition; [None] means that it was still running. *)
Fixpoint partition_loop (fuel : nat) (folioPageSize : Z)
    (data : list A) (userData : list (list A)) : option (list (list A)) :=
  match fuel with
  | O => None
  | S fuel =>
      match data with
      | [] => Some userData
      | _ :: _ =>
          let '(page, rest) := splice0 folioPageSize data in
          partition_loop fuel folioPageSize rest (userData ++ [page])
      end
  end.

End Partition.

(** ** Runs *)

(** How a piece of the program ends: by calling the callback of the
    record (or batch) it works for, by throwing to its caller, or with an
    exception that nobody catches, which ends the node process. *)
Inductive signal :=
| Called (err : option error)
| Throw (e : error)
| Uncaught (e : error).

Definition run : Type := list event * signal.

Definition callback_t : Type := option error → run.

(** The first argument of [deleteUser] is a user in one call site and the
    callback function in the other. *)
Inductive jsval :=
| Undefined
| Object (user : User.t)
| Function (f : callback_t).

Definition prop_id (v : jsval) : option string :=
  match v with Object u => User.id u | _ => None end.

Definition prop_externalSystemId (v : jsval) : option string :=
  match v with Object u => Some (User.externalSystemId u) | _ => None end.

(** [events; rest] *)
Definition emit (events : list event) (rest : run) : run :=
  (events ++ rest.1, rest.2).

(** [callback(err)] where [callback] may be [undefined]. *)
Definition call (callback : option callback_t) (err : option error) : run :=
  match callback with
  | Some f => f err
  | None => ([], Throw (TypeError "callback is not a function"))
  end.

(** [try { body } catch (e) { handler }] *)
Definition try_catch (body : run) (handler : error → run) : run :=
  match body.2 with
  | Throw e => emit body.1 (handler e)
  | _ => body
  end.

(** An event handler that throws is not caught by anyone. *)
Definition on_event (handler : run) : run :=
  match handler.2 with
  | Throw e => (handler.1, Uncaught e)
  | _ => handler
  end.

Definition requests (events : list event) : list request :=
  omap (λ e, match e with Sent r => Some r | Logged _ _ => None end) events.

(** The check that [http.request] makes of [options.path] before anything
    is sent: a path with a character outside [U+0021..U+00FF] (a space, a
    control character, a character above [U+00FF]) is refused.  On the
    bytes of the encoding these are the bytes up to [0x20] and the lead
    bytes from [0xC4] on. *)
Definition unescaped_char (c : ascii) : bool :=
  ((N_of_ascii c <=? 32) || (196 <=? N_of_ascii c))%N.

Fixpoint unescaped (path : string) : bool :=
  match path with
  | EmptyString => false
  | String c path => unescaped_char c || unescaped path
  end.

Section Pipeline.

Variable patronGroups : gmap string string.
Variable addressTypes : gmap string string.

(** The remote service: what it answers to a request.  (The requests of
    one record's chain are pairwise different, so a chain can be given any
    combination of answers.) *)
Variable env : request → reply.

(** [uuidv1()]: the identifier returned by the [n]-th call. *)
Variable uuidv1 : nat → string.

Variable encodeURIComponent : string → string.

(** [http.request(options, onResponse).on('error', onError)] followed by
    [req.write] and [req.end].  [http.request] throws to its caller,
    before anything is sent, when the path does not pass its check.
    Otherwise the request is sent, and one of the two handlers runs
    later, on its own turn of the event loop.  Without an ['error']
    handler the ['error'] event is thrown. *)
Definition http_request (opts : options) (written : payload)
    (onResponse : Z → raw → run) (onError : option (error → run)) : run :=
  if unescaped (path opts) then
    ([], Throw (TypeError "Request path contains unescaped characters"))
  else
    emit [Sent {| opts := opts; written := written |}]
      match env {| opts := opts; written := written |} with
      | Response statusCode rawData =>
          on_event (onResponse statusCode rawData)
      | NoResponse e =>
          match onError with
          | Some h => on_event (h e)
          | None => ([], Uncaught e)
          end
      end.

Definition deleteOptions (user : jsval) : options :=
  createRequest DELETE ("/users/" +:+ js_string (prop_id user))
    "text/plain" None.

Definition deleteUser (user : jsval) (callback : option callback_t) : run :=
  match user with
  | Undefined =>
      ([], Throw (TypeError "Cannot read property 'id' of undefined"))
  | _ =>
      http_request (deleteOptions user) NoBody
        (λ statusCode _,
          emit [Logged INFO ("User delete status: "
                             +:+ js_string (prop_externalSystemId user))]
            (try_catch
               (if status_failed statusCode then
                  emit [Logged WARN
                          ("Failed to delete user with externalSystemId: "
                           +:+ js_string (prop_externalSystemId user))]
                    (call callback
                       (Some (Error
                          ("Failed to delete user with externalSystemId: "
                           +:+ js_string (prop_externalSystemId user)))))
                else
                  emit [Logged DEBUG "User deleted successfully."]
                    (call callback None))
               (λ e, emit [Logged ERROR (message_of e)]
                       (call callback (Some e)))))
        (Some (λ e,
          emit [Logged ERROR
                  ("Failed to delete user with externalSystemId: "
                   +:+ js_string (prop_externalSystemId user))]
            (call callback (Some e))))
  end.

Definition removeCredentialsOptions (user : User.t) : options :=
  createRequest DELETE ("/authn/credentials/" +:+ User.username user)
    "text/plain" None.

Definition removeUserCredentials (user : User.t)
    (finalCallback : callback_t)
    (callback : option error → jsval → option callback_t → run) : run :=
  http_request (removeCredentialsOptions user) NoBody
    (λ statusCode _,
      emit [Logged INFO ("User credentials deletion status: "
                         +:+ User.username user)]
        (try_catch
           (if status_failed statusCode then
              emit [Logged WARN
                      ("Failed to remove user credentials for user with name: "
                       +:+ User.username user)]
                (callback
                   (Some (Error
                      ("Failed to remove user credentials for user with name: "
                       +:+ User.username user)))
                   Undefined None)
            else
              emit [Logged DEBUG "User credentials removed successfully."]
                (callback None (Object user) (Some finalCallback)))
           (λ e,
             emit [Logged ERROR
                     ("Failed to remove credentials for user with name: "
                      +:+ User.username user +:+ " Reason: ")]
               (callback (Some e) Undefined None))))
    (Some (λ e,
      emit [Logged ERROR ("Failed to remove user credentials for user: "
                          +:+ User.username user)]
        (callback (Some e) Undefined None))).

Definition permissionsOptions : options :=
  createRequest POST "/perms/users" "text/plain" (Some "application/json").

(** The request of [applyEmptyPermissionSet] has no ['error'] handler. *)
Definition applyEmptyPermissionSet (user : User.t) (callback : callback_t)
  : run :=
  http_request permissionsOptions
    (PermissionsBody (User.username user) [])
    (λ statusCode _,
      emit [Logged INFO ("User permissions creation status: "
                         +:+ User.username user)]
        (try_catch
           (if status_failed statusCode then
              emit [Logged WARN
                      ("Failed to create user permissions for user with name: "
                       +:+ User.username user);
                    Logged DEBUG "Deleting user with credentials."]
                (removeUserCredentials user callback
                   (λ err user callback,
                     match err with
                     | Some _ => call callback err
                     | None =>
                         emit [Logged INFO "callback: "]
                           (deleteUser user callback)
                     end))
            else
              emit [Logged DEBUG "Permissions added successfully."]
                (callback None))
           (λ e, emit [Logged ERROR (message_of e)] (callback (Some e)))))
    None.

Definition credentialsOptions : options :=
  createRequest POST "/authn/credentials" "text/plain"
    (Some "application/json").

(** On a failure status the source calls [deleteUser(callback)]: the
    callback takes the place of the user and [deleteUser] gets no
    callback. *)
Definition createCredentials (user : User.t) (callback : callback_t) : run :=
  http_request credentialsOptions
    (CredentialsBody (User.username user) "")
    (λ statusCode _,
      emit [Logged INFO ("User credentials creation status: "
                         +:+ User.username user)]
        (try_catch
           (if status_failed statusCode then
              emit [Logged WARN
                      ("Failed to create user credentials for user with name: "
                       +:+ User.username user);
                    Logged DEBUG "Deleting user."]
                (deleteUser (Function callback) None)
            else
              emit [Logged DEBUG
                      "User credentials created successfully. Adding empty permission set."]
                (applyEmptyPermissionSet user callback))
           (λ e,
             emit [Logged ERROR
                     ("Failed to save credentials for user with name: "
                      +:+ User.username user +:+ " Reason: ")]
               (callback (Some e)))))
    (Some (λ e,
      emit [Logged ERROR ("Failed to add user credentials for user: "
                          +:+ User.username user)]
        (callback (Some e)))).

Definition createOptions : options :=
  createRequest POST "/users" "text/plain" (Some "application/json").

(** [user.id = uuidv1(); user = mapUserData(user);] change the object
    that was passed in: the first component is that object afterwards.
    [n] counts the calls of [uuidv1] made so far. *)
Definition createUser (n : nat) (user : User.t) (callback : callback_t)
  : User.t * run :=
  let user := User.set_id (Some (uuidv1 n)) user in
  let log := mapUserData_log addressTypes user in
  let user := mapUserData patronGroups addressTypes user in
  (user,
   emit log (http_request createOptions (UserBody user)
     (λ statusCode _,
       emit [Logged INFO ("User create status: "
                          +:+ User.externalSystemId user)]
         (try_catch
            (if status_failed statusCode then
               emit [Logged WARN
                       ("Failed to create user with externalSystemId: "
                        +:+ User.externalSystemId user)]
                 (callback None)
             else
               emit [Logged DEBUG
                       "Created user successfully. Creating credentials."]
                 (createCredentials user callback))
            (λ e, emit [Logged ERROR (message_of e)] (callback (Some e)))))
     (Some (λ e,
       emit [Logged ERROR ("Failed to create user with externalSystemId: "
                           +:+ User.externalSystemId user)]
         (callback (Some e)))))).

Definition updateOptions (user : User.t) : options :=
  createRequest PUT ("/users/" +:+ js_string (User.id user))
    "text/plain" (Some "application/json").

(** [user = mapUserData(user)] changes the object that was passed in:
    the first component is that object afterwards.  The call of
    [http.request] is not inside a [try]: when it throws, [updateUser]
    throws to its caller. *)
Definition updateUser (user : User.t) (callback : callback_t)
  : User.t * run :=
  let log := mapUserData_log addressTypes user in
  let user := mapUserData patronGroups addressTypes user in
  (user,
   emit log (http_request (updateOptions user) (UserBody user)
     (λ statusCode _,
       emit [Logged INFO ("User update status: "
                          +:+ User.externalSystemId user)]
         (try_catch
            (if status_failed statusCode then
               emit [Logged WARN
                       ("Failed to update user with externalSystemId: "
                        +:+ User.externalSystemId user);
                     Logged DEBUG "User data: "]
                 (callback None)
             else callback None)
            (λ e,
              emit [Logged ERROR
                      ("Failed to update user with externalSystemId: "
                       +:+ User.externalSystemId user +:+ " Reason: ")]
                (callback (Some e)))))
     (Some (λ e,
       emit [Logged ERROR ("Failed to update user with externalSystemId: "
                           +:+ User.externalSystemId user)]
         (callback (Some e)))))).

(** *** The object [userMap] of [importUsers]

    A JavaScript object used as a map from [externalSystemId] to user
    object.  It is kept as the list of its own properties in the order
    they were created; the value of a property is a reference into the
    batch.  (Every key is kept as an own property.  The key [__proto__]
    is none: an assignment to it replaces the prototype of the object.
    The statements about batches are for records and returned users
    whose external identifier is not [__proto__].) *)

(** [map[key] = ref] *)
Fixpoint userMap_set (key : string) (ref : nat) (map : list (string * nat))
  : list (string * nat) :=
  match map with
  | [] => [(key, ref)]
  | (k, r) :: map' =>
      if String.eqb k key then (k, ref) :: map'
      else (k, r) :: userMap_set key ref map'
  end.

(** The own property [key] of [map]. *)
Fixpoint userMap_own (key : string) (map : list (string * nat))
  : option nat :=
  match map with
  | [] => None
  | (k, r) :: map' =>
      if String.eqb k key then Some r else userMap_own key map'
  end.

(** What [map[key]] finds: a record of the batch, or a member of
    [Object.prototype]. *)
Inductive found :=
| Record_at (ref : nat)
| Member (name : string).

(** [map[key]]: the own property, or else the member of
    [Object.prototype] of that name. *)
Definition userMap_get (key : string) (map : list (string * nat))
  : option found :=
  match userMap_own key map with
  | Some ref => Some (Record_at ref)
  | None =>
      if bool_decide (key ∈ Object_prototype) then Some (Member key)
      else None
  end.

(** [userList.reduce(function (map, obj) {...}, {})], with [i] the index
    of the head of [userList] in the batch. *)
Fixpoint reduce_userMap (userList : list User.t) (i : nat)
    (map : list (string * nat)) : list (string * nat) :=
  match userList with
  | [] => map
  | obj :: userList =>
      reduce_userMap userList (S i)
        (userMap_set (User.externalSystemId obj) i map)
  end.

(** Keys that are array indices (canonical decimal numerals up to
    [2^32 - 2]) are enumerated first, in ascending numeric order; the
    other keys follow in the order of their creation. *)
Definition digit (c : ascii) : option N :=
  let n := N_of_ascii c in
  if ((48 <=? n) && (n <=? 57))%N then Some (n - 48)%N else None.

Fixpoint decimal (acc : N) (s : string) : option N :=
  match s with
  | EmptyString => Some acc
  | String c s =>
      match digit c with
      | Some d => decimal (10 * acc + d)%N s
      | None => None
      end
  end.

Definition array_index (key : string) : option N :=
  match key with
  | EmptyString => None
  | String c rest =>
      match decimal 0%N key with
      | Some v =>
          if (negb (Ascii.eqb c "0") || String.eqb rest "")
             && (v <=? 4294967294)%N
          then Some v else None
      | None => None
      end
  end.

Definition index_le (a b : string * nat) : Prop :=
  (default 0 (array_index a.1) ≤ default 0 (array_index b.1))%N.

Definition index_le_dec (a b : string * nat) : Decision (index_le a b) :=
  decide (default 0 (array_index a.1) ≤ default 0 (array_index b.1))%N.

(** The values of [map] in the order in which [async.each] visits them. *)
Definition own_values (map : list (string * nat)) : list nat :=
  (@merge_sort _ index_le index_le_dec
     (filter (λ a, is_Some (array_index a.1)) map)
     ++ filter (λ a, ¬ is_Some (array_index a.1)) map).*2.

(** [existingUsers.forEach(function (user) {...})]: a returned user whose
    external identifier is a key of [userMap] gives its [id] to the
    object stored there.  For the name of a member of [Object.prototype]
    that is no key, [userToUpdate] is that member (a built-in function)
    and the [id] is written to it: no record changes. *)
Definition assign_ids (userMap : list (string * nat))
    (existingUsers : list Remote.t) (heap : list User.t) : list User.t :=
  foldl (λ heap user,
           match userMap_get (Remote.externalSystemId user) userMap with
           | Some (Record_at userToUpdate) =>
               alter (User.set_id (Remote.id user)) userToUpdate heap
           | Some (Member _) => heap
           | None => heap
           end)
        heap existingUsers.

(** *** [async.each] over the records of a batch

    [async.each] calls the iteratee for every value at once; the chains
    of the records then advance as responses arrive, independently of
    each other.  Each record's chain is kept on its own (its requests
    and log lines in their order), not interleaved with the others.

    An iteratee that throws (as [updateUser] does when [http.request]
    refuses the path) leaves the loop of [async.each] with its
    exception: the values after it are not visited. *)

(** The callback that [async.each] hands to the iteratee. *)
Definition userCallback : callback_t := λ err, ([], Called err).

Definition iteratee (n : nat) (user : User.t) : User.t * nat * run :=
  if truthy (User.id user) then
    let '(user, r) := updateUser user userCallback in (user, n, r)
  else
    let '(user, r) := createUser n user userCallback in (user, S n, r).

Fixpoint dispatch (refs : list nat) (heap : list User.t) (n : nat)
  : list User.t * nat * list (nat * run) :=
  match refs with
  | [] => (heap, n, [])
  | ref :: refs =>
      match heap !! ref with
      | Some user =>
          let '(user, n, r) := iteratee n user in
          match r.2 with
          | Throw _ => (<[ref := user]> heap, n, [(ref, r)])
          | _ =>
              let '(heap, n, rs) := dispatch refs (<[ref := user]> heap) n in
              (heap, n, (ref, r) :: rs)
          end
      | None => dispatch refs heap n
      end
  end.

(** The exception with which an iteratee left, if one did. *)
Fixpoint thrown (runs : list run) : option error :=
  match runs with
  | [] => None
  | (_, Throw e) :: _ => Some e
  | _ :: runs => thrown runs
  end.

Fixpoint first_uncaught (runs : list run) : option error :=
  match runs with
  | [] => None
  | (_, Uncaught e) :: _ => Some e
  | _ :: runs => first_uncaught runs
  end.

Fixpoint first_error (runs : list run) : option error :=
  match runs with
  | [] => None
  | (_, Called (Some e)) :: _ => Some e
  | _ :: runs => first_error runs
  end.

(** When an iteratee throws, [async.each] throws to its caller, before
    any response has arrived.  (The records visited before are on their
    way then; their chains are listed with the batch.  What their
    callbacks do once the batch has been reported is not followed up.)
    Otherwise the final callback of [async.each] is called once: with the
    error of a record that reported one, or without error when every
    record has called back.  An uncaught exception in a record's chain
    ends the process; whether the final callback had been called with an
    error before that depends on the order of the responses and is left
    out.  (Which error comes first depends on that order too; the first
    in the order of dispatch is taken.) *)
Definition async_each (runs : list run) (final : callback_t) : run :=
  match thrown runs with
  | Some e => ([], Throw e)
  | None =>
      match first_uncaught runs with
      | Some e => ([], Uncaught e)
      | None => final (first_error runs)
      end
  end.

(** What has become of a batch: the batch in memory afterwards, the
    number of calls of [uuidv1] so far, the chain of every record that was
    visited, and what the batch itself logged and how it called back.
    (When a chain ends in an uncaught exception the process ends with it;
    the chains of the other records are listed as they run when nothing
    cuts them short.) *)
Record imported := {
  userList_after : list User.t;
  uuid_calls : nat;
  records : list (nat * run);
  reported : run
}.

Definition with_reported (f : run → run) (b : imported) : imported :=
  {| userList_after := userList_after b;
     uuid_calls := uuid_calls b;
     records := records b;
     reported := f (reported b) |}.

Definition not_imported (userList : list User.t) (n : nat) (r : run)
  : imported :=
  {| userList_after := userList; uuid_calls := n; records := [];
     reported := r |}.

(** The callback that [async.eachLimit] hands to [searchUsers]. *)
Definition batchCallback : callback_t := λ err, ([], Called err).

(** [existingUsers] is [userSearchResult.users], which may be missing:
    [existingUsers.forEach] then throws.  An exception that leaves
    [async.each] leaves [importUsers]. *)
Definition importUsers (userList : list User.t)
    (existingUsers : option (list Remote.t)) (callback : callback_t)
    (n : nat) : imported :=
  let userMap := reduce_userMap userList 0 [] in
  match existingUsers with
  | None =>
      not_imported userList n
        ([], Throw (TypeError "Cannot read property 'forEach' of undefined"))
  | Some existingUsers =>
      let heap := assign_ids userMap existingUsers userList in
      let '(heap, n, rs) := dispatch (own_values userMap) heap n in
      {| userList_after := heap;
         uuid_calls := n;
         records := rs;
         reported :=
           emit [Logged TRACE "Updated existing users with ids."]
             (async_each rs.*2
                (λ err,
                  match err with
                  | Some _ =>
                      emit [Logged INFO "Failed to import user batch."]
                        (callback err)
                  | None =>
                      emit [Logged DEBUG "Imported user batch successfully."]
                        (callback None)
                  end)) |}
  end.

(** *** [searchUsers] *)

Fixpoint queryPath_loop (userList : list User.t) (queryPath : string)
  : string :=
  match userList with
  | [] => queryPath
  | user :: userList =>
      let queryPath :=
        queryPath +:+ "externalSystemId==" +:+ dquote
          +:+ User.externalSystemId user +:+ dquote in
      match userList with
      | [] => queryPath +:+ ")"
      | _ :: _ => queryPath_loop userList (queryPath +:+ " or ")
      end
  end.

(** The path is a constant followed by a result of [encodeURIComponent],
    which has no character that [http.get] refuses: the search is always
    sent. *)
Definition searchOptions (userList : list User.t) : options :=
  createRequest GET
    ("/users?query=" +:+ encodeURIComponent (queryPath_loop userList "("))
    "application/json" None.

(** The source tests [response.status], a property that the response
    object of [http] does not have: the value is [undefined], and both
    [undefined < 200] and [undefined > 299] are false. *)
Definition response_status (statusCode : Z) : option Z := None.

Definition js_ltb (a : option Z) (b : Z) : bool :=
  match a with Some a => a <? b | None => false end.

Definition js_gtb (a : option Z) (b : Z) : bool :=
  match a with Some a => a >? b | None => false end.

Definition searchUsers (userList : list User.t) (callback : callback_t)
    (n : nat) : imported :=
  let queryPath := queryPath_loop userList "(" in
  let sent := Sent {| opts := searchOptions userList; written := NoBody |} in
  let catch e :=
    emit [Logged ERROR
            ("Failed to list and import existing users with query: "
             +:+ queryPath)]
      (callback (Some e)) in
  match env {| opts := searchOptions userList; written := NoBody |} with
  | NoResponse e =>
      not_imported userList n
        (emit [sent;
               Logged ERROR
                 ("Failed to list existing users with query: " +:+ queryPath)]
           (on_event (callback (Some e))))
  | Response statusCode rawData =>
      if js_ltb (response_status statusCode) 200
         || js_gtb (response_status statusCode) 299 then
        not_imported userList n
          (emit [sent; Logged WARN "Failed to list existing users "]
             (on_event
                (try_catch
                   (callback
                      (Some (Error
                         ("Failed to list existing users with query: "
                          +:+ queryPath))))
                   catch)))
      else
        match rawData with
        | Garbage =>
            not_imported userList n
              (emit [sent]
                 (on_event
                    (try_catch
                       ([], Throw (SyntaxError "Unexpected token"))
                       catch)))
        | Json users =>
            with_reported
              (λ r, emit [sent] (on_event (try_catch r catch)))
              (importUsers userList users callback n)
        end
  end.

(** *** [processUsers] *)

(** [async.eachLimit(userData, 1, searchUsers, ...)]: one batch at a
    time, the next one when the callback of the one before was called
    without error; with an error the remaining batches are not started.
    The signal is the one the final callback gets, or the uncaught
    exception. *)
Fixpoint eachLimit (userData : list (list User.t)) (n : nat)
  : list imported * signal :=
  match userData with
  | [] => ([], Called None)
  | userList :: userData =>
      let b := searchUsers userList batchCallback n in
      match (reported b).2 with
      | Called None =>
          let '(bs, s) := eachLimit userData (uuid_calls b) in (b :: bs, s)
      | s => ([b], s)
      end
  end.

Variable folioPageSize : Z.

Inductive ending := Exited | Finished | Died (e : error).

Record processed := {
  batches : list imported;
  final : list event;
  ended : ending
}.

(** [usersData] is [JSON.parse(usersDataString)], [None] when that
    throws.  The result is [None] when the partition loop is still
    running after [fuel] tests of its condition. *)
Definition processUsers (fuel : nat) (usersData : option (list User.t))
  : option processed :=
  match usersData with
  | None =>
      Some {| batches := [];
              final := [Logged ERROR "Failed to parse user data as JSON."];
              ended := Exited |}
  | Some data =>
      match partition_loop fuel folioPageSize data [] with
      | None => None
      | Some userData =>
          let '(bs, s) := eachLimit userData 0 in
          Some
            match s with
            | Called None =>
                {| batches := bs;
                   final := [Logged INFO
                     "Import has finished. See log for failed users."];
                   ended := Finished |}
            | Called (Some _) =>
                {| batches := bs;
                   final := [Logged ERROR "Failed to import all users."];
                   ended := Finished |}
            | Throw e | Uncaught e =>
                {| batches := bs; final := []; ended := Died e |}
            end
      end
  end.

End Pipeline.

(** ** Start-up: configuration, login, reference tables, input file

    [startImport] runs [initConfig] and [login]; the handler of the login
    response calls [getAddressTypes], whose handler calls
    [getPatronGroups], whose handler calls [readUserData], which hands the
    text of the file to [processUsers]. *)

(** The module-level variables that [initConfig] assigns. *)
Record settings := {
  folioHost : string;
  folioPort : string;
  folioProtocol : string;
  folioTenant : string;
  folioUsername : string;
  folioPassword : string;
  folioFilename : string;
  folioPageSize : string;
  folioLogFile : string;
  folioLogLevel : string
}.

(** The object that [require(configUrl)] gives; a property may be
    missing. *)
Record config := {
  FOLIO_HOST : option string;
  FOLIO_PORT : option string;
  FOLIO_PROTOCOL : option string;
  FOLIO_TENANT : option string;
  FOLIO_USERNAME : option string;
  FOLIO_PASSWORD : option string;
  FOLIO_FILENAME : option string;
  FOLIO_PAGESIZE : option string;
  FOLIO_LOGFILE : option string;
  FOLIO_LOGLEVEL : option string
}.

(** [value || fallback] *)
Definition or_else (value : option string) (fallback : string) : string :=
  match value with
  | Some s => if String.eqb s "" then fallback else s
  | None => fallback
  end.

(** The assignments in the [try] block of [initConfig]. *)
Definition apply_config (c : config) (s : settings) : settings :=
  {| folioHost := or_else (FOLIO_HOST c) (folioHost s);
     folioPort := or_else (FOLIO_PORT c) (folioPort s);
     folioProtocol := or_else (FOLIO_PROTOCOL c) (folioProtocol s);
     folioTenant := or_else (FOLIO_TENANT c) (folioTenant s);
     folioUsername := or_else (FOLIO_USERNAME c) (folioUsername s);
     folioPassword := or_else (FOLIO_PASSWORD c) (folioPassword s);
     folioFilename := or_else (FOLIO_FILENAME c) (folioFilename s);
     folioPageSize := or_else (FOLIO_PAGESIZE c) (folioPageSize s);
     folioLogFile := or_else (FOLIO_LOGFILE c) (folioLogFile s);
     folioLogLevel := or_else (FOLIO_LOGLEVEL c) (folioLogLevel s) |}.

(** What is seen of the start-up: log lines, the login request with the
    body written to it, the two requests for the reference tables, and
    the reading of the input file. *)
Inductive boot_event :=
| BootLogged (l : level) (message : string)
| LoginSent (username password tenant : string)
| TableRequested (o : options)
| FileRead (filename : string).

(** [initConfig(configUrl)].  [logger] is declared without a value and
    assigned at the end of [initConfig]: [has_logger] tells whether that
    has happened before (in an earlier call).  [required] is what
    [require(configUrl)] gives, [None] when it throws.  The result is the
    exception that leaves [initConfig], or the settings and the line
    logged at its end. *)
Definition initConfig (has_logger : bool) (configUrl : option string)
    (required : option config) (s : settings)
  : error + settings * list boot_event :=
  let done (s : settings) (events : list boot_event) :=
    inr (s, events
            ++ [BootLogged TRACE "Configuration has been initialized."]) in
  if truthy configUrl then
    match required with
    | Some c => done (apply_config c s) []
    | None =>
        if has_logger then
          done s [BootLogged WARN "Failed to load config file."]
        else inl (TypeError "Cannot read property 'warn' of undefined")
    end
  else done s [].

(** The answer to the login request: the ['error'] event, or a response,
    of which only the header [x-okapi-token] is read. *)
Inductive login_reply :=
| LoginNoResponse (e : error)
| LoginResponse (x_okapi_token : option string).

(** The text of the answer to a request for a reference table:
    [JSON.parse] throws, or gives a value whose list ([addressTypes],
    [usergroups]) is missing or holds entries with a name and an [id]
    (which may be missing). *)
Inductive table_raw :=
| TableGarbage
| TableJson (entries : option (list (string * option string))).

Inductive table_reply :=
| TableNoResponse (e : error)
| TableResponse (statusCode : Z) (text : table_raw).

(** What [fs.readFile] calls back with: an error, or the content, of
    which [JSON.parse] gives a list of users or throws. *)
Inductive file_result :=
| ReadError
| Content (usersData : option (list User.t)).

(** [list.forEach(function (x) { table[x.name] = x.id; })]: a later entry
    overwrites an earlier one with the same name.  (An entry without [id]
    stores [undefined].  It is kept as the empty string: a value of a
    table is only used after a test for truthiness, which cannot tell
    the two apart.) *)
Definition fill_table (table : gmap string string)
    (entries : list (string * option string)) : gmap string string :=
  foldl (λ table entry, <[entry.1 := default "" entry.2]> table)
        table entries.

(** How the start-up ends. *)
Inductive boot_end :=
| ConfigThrew (e : error)
| ExitedAtLogin
| StoppedAtAddressTypes
| StoppedAtPatronGroups
| ExitedAtFile
| Ran (p : option processed).

Record booted := {
  boot : list boot_event;
  authToken : string;
  addressTypes_loaded : gmap string string;
  patronGroups_loaded : gmap string string;
  boot_ended : boot_end
}.

Section StartUp.

Variable login_env : login_reply.
Variable table_env : options → table_reply.
Variable readFile : string → file_result.
Variable env : request → reply.
Variable uuidv1 : nat → string.
Variable encodeURIComponent : string → string.

(** The integer that [splice] makes of [folioPageSize]. *)
Variable toInteger : string → Z.

(** The number of tests of its condition granted to the partition loop. *)
Variable fuel : nat.

Definition readUserData (s : settings) (authToken : string)
    (addressTypes patronGroups : gmap string string) : booted :=
  match readFile (folioFilename s) with
  | ReadError =>
      {| boot := [FileRead (folioFilename s);
                  BootLogged ERROR "Failed to read user data."];
         authToken := authToken;
         addressTypes_loaded := addressTypes;
         patronGroups_loaded := patronGroups;
         boot_ended := ExitedAtFile |}
  | Content usersData =>
      {| boot := [FileRead (folioFilename s)];
         authToken := authToken;
         addressTypes_loaded := addressTypes;
         patronGroups_loaded := patronGroups;
         boot_ended :=
           Ran (processUsers patronGroups addressTypes env uuidv1
                  encodeURIComponent (toInteger (folioPageSize s)) fuel
                  usersData) |}
  end.

Definition before (events : list boot_event) (b : booted) : booted :=
  {| boot := events ++ boot b;
     authToken := authToken b;
     addressTypes_loaded := addressTypes_loaded b;
     patronGroups_loaded := patronGroups_loaded b;
     boot_ended := boot_ended b |}.

Definition patronGroupRequest : options :=
  createRequest GET "/groups" "application/json" None.

Definition getPatronGroups (s : settings) (authToken : string)
    (addressTypes patronGroups : gmap string string) : booted :=
  match table_env patronGroupRequest with
  | TableNoResponse e =>
      {| boot := [TableRequested patronGroupRequest;
                  BootLogged ERROR "Failed to list parton groups."];
         authToken := authToken;
         addressTypes_loaded := addressTypes;
         patronGroups_loaded := patronGroups;
         boot_ended := StoppedAtPatronGroups |}
  | TableResponse statusCode text =>
      if status_failed statusCode then
        before [TableRequested patronGroupRequest;
                BootLogged WARN "Failed to list patron groups."]
          (readUserData s authToken addressTypes patronGroups)
      else
        match text with
        | TableJson (Some usergroups) =>
            before [TableRequested patronGroupRequest;
                    BootLogged TRACE "Listed patron groups successfully."]
              (readUserData s authToken addressTypes
                 (fill_table patronGroups usergroups))
        | _ =>
            before [TableRequested patronGroupRequest;
                    BootLogged ERROR
                      "Failed to retrieve patron groups. Reason: "]
              (readUserData s authToken addressTypes patronGroups)
        end
  end.

Definition addressTypeRequest : options :=
  createRequest GET "/addresstypes" "application/json" None.

Definition getAddressTypes (s : settings) (authToken : string)
    (addressTypes patronGroups : gmap string string) : booted :=
  match table_env addressTypeRequest with
  | TableNoResponse e =>
      {| boot := [TableRequested addressTypeRequest;
                  BootLogged ERROR "Failed to list address types."];
         authToken := authToken;
         addressTypes_loaded := addressTypes;
         patronGroups_loaded := patronGroups;
         boot_ended := StoppedAtAddressTypes |}
  | TableResponse statusCode text =>
      if status_failed statusCode then
        before [TableRequested addressTypeRequest;
                BootLogged WARN "Failed to list address types."]
          (getPatronGroups s authToken addressTypes patronGroups)
      else
        match text with
        | TableJson (Some addressTypeList) =>
            before [TableRequested addressTypeRequest;
                    BootLogged DEBUG "Listed address types successfully."]
              (getPatronGroups s authToken
                 (fill_table addressTypes addressTypeList) patronGroups)
        | _ =>
            before [TableRequested addressTypeRequest;
                    BootLogged ERROR
                      "Failed to get address type list. Reason: "]
              (getPatronGroups s authToken addressTypes patronGroups)
        end
  end.

(** [authToken], [addressTypes] and [patronGroups] are the values of the
    module-level variables when [login] is called. *)
Definition login (s : settings) (authToken : string)
    (addressTypes patronGroups : gmap string string) : booted :=
  let sent :=
    LoginSent (folioUsername s) (folioPassword s) (folioTenant s) in
  let exit (message : string) :=
    {| boot := [sent; BootLogged ERROR message];
       authToken := authToken;
       addressTypes_loaded := addressTypes;
       patronGroups_loaded := patronGroups;
       boot_ended := ExitedAtLogin |} in
  match login_env with
  | LoginNoResponse e => exit "Failed to request log in to FOLIO."
  | LoginResponse loginToken =>
      if truthy loginToken then
        before [sent;
                BootLogged DEBUG "Login was successful. Saved login token."]
          (getAddressTypes s (js_string loginToken) addressTypes patronGroups)
      else exit "Failed to log in to FOLIO. Exiting."
  end.

(** [startImport(configUrl)], from the state of the module-level
    variables. *)
Definition startImport (has_logger : bool) (configUrl : option string)
    (required : option config) (s : settings) (authToken : string)
    (addressTypes patronGroups : gmap string string) : booted :=
  match initConfig has_logger configUrl required s with
  | inl e =>
      {| boot := [];
         authToken := authToken;
         addressTypes_loaded := addressTypes;
         patronGroups_loaded := patronGroups;
         boot_ended := ConfigThrew e |}
  | inr (s, events) =>
      before events (login s authToken addressTypes patronGroups)
  end.

End StartUp.

(** The settings that the module starts with when no environment
    variable is set. *)
Definition default_settings : settings :=
  {| folioHost := "localhost";
     folioPort := "9130";
     folioProtocol := "http:";
     folioTenant := "diku";
     folioUsername := "diku_admin";
     folioPassword := "admin";
     folioFilename := "users.json";
     folioPageSize := "10";
     folioLogFile := "logs/user-import.log";
     folioLogLevel := "DEBUG" |}.

(** The events of a start-up that are requests to the remote service. *)
Definition boot_requests (events : list boot_event) : list boot_event :=
  omap (λ e, match e with
             | LoginSent _ _ _ | TableRequested _ => Some e
             | _ => None
             end) events.

(** The disjunct that [searchUsers] writes for one record. *)
Definition disjunct (user : User.t) : string :=
  "externalSystemId==" +:+ dquote +:+ User.externalSystemId user +:+ dquote.

(** ** Auxiliary notions used in the statements *)

(** A reference-table translation as [mapUserData] performs it on one
    property: a truthy name is replaced by what the table gives for it,
    or removed when the table gives nothing truthy. *)
Definition translate (table : gmap string string) (name : option value)
  : option value :=
  if truthy_value name then
    if truthy_value (table_get table name) then table_get table name
    else None
  else name.

(** The identifier that [table] gives for [name], if any, is itself a name
    of [table], for the same identifier. *)
Definition fixed_by (table : gmap string string) (name : option value)
  : Prop :=
  truthy_value name = true → truthy_value (table_get table name) = true →
  table_get table (table_get table name) = table_get table name.

(** What [table[name]] is when it is [v]: a string is the own entry of
    the table under the key; a member of [Object.prototype] is found
    under its own name, when the table has no entry of that name (the
    prototype itself under [__proto__], whatever the entries). *)
Definition given_by (table : gmap string string) (name : option value)
    (v : value) : Prop :=
  match v with
  | Str id =>
      property_key name ≠ "__proto__"
      ∧ table !! property_key name = Some id
  | Builtin member =>
      property_key name = member ∧ member ∈ Object_prototype
      ∧ (member = "__proto__" ∨ table !! member = None)
  end.

(** [s] can stand in the path of a request: it passes the check of
    [http.request]. *)
Definition fits_path (s : string) : Prop := unescaped s = false.

(** The [id] of every record of the heap can stand in a path: no call of
    [updateUser] for one of them throws. *)
Definition none_throws (heap : list User.t) : Prop :=
  ∀ user, user ∈ heap → fits_path (js_string (User.id user)).

(** The address that the loop body of [mapUserData] pushes, if any. *)
Definition pushed (addressTypes : gmap string string) (a : Address.t)
  : option Address.t :=
  (mapAddress addressTypes a).2.

(** Every request among [events] that was answered with a failure
    status is followed by a line of level [WARN]. *)
Fixpoint followed_by_warning (env : request → reply) (events : list event)
  : Prop :=
  match events with
  | [] => True
  | Sent req :: events =>
      match env req with
      | Response c _ =>
          status_failed c = true → ∃ m, Logged WARN m ∈ events
      | NoResponse _ => True
      end
      ∧ followed_by_warning env events
  | Logged _ _ :: events => followed_by_warning env events
  end.

(** Every refusal that a chain of calls met is on record as a warning,
    written after the request that was refused. *)
Definition failure_is_logged (env : request → reply) (r : run) : Prop :=
  followed_by_warning env r.1.

(** The records and returned users that the statements about whole
    batches are for: the external identifier is not [__proto__] (see
    [userMap_set]), and the [id] and the user name can stand in the path
    of a request, so that no call of [http.request] throws. *)
Definition plain_record (user : User.t) : Prop :=
  User.externalSystemId user ≠ "__proto__"
  ∧ fits_path (js_string (User.id user))
  ∧ fits_path (User.username user).

Definition plain_remote (r : Remote.t) : Prop :=
  Remote.externalSystemId r ≠ "__proto__"
  ∧ fits_path (js_string (Remote.id r)).

(** ** Sample data *)

Definition alice : User.t :=
  User.mk None "A" "alice" (Some (Str "staff"))
    (Some (Personal.mk "Liddell" (Some (Str "mail"))
             (Some [Address.mk (Some (Str "Home")) "1 Main St";
                    Address.mk (Some (Str "Nowhere")) "2 Side St"]))).

Definition bob : User.t := User.mk None "B" "bob" None None.

Definition carol : User.t :=
  User.mk None "C" "carol" (Some (Str "faculty")) None.

Definition sample_patronGroups : gmap string string := <["staff" := "pg-1"]> ∅.

Definition sample_addressTypes : gmap string string := <["Home" := "at-1"]> ∅.

Definition sample_uuid (n : nat) : string :=
  "uuid-" +:+ String (ascii_of_nat (48 + n mod 10)) EmptyString.

(** A server that answers every search with [found] and every other
    request with the status that [status] chooses. *)
Definition server (found : raw) (status : request → Z) (r : request) : reply :=
  match method (opts r) with
  | GET => Response 200 found
  | _ => Response (status r) Garbage
  end.

Definition accepts_all (r : request) : Z := 201.

(** The server refuses to attach permissions; everything else succeeds. *)
Definition permissions_rejected (r : request) : Z :=
  match method (opts r) with
  | POST => if String.eqb (path (opts r)) "/perms/users" then 500 else 201
  | _ => 204
  end.

(** The server refuses to store credentials; everything else succeeds. *)
Definition credentials_rejected (r : request) : Z :=
  match method (opts r) with
  | POST => if String.eqb (path (opts r)) "/authn/credentials" then 500 else 201
  | _ => 204
  end.

(** The server refuses to attach permissions and then refuses to delete
    the credentials. *)
Definition credentials_kept (r : request) : Z :=
  match method (opts r) with
  | POST => if String.eqb (path (opts r)) "/perms/users" then 500 else 201
  | DELETE =>
      if String.prefix "/authn/credentials/" (path (opts r)) then 500 else 204
  | _ => 200
  end.


(** Only the search for the batch [userList] gets an answer that cannot
    be parsed; every other request succeeds. *)
Definition search_fails_for (userList : list User.t) (r : request) : reply :=
  match method (opts r) with
  | GET =>
      if String.eqb (path (opts r)) (path (searchOptions (λ s, s) userList))
      then Response 200 Garbage
      else Response 200 (Json (Some []))
  | _ => Response 201 Garbage
  end.

(** The batch and the search response of the reconciliation example. *)
Definition found_B_and_D : list Remote.t :=
  [Remote.mk (Some "id-of-B") "B"; Remote.mk (Some "id-of-D") "D"].

(** * Properties *)

(** ** Partitioning *)

Section PartitionFacts.
Context {A : Type}.
Implicit Types (data : list A) (userData : list (list A)).

Lemma splice0_positive (p : Z) (data : list A) :
  0 < p → data ≠ [] →
  ∃ n, (0 < n)%nat ∧ Z.of_nat n = Z.min p (Z.of_nat (length data))
       ∧ splice0 p data = (take n data, drop n data).
Proof.
  intros Hp Hne. unfold splice0.
  exists (Z.to_nat (Z.min (Z.max p 0) (Z.of_nat (length data)))).
  assert (0 < length data)%nat by (destruct data; simpl; [done | lia]).
  repeat split; lia.
Qed.

Lemma ceil_last (p m : Z) : 0 < p → 0 < m ≤ p → (m + p - 1) / p = 1.
Proof.
  intros Hp Hm. symmetry. apply (Z.div_unique_pos _ _ 1 (m - 1)); lia.
Qed.

Lemma ceil_step (p m : Z) : 0 < p → (m - p + p - 1) / p + 1 = (m + p - 1) / p.
Proof.
  intros Hp. replace (m + p - 1) with ((m - p + p - 1) + 1 * p) by lia.
  rewrite Z.div_add by lia. lia.
Qed.

Lemma partition_loop_pages (p : Z) (k : nat) :
  0 < p → ∀ data, (length data ≤ k)%nat →
  ∃ pages,
    (∀ fuel userData, (length data < fuel)%nat →
       partition_loop fuel p data userData = Some (userData ++ pages))
    ∧ concat pages = data
    ∧ Z.of_nat (length pages) = (Z.of_nat (length data) + p - 1) / p
    ∧ (∀ i page, pages !! i = Some page → (S i < length pages)%nat →
         Z.of_nat (length page) = p).
Proof.
  intros Hp. induction k as [|k IH]; intros data Hk.
  - destruct data; [|simpl in Hk; lia]. exists []. split_and!.
    + intros [|fuel] userData Hf; [simpl in Hf; lia|].
      simpl. by rewrite app_nil_r.
    + done.
    + simpl. rewrite Z.div_small; lia.
    + intros i page Hi. by rewrite lookup_nil in Hi.
  - destruct (decide (data = [])) as [->|Hne].
    { apply IH. simpl. lia. }
    destruct (splice0_positive p data Hp Hne) as (n & Hn & Hmin & Hsplice).
    assert (Hlen : (0 < length data)%nat)
      by (destruct data; simpl; [done | lia]).
    destruct (IH (drop n data)) as (pages & Hrun & Hcat & Hcount & Hfull).
    { rewrite length_drop. lia. }
    exists (take n data :: pages). split_and!.
    + intros [|fuel] userData Hf; [lia|].
      destruct data as [|a data']; [done|].
      cbn [partition_loop]. rewrite Hsplice.
      rewrite Hrun by (rewrite length_drop; lia).
      by rewrite <- app_assoc.
    + simpl. rewrite Hcat. apply take_drop.
    + cbn [length]. rewrite Nat2Z.inj_succ, Hcount, length_drop.
      destruct (decide (Z.of_nat (length data) ≤ p)) as [Hle|Hgt].
      * replace (length data - n)%nat with 0%nat by lia.
        rewrite (ceil_last p (Z.of_nat (length data))) by lia.
        simpl. rewrite Z.div_small; lia.
      * rewrite Nat2Z.inj_sub by lia.
        replace (Z.of_nat n) with p by lia.
        rewrite <- (ceil_step p (Z.of_nat (length data))) by lia. lia.
    + intros [|i] page Hi Hlast.
      * injection Hi as <-. rewrite length_take.
        destruct pages as [|q pages']; [simpl in Hlast; lia|].
        assert (Z.of_nat (length data) ≤ p → False); [|lia].
        intros Hle.
        assert (Hnil : drop n data = []) by (apply drop_ge; lia).
        rewrite Hnil in Hrun.
        specialize (Hrun 1%nat [] ltac:(simpl; lia)). simpl in Hrun.
        discriminate.
      * apply (Hfull i); [done|]. simpl in Hlast. lia.
Qed.

End PartitionFacts.

(** C5. For a record list of length [n] and a page size [p > 0] the
    partition loop of [processUsers] ends (with enough fuel: more than
    [n] tests of its condition) and leaves [ceil(n/p)] batches in
    [userData], every batch but the last of exactly [p] records, whose
    concatenation is the record list in its order. *)
Theorem partition_loop_batches {A : Type} (data : list A) (p : Z) :
  0 < p →
  ∃ userData,
    (∀ fuel, (length data < fuel)%nat →
       partition_loop fuel p data [] = Some userData)
    ∧ Z.of_nat (length userData) = (Z.of_nat (length data) + p - 1) / p
    ∧ (∀ i page, userData !! i = Some page → (S i < length userData)%nat →
         Z.of_nat (length page) = p)
    ∧ concat userData = data.
Proof.
  intros Hp.
  destruct (partition_loop_pages p (length data) Hp data (le_n _))
    as (pages & Hrun & Hcat & Hcount & Hfull).
  exists pages. split_and!; try done.
  intros fuel Hf. by rewrite (Hrun fuel [] Hf).
Qed.

Lemma partition_loop_batches_witness :
  0 < 2 ∧
  ∃ userData,
    (∀ fuel, (length [1; 2; 3; 4; 5] < fuel)%nat →
       partition_loop fuel 2 [1; 2; 3; 4; 5] [] = Some userData)
    ∧ Z.of_nat (length userData)
      = (Z.of_nat (length [1; 2; 3; 4; 5]) + 2 - 1) / 2
    ∧ (∀ i page, userData !! i = Some page → (S i < length userData)%nat →
         Z.of_nat (length page) = 2)
    ∧ concat userData = [1; 2; 3; 4; 5].
Proof.
  split; [lia | apply (partition_loop_batches [1; 2; 3; 4; 5] 2); lia].
Defined.

Lemma partition_loop_stuck {A : Type} (p : Z) (data : list A) :
  p ≤ 0 → data ≠ [] →
  ∀ fuel userData, partition_loop fuel p data userData = None.
Proof.
  intros Hp Hne fuel. induction fuel as [|fuel IH]; intros userData; [done|].
  destruct data as [|a data']; [done|].
  cbn [partition_loop]. unfold splice0.
  replace (Z.to_nat (Z.min (Z.max p 0) (Z.of_nat (length (a :: data')))))
    with 0%nat by lia.
  rewrite take_0, drop_0. apply IH.
Qed.

(** C6, as the code has it.  [processUsers] does not look at the page
    size before it partitions.  With a page size [<= 0] and no records the
    loop is not entered: there are no batches and the import finishes
    without an error.  With at least one record every pass of the loop
    removes nothing from [data] and appends an empty batch, so the loop is
    still running after any number of passes and nothing is reported. *)
Theorem processUsers_pageSize_not_positive
    (patronGroups addressTypes : gmap string string) (env : request → reply)
    (uuidv1 : nat → string) (encodeURIComponent : string → string)
    (folioPageSize : Z) (data : list User.t) :
  folioPageSize ≤ 0 →
  (data = [] →
   ∀ fuel,
     processUsers patronGroups addressTypes env uuidv1 encodeURIComponent
       folioPageSize (S fuel) (Some data)
     = Some {| batches := [];
               final := [Logged INFO
                 "Import has finished. See log for failed users."];
               ended := Finished |})
  ∧ (data ≠ [] →
     ∀ fuel,
       processUsers patronGroups addressTypes env uuidv1 encodeURIComponent
         folioPageSize fuel (Some data) = None).
Proof.
  intros Hp. split.
  - intros -> fuel. reflexivity.
  - intros Hne fuel. unfold processUsers.
    by rewrite (partition_loop_stuck folioPageSize data Hp Hne).
Qed.

Lemma processUsers_pageSize_not_positive_witness :
  -3 ≤ 0 ∧
  ([bob] = [] →
   ∀ fuel,
     processUsers ∅ ∅ (server Garbage accepts_all) sample_uuid (λ s, s)
       (-3) (S fuel) (Some [bob])
     = Some {| batches := [];
               final := [Logged INFO
                 "Import has finished. See log for failed users."];
               ended := Finished |})
  ∧ ([bob] ≠ [] →
     ∀ fuel,
       processUsers ∅ ∅ (server Garbage accepts_all) sample_uuid (λ s, s)
         (-3) fuel (Some [bob]) = None).
Proof.
  split; [lia|].
  apply (processUsers_pageSize_not_positive ∅ ∅ (server Garbage accepts_all)
           sample_uuid (λ s, s) (-3) [bob]); lia.
Defined.

(** C6 as stated fails: with page size [0] and an empty record list no
    validation error is reported; the import ends normally with no batch
    and the line that announces the end of the import. *)
Lemma pageSize_zero_is_not_rejected :
  processUsers ∅ ∅ (server Garbage accepts_all) sample_uuid (λ s, s)
    0 1 (Some [])
  = Some {| batches := [];
            final := [Logged INFO
              "Import has finished. See log for failed users."];
            ended := Finished |}
  ∧ ∀ fuel,
      processUsers ∅ ∅ (server Garbage accepts_all) sample_uuid (λ s, s)
        0 fuel (Some [bob]) = None.
Proof.
  split; [reflexivity|].
  intros fuel. unfold processUsers.
  by rewrite (partition_loop_stuck 0 [bob]).
Qed.

(** ** The materializer *)

Section MaterializerFacts.
Variable patronGroups addressTypes : gmap string string.

Lemma translate_fixed (table : gmap string string) (name : option value) :
  fixed_by table name →
  translate table (translate table name) = translate table name.
Proof.
  unfold fixed_by, translate. intros Hfix.
  destruct (truthy_value name) eqn:Hname; [|by rewrite Hname].
  destruct (truthy_value (table_get table name)) eqn:Hid; [|done].
  rewrite Hid, (Hfix eq_refl eq_refl). by rewrite Hid.
Qed.

Lemma mapUserData_fields (user : User.t) :
  mapUserData patronGroups addressTypes user
  = {| User.id := User.id user;
       User.externalSystemId := User.externalSystemId user;
       User.username := User.username user;
       User.patronGroup := translate patronGroups (User.patronGroup user);
       User.personal := mapPersonal addressTypes <$> User.personal user |}.
Proof.
  destruct user as [i e n g p]. unfold mapUserData, translate. simpl.
  destruct (truthy_value g); [destruct (truthy_value _)|]; simpl;
    by destruct p.
Qed.

Lemma mapPersonal_fields (p : Personal.t) :
  mapPersonal addressTypes p
  = {| Personal.lastName := Personal.lastName p;
       Personal.preferredContactTypeId :=
         translate preferredContactTypes (Personal.preferredContactTypeId p);
       Personal.addresses :=
         match Personal.addresses p with
         | Some (a :: l) => Some (omap (pushed addressTypes) (a :: l))
         | other => other
         end |}.
Proof.
  destruct p as [ln c addrs]. unfold mapPersonal, translate. simpl.
  destruct (truthy_value c); [destruct (truthy_value _)|]; simpl;
    by destruct addrs as [[|??]|].
Qed.

Lemma pushed_Some (a b : Address.t) :
  pushed addressTypes a = Some b
  ↔ truthy_value (Address.addressTypeId a) = true
    ∧ truthy_value (table_get addressTypes (Address.addressTypeId a)) = true
    ∧ b = Address.set_addressTypeId
            (table_get addressTypes (Address.addressTypeId a)) a.
Proof.
  unfold pushed, mapAddress.
  destruct (truthy_value (Address.addressTypeId a));
    [|split; [done|by intros [? _]]].
  destruct (truthy_value (table_get _ _)); simpl.
  - split; [by intros [= <-]|by intros (_ & _ & ->)].
  - split; [done|by intros (_ & ? & _)].
Qed.

Lemma mapAddress_fixed (a b : Address.t) :
  fixed_by addressTypes (Address.addressTypeId a) →
  pushed addressTypes a = Some b → pushed addressTypes b = Some b.
Proof.
  unfold fixed_by. intros Hfix (Ha & Hid & ->)%pushed_Some.
  apply pushed_Some. simpl. rewrite (Hfix Ha Hid). by rewrite Hid.
Qed.

Lemma omap_mapAddress_fixed (l : list Address.t) :
  (∀ a, a ∈ l → fixed_by addressTypes (Address.addressTypeId a)) →
  omap (pushed addressTypes) (omap (pushed addressTypes) l)
  = omap (pushed addressTypes) l.
Proof.
  induction l as [|a l IH]; intros Hfix; [done|].
  simpl. destruct (pushed addressTypes a) as [b|] eqn:Hb.
  - simpl. rewrite (mapAddress_fixed a b); [|apply Hfix; left|done].
    f_equal. apply IH. intros a' Ha'. apply Hfix. by right.
  - apply IH. intros a' Ha'. apply Hfix. by right.
Qed.

Lemma mapPersonal_fixed (p : Personal.t) :
  fixed_by preferredContactTypes (Personal.preferredContactTypeId p) →
  (∀ l a, Personal.addresses p = Some l → a ∈ l →
     fixed_by addressTypes (Address.addressTypeId a)) →
  mapPersonal addressTypes (mapPersonal addressTypes p)
  = mapPersonal addressTypes p.
Proof.
  intros Hc Ha. destruct p as [ln c addrs]. simpl in *.
  rewrite !mapPersonal_fields.
  cbn [Personal.lastName Personal.preferredContactTypeId Personal.addresses].
  rewrite (translate_fixed _ _ Hc). f_equal.
  destruct addrs as [[|a l]|]; try done.
  specialize (Ha (a :: l)).
  pose proof (omap_mapAddress_fixed (a :: l)) as Hl.
  destruct (omap (pushed addressTypes) (a :: l)) as [|b l']; [done|].
  f_equal. apply Hl. intros a' Ha'. by apply Ha.
Qed.

(** The lines of [mapUserData] are warnings about skipped addresses. *)
Lemma mapUserData_log_warnings (user : User.t) (e : event) :
  e ∈ mapUserData_log addressTypes user →
  e = Logged WARN
        "Address does not have valid address type which is mandatory. Skipping.".
Proof.
  unfold mapUserData_log.
  destruct (User.personal user) as [p|]; [|by intros ?%elem_of_nil].
  destruct (Personal.addresses p) as [[|a l]|]; try by intros ?%elem_of_nil.
  intros (a' & He & _)%list_elem_of_bind. revert He. unfold mapAddress.
  destruct (truthy_value (Address.addressTypeId a'));
    [|by intros ?%elem_of_nil].
  destruct (truthy_value (table_get _ _)); [by intros ?%elem_of_nil|].
  by intros ->%list_elem_of_singleton.
Qed.

Lemma requests_mapUserData_log (user : User.t) :
  requests (mapUserData_log addressTypes user) = [].
Proof.
  unfold mapUserData_log.
  destruct (User.personal user) as [p|]; [|done].
  destruct (Personal.addresses p) as [[|a l]|]; try done.
  generalize (a :: l). intros l'. induction l' as [|a' l' IH]; [done|].
  csimpl. unfold requests in *. rewrite omap_app, IH, app_nil_r.
  unfold mapAddress. destruct (truthy_value (Address.addressTypeId a'));
    [|done].
  by destruct (truthy_value (table_get _ _)).
Qed.

End MaterializerFacts.

(** C8, as the code has it.  [mapUserData] applied to its own result
    looks up as names what it has just written.  The second application
    gives the same record when everything that a table gives for a name
    of the record is mapped to itself by that table (in particular when
    the tables give nothing for the names of the record); without that
    it removes or replaces what the first application wrote.  What a
    table gives for a name is its own entry or else the member of
    [Object.prototype] of that name; such a member is looked up under its
    source text. *)
Theorem mapUserData_twice (patronGroups addressTypes : gmap string string)
    (user : User.t) :
  fixed_by patronGroups (User.patronGroup user) →
  (∀ p, User.personal user = Some p →
     fixed_by preferredContactTypes (Personal.preferredContactTypeId p)
     ∧ ∀ l a, Personal.addresses p = Some l → a ∈ l →
         fixed_by addressTypes (Address.addressTypeId a)) →
  mapUserData patronGroups addressTypes
    (mapUserData patronGroups addressTypes user)
  = mapUserData patronGroups addressTypes user.
Proof.
  intros Hg Hp. rewrite !mapUserData_fields. simpl.
  rewrite (translate_fixed _ _ Hg). f_equal.
  destruct (User.personal user) as [p|]; [|done]. simpl. f_equal.
  destruct (Hp p eq_refl) as [Hc Ha]. by apply mapPersonal_fixed.
Qed.

Lemma mapUserData_twice_witness :
  let patronGroups : gmap string string :=
    <["staff" := "pg-1"]> (<["pg-1" := "pg-1"]> ∅) in
  let addressTypes : gmap string string :=
    <["Home" := "at-1"]> (<["at-1" := "at-1"]> ∅) in
  let user :=
    User.mk None "A" "alice" (Some (Str "staff"))
      (Some (Personal.mk "Liddell" (Some (Str "fax"))
               (Some [Address.mk (Some (Str "Home")) "1 Main St";
                      Address.mk (Some (Str "Nowhere")) "2 Side St"]))) in
  fixed_by patronGroups (User.patronGroup user)
  ∧ (∀ p, User.personal user = Some p →
       fixed_by preferredContactTypes (Personal.preferredContactTypeId p)
       ∧ ∀ l a, Personal.addresses p = Some l → a ∈ l →
           fixed_by addressTypes (Address.addressTypeId a))
  ∧ mapUserData patronGroups addressTypes
      (mapUserData patronGroups addressTypes user)
    = mapUserData patronGroups addressTypes user.
Proof.
  intros patronGroups addressTypes user.
  assert (Hg : fixed_by patronGroups (User.patronGroup user))
    by (intros _ _; vm_compute; reflexivity).
  assert (Hp : ∀ p, User.personal user = Some p →
       fixed_by preferredContactTypes (Personal.preferredContactTypeId p)
       ∧ ∀ l a, Personal.addresses p = Some l → a ∈ l →
           fixed_by addressTypes (Address.addressTypeId a)).
  { intros p [= <-]. split.
    - intros _ Hid. vm_compute in Hid. discriminate.
    - intros l a [= <-] Ha.
      apply elem_of_cons in Ha as [->|Ha].
      + intros _ _. vm_compute. reflexivity.
      + apply elem_of_cons in Ha as [->|Ha]; [|by apply elem_of_nil in Ha].
        intros _ Hid. vm_compute in Hid. discriminate. }
  split; [exact Hg|]. split; [exact Hp|].
  exact (mapUserData_twice patronGroups addressTypes user Hg Hp).
Defined.

(** C8 as stated fails: with any tables, a record whose preferred contact
    type is [mail] gets the code [001], and a second application, which
    finds no contact type named [001], removes it. *)
Lemma mapUserData_not_idempotent :
  mapUserData ∅ ∅ (mapUserData ∅ ∅ alice) ≠ mapUserData ∅ ∅ alice
  ∧ (User.personal (mapUserData ∅ ∅ alice)
       ≫= Personal.preferredContactTypeId) = Some (Str "001")
  ∧ (User.personal (mapUserData ∅ ∅ (mapUserData ∅ ∅ alice))
       ≫= Personal.preferredContactTypeId) = None.
Proof. split_and!; [discriminate | reflexivity | reflexivity]. Qed.

(** C9, as the code has it.  [mapUserData] works on the object it is
    given: it returns the reference it received, and the object behind it
    is afterwards the translated record, so the patron group, the
    preferred contact type and the address list of the record received
    are overwritten or removed.  What it leaves alone are the [id], the
    [externalSystemId] and the [username] of that record, and every other
    record in memory. *)
Theorem mapUserData_in_place_effect
    (patronGroups addressTypes : gmap string string)
    (heap : list User.t) (ref : nat) :
  (mapUserData_in_place patronGroups addressTypes heap ref).2 = ref
  ∧ (mapUserData_in_place patronGroups addressTypes heap ref).1 !! ref
    = mapUserData patronGroups addressTypes <$> heap !! ref
  ∧ (∀ other, other ≠ ref →
       (mapUserData_in_place patronGroups addressTypes heap ref).1 !! other
       = heap !! other)
  ∧ (∀ user, heap !! ref = Some user →
       let user' := mapUserData patronGroups addressTypes user in
       User.id user' = User.id user
       ∧ User.externalSystemId user' = User.externalSystemId user
       ∧ User.username user' = User.username user).
Proof.
  unfold mapUserData_in_place. simpl. split_and!.
  - done.
  - rewrite list_lookup_alter. by case_decide.
  - intros other Hne. by apply list_lookup_alter_ne.
  - intros user _. by rewrite mapUserData_fields.
Qed.

Lemma mapUserData_in_place_effect_witness :
  (mapUserData_in_place sample_patronGroups sample_addressTypes
     [alice; bob] 0).2 = 0%nat
  ∧ (mapUserData_in_place sample_patronGroups sample_addressTypes
       [alice; bob] 0).1 !! 0%nat
    = mapUserData sample_patronGroups sample_addressTypes
        <$> [alice; bob] !! 0%nat
  ∧ (∀ other, other ≠ 0%nat →
       (mapUserData_in_place sample_patronGroups sample_addressTypes
          [alice; bob] 0).1 !! other
       = [alice; bob] !! other)
  ∧ (∀ user, [alice; bob] !! 0%nat = Some user →
       let user' := mapUserData sample_patronGroups sample_addressTypes user in
       User.id user' = User.id user
       ∧ User.externalSystemId user' = User.externalSystemId user
       ∧ User.username user' = User.username user).
Proof.
  exact (mapUserData_in_place_effect sample_patronGroups sample_addressTypes
           [alice; bob] 0).
Defined.

(** C9 as stated fails: after [mapUserData] the record that was passed in
    no longer has the patron group name [staff] it came with, one of its
    two addresses is gone, and what is returned is that same record, not a
    copy. *)
Lemma mapUserData_changes_its_argument :
  let heap := [alice] in
  let after := mapUserData_in_place sample_patronGroups sample_addressTypes
                 heap 0 in
  heap !! 0%nat = Some alice
  ∧ after.2 = 0%nat
  ∧ after.1 !! 0%nat ≠ Some alice
  ∧ (User.patronGroup <$> (after.1 !! 0%nat)) = Some (Some (Str "pg-1"))
  ∧ (((after.1 !! 0%nat) ≫= User.personal) ≫= Personal.addresses)
    = Some [Address.mk (Some (Str "at-1")) "1 Main St"].
Proof. split_and!; try reflexivity. discriminate. Qed.

(** ** The creation chain of one record *)

Section ChainFacts.
Variable patronGroups addressTypes : gmap string string.
Variable env : request → reply.
Variable uuidv1 : nat → string.

(** The object that [createUser] sends: the record with its generated
    identifier, translated. *)
Lemma createUser_object (n : nat) (user : User.t) (callback : callback_t) :
  (createUser patronGroups addressTypes env uuidv1 n user callback).1
  = mapUserData patronGroups addressTypes
      (User.set_id (Some (uuidv1 n)) user).
Proof. reflexivity. Qed.

Lemma createUser_object_id (n : nat) (user : User.t) (callback : callback_t) :
  User.id (createUser patronGroups addressTypes env uuidv1 n user callback).1
  = Some (uuidv1 n).
Proof. rewrite createUser_object. by rewrite mapUserData_fields. Qed.

(** A request whose path passes the check of [http.request] is sent. *)
Lemma http_request_sent (opts : options) (written : payload)
    (onResponse : Z → raw → run) (onError : option (error → run)) :
  unescaped (path opts) = false →
  http_request env opts written onResponse onError
  = emit [Sent {| opts := opts; written := written |}]
      match env {| opts := opts; written := written |} with
      | Response statusCode rawData =>
          on_event (onResponse statusCode rawData)
      | NoResponse e =>
          match onError with
          | Some h => on_event (h e)
          | None => ([], Uncaught e)
          end
      end.
Proof. unfold http_request. by intros ->. Qed.

(** A request whose path does not pass it is not: [http.request]
    throws. *)
Lemma http_request_refused (opts : options) (written : payload)
    (onResponse : Z → raw → run) (onError : option (error → run)) :
  unescaped (path opts) = true →
  http_request env opts written onResponse onError
  = ([], Throw (TypeError "Request path contains unescaped characters")).
Proof. unfold http_request. by intros ->. Qed.

(** [deleteUser] without a callback: whatever the server answers, the
    handler throws when it calls the callback, throws again in its
    [catch], and nothing is called back. *)
Lemma deleteUser_undefined_callback (user : jsval) :
  user ≠ Undefined →
  unescaped (path (deleteOptions user)) = false →
  ∃ events,
    deleteUser env user None
    = (Sent {| opts := deleteOptions user; written := NoBody |} :: events,
       Uncaught (TypeError "callback is not a function"))
    ∧ requests events = [].
Proof.
  intros Hu Hpath. unfold deleteUser.
  destruct user as [|u|f]; [done| |];
    rewrite http_request_sent by done;
    (destruct (env _) as [e|statusCode rawData];
      [|destruct (status_failed statusCode) eqn:Hs]);
    cbn; rewrite ?Hs; cbn; eauto.
Qed.

Lemma unescaped_app (a b : string) :
  unescaped (a +:+ b) = unescaped a || unescaped b.
Proof.
  induction a as [|c a IH]; [done|].
  change (unescaped (String c (a +:+ b))
          = unescaped_char c || unescaped a || unescaped b).
  cbn [unescaped]. by rewrite IH, orb_assoc.
Qed.

Lemma updateOptions_fits (user : User.t) :
  fits_path (js_string (User.id user)) →
  unescaped (path (updateOptions
                     (mapUserData patronGroups addressTypes user))) = false.
Proof.
  unfold fits_path, updateOptions, createRequest. cbn [path].
  by rewrite unescaped_app, mapUserData_fields.
Qed.

Lemma removeCredentialsOptions_fits (user : User.t) :
  fits_path (User.username user) →
  unescaped (path (removeCredentialsOptions
                     (mapUserData patronGroups addressTypes user))) = false.
Proof.
  unfold fits_path, removeCredentialsOptions, createRequest. cbn [path].
  by rewrite unescaped_app, mapUserData_fields.
Qed.

Lemma deleteOptions_fits (n : nat) (user : User.t) :
  fits_path (uuidv1 n) →
  unescaped (path (deleteOptions
                     (Object (mapUserData patronGroups addressTypes
                                (User.set_id (Some (uuidv1 n)) user)))))
  = false.
Proof.
  unfold fits_path, deleteOptions, createRequest. cbn [path prop_id].
  by rewrite unescaped_app, mapUserData_fields.
Qed.

(** The lines of [mapUserData] come before the first request and do not
    count as the warning that follows a refusal. *)
Lemma followed_by_warning_log (user : User.t) (events : list event) :
  followed_by_warning env (mapUserData_log addressTypes user ++ events)
  ↔ followed_by_warning env events.
Proof.
  pose proof (mapUserData_log_warnings addressTypes user) as Hlog.
  induction (mapUserData_log addressTypes user) as [|e log IH]; [done|].
  rewrite (Hlog e) by left. cbn [app followed_by_warning].
  apply IH. intros e' He'. apply Hlog. by right.
Qed.

End ChainFacts.

Lemma requests_app (l1 l2 : list event) :
  requests (l1 ++ l2) = requests l1 ++ requests l2.
Proof. apply omap_app. Qed.

(** C1, as the code has it.  For a record that is created, whose
    create-record and create-credential calls succeed and whose
    apply-permission call gets a failure status, the chain logs the
    failure.  When the path of the credential-delete call (which ends in
    the user name) passes the check of [http.request], that call is sent
    next, whatever is answered to it.  When it succeeds, the
    record-delete call addressed at the generated identifier follows, and
    only the answer to the record-delete call ends the chain, by calling
    the record's callback: with an error when the record-delete call was
    refused or failed.  When the credential-delete call is refused, no
    record-delete call is sent.  When the path does not pass the check
    (a user name with a space, say), no delete is sent at all: the
    exception of [http.request] is caught by the handler of the
    apply-permission response, which calls the record's callback with
    it. *)
Theorem permission_failure_rolls_back
    (patronGroups addressTypes : gmap string string) (env : request → reply)
    (uuidv1 : nat → string) (n : nat) (user0 : User.t)
    (c1 c2 c3 : Z) (t1 t2 t3 : raw) :
  let created :=
    createUser patronGroups addressTypes env uuidv1 n user0 userCallback in
  let user := created.1 in
  let create := {| opts := createOptions; written := UserBody user |} in
  let credentials :=
    {| opts := credentialsOptions;
       written := CredentialsBody (User.username user) "" |} in
  let permissions :=
    {| opts := permissionsOptions;
       written := PermissionsBody (User.username user) [] |} in
  let uncredential :=
    {| opts := removeCredentialsOptions user; written := NoBody |} in
  let delete :=
    {| opts := deleteOptions (Object user); written := NoBody |} in
  env create = Response c1 t1 → status_failed c1 = false →
  env credentials = Response c2 t2 → status_failed c2 = false →
  env permissions = Response c3 t3 → status_failed c3 = true →
  Logged WARN ("Failed to create user permissions for user with name: "
               +:+ User.username user) ∈ created.2.1
  ∧ (unescaped (path (opts uncredential)) = false →
     (∃ rest,
        requests created.2.1
        = [create; credentials; permissions; uncredential] ++ rest)
     ∧ (∀ c4 t4,
          env uncredential = Response c4 t4 → status_failed c4 = false →
          unescaped (path (opts delete)) = false →
          requests created.2.1
          = [create; credentials; permissions; uncredential; delete]
          ∧ path (opts delete) = "/users/" +:+ uuidv1 n
          ∧ created.2.2
            = match env delete with
              | Response c5 _ =>
                  Called (if status_failed c5
                          then Some (Error
                                 ("Failed to delete user with externalSystemId: "
                                  +:+ User.externalSystemId user))
                          else None)
              | NoResponse e => Called (Some e)
              end)
     ∧ (∀ c4 t4,
          env uncredential = Response c4 t4 → status_failed c4 = true →
          requests created.2.1
          = [create; credentials; permissions; uncredential]))
  ∧ (unescaped (path (opts uncredential)) = true →
     requests created.2.1 = [create; credentials; permissions]
     ∧ created.2.2
       = Called (Some (TypeError
                         "Request path contains unescaped characters"))).
Proof.
  intros created user create credentials permissions uncredential delete.
  assert (Hid : User.id user = Some (uuidv1 n)) by apply createUser_object_id.
  subst created. cbn [createUser fst snd] in *.
  set (u := mapUserData patronGroups addressTypes
              (User.set_id (Some (uuidv1 n)) user0)) in *.
  set (log := mapUserData_log addressTypes
                (User.set_id (Some (uuidv1 n)) user0)).
  assert (Hlog : requests log = []) by apply requests_mapUserData_log.
  subst user create credentials permissions uncredential delete.
  intros H1 S1 H2 S2 H3 S3.
  rewrite http_request_sent by reflexivity. rewrite H1.
  cbn [emit on_event try_catch fst snd]. rewrite S1.
  unfold createCredentials. rewrite http_request_sent by reflexivity.
  rewrite H2. cbn [emit on_event try_catch fst snd]. rewrite S2.
  unfold applyEmptyPermissionSet. rewrite http_request_sent by reflexivity.
  rewrite H3. cbn [emit on_event try_catch fst snd]. rewrite S3.
  unfold removeUserCredentials.
  destruct (unescaped (path (removeCredentialsOptions u))) eqn:Hpath.
  - rewrite http_request_refused by done.
    cbn [emit on_event try_catch fst snd userCallback].
    split_and!; [|intros Hf; cbn [opts] in Hf; congruence|].
    + apply elem_of_app. right.
      repeat first [apply list_elem_of_here | apply list_elem_of_further].
    + intros _. by rewrite requests_app, Hlog.
  - rewrite http_request_sent by done.
    destruct (env {| opts := removeCredentialsOptions u;
                     written := NoBody |}) as [e|c4 t4] eqn:H4;
      [|destruct (status_failed c4) eqn:S4;
        [|unfold deleteUser;
          destruct (unescaped (path (deleteOptions (Object u)))) eqn:Hd;
          [rewrite http_request_refused by done
          |rewrite http_request_sent by done;
           destruct (env {| opts := deleteOptions (Object u);
                            written := NoBody |}) as [e|c5 t5] eqn:H5;
           [|destruct (status_failed c5) eqn:S5]]]];
      cbn [emit on_event try_catch fst snd userCallback call];
      rewrite ?S4, ?S5;
      cbn [emit on_event try_catch fst snd userCallback call];
      rewrite requests_app, Hlog;
      (split_and!;
        [apply elem_of_app; right;
         repeat first [apply list_elem_of_here | apply list_elem_of_further]
        | |intros Hf; cbn [opts] in Hf; congruence]);
      intros _;
      (split_and!;
        [cbn; eauto
        |intros c4' t4' Heq S4' Hd'
        |intros c4' t4' Heq S4']);
      try discriminate Heq; try (injection Heq as <- <-);
      try (cbn [opts] in Hd'; congruence); try congruence;
      cbn; by rewrite ?Hid.
Qed.

Lemma permission_failure_rolls_back_witness :
  let env := server (Json (Some [])) permissions_rejected in
  let created :=
    createUser sample_patronGroups sample_addressTypes env sample_uuid
      0 alice userCallback in
  let user := created.1 in
  let create := {| opts := createOptions; written := UserBody user |} in
  let credentials :=
    {| opts := credentialsOptions;
       written := CredentialsBody (User.username user) "" |} in
  let permissions :=
    {| opts := permissionsOptions;
       written := PermissionsBody (User.username user) [] |} in
  let uncredential :=
    {| opts := removeCredentialsOptions user; written := NoBody |} in
  let delete :=
    {| opts := deleteOptions (Object user); written := NoBody |} in
  (env create = Response 201 Garbage ∧ status_failed 201 = false
   ∧ env credentials = Response 201 Garbage
   ∧ env permissions = Response 500 Garbage ∧ status_failed 500 = true
   ∧ unescaped (path (opts uncredential)) = false
   ∧ env uncredential = Response 204 Garbage ∧ status_failed 204 = false
   ∧ unescaped (path (opts delete)) = false)
  ∧ Logged WARN ("Failed to create user permissions for user with name: "
                 +:+ User.username user) ∈ created.2.1
  ∧ (unescaped (path (opts uncredential)) = false →
     (∃ rest,
        requests created.2.1
        = [create; credentials; permissions; uncredential] ++ rest)
     ∧ (∀ c4 t4,
          env uncredential = Response c4 t4 → status_failed c4 = false →
          unescaped (path (opts delete)) = false →
          requests created.2.1
          = [create; credentials; permissions; uncredential; delete]
          ∧ path (opts delete) = "/users/" +:+ sample_uuid 0
          ∧ created.2.2
            = match env delete with
              | Response c5 _ =>
                  Called (if status_failed c5
                          then Some (Error
                                 ("Failed to delete user with externalSystemId: "
                                  +:+ User.externalSystemId user))
                          else None)
              | NoResponse e => Called (Some e)
              end)
     ∧ (∀ c4 t4,
          env uncredential = Response c4 t4 → status_failed c4 = true →
          requests created.2.1
          = [create; credentials; permissions; uncredential]))
  ∧ (unescaped (path (opts uncredential)) = true →
     requests created.2.1 = [create; credentials; permissions]
     ∧ created.2.2
       = Called (Some (TypeError
                         "Request path contains unescaped characters"))).
Proof.
  intros env created user create credentials permissions uncredential delete.
  split; [by split_and!|].
  apply (permission_failure_rolls_back sample_patronGroups
           sample_addressTypes env sample_uuid 0 alice 201 201 500
           Garbage Garbage Garbage); reflexivity.
Defined.

(** C1 as stated fails: when the credential-delete call is refused, no
    record-delete call follows (the created record stays), and the
    record's callback is never called. *)
Lemma refused_credential_delete_keeps_record :
  let env := server (Json (Some [])) credentials_kept in
  let created :=
    createUser sample_patronGroups sample_addressTypes env sample_uuid
      0 alice userCallback in
  let user := created.1 in
  let create := {| opts := createOptions; written := UserBody user |} in
  let credentials :=
    {| opts := credentialsOptions; written := CredentialsBody "alice" "" |} in
  let permissions :=
    {| opts := permissionsOptions; written := PermissionsBody "alice" [] |} in
  let uncredential :=
    {| opts := createRequest DELETE "/authn/credentials/alice" "text/plain"
                 None;
       written := NoBody |} in
  env create = Response 201 Garbage
  ∧ env credentials = Response 201 Garbage
  ∧ env permissions = Response 500 Garbage
  ∧ env uncredential = Response 500 Garbage
  ∧ requests created.2.1 = [create; credentials; permissions; uncredential]
  ∧ created.2.2 = Uncaught (TypeError "callback is not a function").
Proof. split_and!; reflexivity. Qed.

(** What [createUser] does when the credentials are refused, for any
    record and any server: the delete goes to [/users/undefined], and the
    chain ends in an exception that nobody catches. *)
Lemma credentials_failure_chain
    (patronGroups addressTypes : gmap string string) (env : request → reply)
    (uuidv1 : nat → string) (n : nat) (user0 : User.t)
    (c1 c2 : Z) (t1 t2 : raw) :
  let created :=
    createUser patronGroups addressTypes env uuidv1 n user0 userCallback in
  let user := created.1 in
  let create := {| opts := createOptions; written := UserBody user |} in
  let credentials :=
    {| opts := credentialsOptions;
       written := CredentialsBody (User.username user) "" |} in
  env create = Response c1 t1 → status_failed c1 = false →
  env credentials = Response c2 t2 → status_failed c2 = true →
  requests created.2.1
  = [create; credentials;
     {| opts := createRequest DELETE "/users/undefined" "text/plain" None;
        written := NoBody |}]
  ∧ User.id user = Some (uuidv1 n)
  ∧ created.2.2 = Uncaught (TypeError "callback is not a function").
Proof.
  intros created user create credentials.
  assert (Hid : User.id user = Some (uuidv1 n)) by apply createUser_object_id.
  subst created. cbn [createUser fst snd] in *.
  set (u := mapUserData patronGroups addressTypes
              (User.set_id (Some (uuidv1 n)) user0)) in *.
  subst user create credentials.
  intros H1 S1 H2 S2.
  destruct (deleteUser_undefined_callback env (Function userCallback))
    as (events & Hdel & Hreq); [done|reflexivity|].
  cbn [emit fst snd]. rewrite requests_app, requests_mapUserData_log.
  set (r := http_request env createOptions (UserBody u) _ _).
  assert (Hr :
    r = ([Sent {| opts := createOptions; written := UserBody u |};
          Logged INFO ("User create status: " +:+ User.externalSystemId u);
          Logged DEBUG "Created user successfully. Creating credentials.";
          Sent {| opts := credentialsOptions;
                  written := CredentialsBody (User.username u) "" |};
          Logged INFO ("User credentials creation status: "
                       +:+ User.username u);
          Logged WARN
            ("Failed to create user credentials for user with name: "
             +:+ User.username u);
          Logged DEBUG "Deleting user.";
          Sent {| opts := deleteOptions (Function userCallback);
                  written := NoBody |}] ++ events,
         Uncaught (TypeError "callback is not a function"))).
  { subst r. rewrite http_request_sent by reflexivity. rewrite H1.
    cbn [emit on_event try_catch fst snd]. rewrite S1.
    unfold createCredentials. rewrite http_request_sent by reflexivity.
    rewrite H2. cbn [emit on_event try_catch fst snd]. rewrite S2.
    rewrite Hdel. reflexivity. }
  rewrite Hr. cbn [fst snd]. rewrite requests_app, Hreq. done.
Qed.

(** C2, on the code.  A record whose create-record call succeeds and
    whose create-credential call is refused: the source calls
    [deleteUser(callback)], so the one delete-record call that is sent is
    addressed at [/users/undefined] and not at the generated identifier
    [uuid-0], and since [deleteUser] has no callback the handler of the
    answer throws: the record's callback is never called. *)
Theorem credentials_failure_on_alice :
  let env := server (Json (Some [])) credentials_rejected in
  let created :=
    createUser sample_patronGroups sample_addressTypes env sample_uuid
      0 alice userCallback in
  let user := created.1 in
  User.id user = Some "uuid-0"
  ∧ requests created.2.1
    = [ {| opts := createRequest POST "/users" "text/plain"
                     (Some "application/json");
           written := UserBody user |};
        {| opts := createRequest POST "/authn/credentials" "text/plain"
                     (Some "application/json");
           written := CredentialsBody "alice" "" |};
        {| opts := createRequest DELETE "/users/undefined" "text/plain" None;
           written := NoBody |} ]
  ∧ created.2.2 = Uncaught (TypeError "callback is not a function").
Proof. split_and!; reflexivity. Qed.

(** ** The object [userMap] and the dispatch of a batch *)

Section UserMapFacts.
Implicit Types (map : list (string * nat)) (key : string) (ref : nat).
Implicit Types (userList heap : list User.t).

Lemma userMap_own_set key key' ref map :
  userMap_own key (userMap_set key' ref map)
  = if decide (key' = key) then Some ref else userMap_own key map.
Proof.
  induction map as [|[k r] map IH]; simpl.
  - destruct (String.eqb_spec key' key); case_decide; congruence.
  - destruct (String.eqb_spec k key') as [->|Hk]; simpl.
    + destruct (String.eqb_spec key' key); case_decide; congruence.
    + destruct (String.eqb_spec k key) as [->|Hk'].
      * by rewrite decide_False by congruence.
      * apply IH.
Qed.

Lemma userMap_set_keys key ref map :
  (userMap_set key ref map).*1
  = if decide (key ∈ map.*1) then map.*1 else map.*1 ++ [key].
Proof.
  induction map as [|[k r] map IH]; csimpl.
  - done.
  - destruct (String.eqb_spec k key) as [->|Hk]; csimpl.
    + rewrite decide_True; [done | left].
    + rewrite IH. destruct (decide (key ∈ map.*1)) as [Hin|Hin].
      * rewrite decide_True; [done | by right].
      * rewrite decide_False; [done|].
        rewrite elem_of_cons. intros [?|?]; congruence.
Qed.

Lemma userMap_set_NoDup key ref map :
  NoDup map.*1 → NoDup (userMap_set key ref map).*1.
Proof.
  intros Hnd. rewrite userMap_set_keys. case_decide; [done|].
  apply NoDup_app. split_and!; [done | | apply NoDup_singleton].
  intros k Hk ->%list_elem_of_singleton. done.
Qed.

Lemma userMap_own_elem_of key ref map :
  NoDup map.*1 → (key, ref) ∈ map ↔ userMap_own key map = Some ref.
Proof.
  induction map as [|[k r] map IH]; simpl; intros Hnd.
  - split; [by intros ?%elem_of_nil | done].
  - apply NoDup_cons in Hnd as [Hk Hnd].
    rewrite elem_of_cons.
    destruct (String.eqb_spec k key) as [->|Hne].
    + split.
      * intros [[= ->]|Hin]; [done|].
        destruct Hk. apply list_elem_of_fmap. by exists (key, ref).
      * intros [= ->]. by left.
    + rewrite <- (IH Hnd). split; [|by right].
      intros [[= ? ?]|?]; [congruence | done].
Qed.

Lemma reduce_userMap_snoc userList (x : User.t) i map :
  reduce_userMap (userList ++ [x]) i map
  = userMap_set (User.externalSystemId x) (i + length userList)
      (reduce_userMap userList i map).
Proof.
  revert i map. induction userList as [|u userList IH]; intros i map; simpl.
  - by rewrite Nat.add_0_r.
  - rewrite IH. f_equal. lia.
Qed.

Lemma reduce_userMap_NoDup userList : NoDup (reduce_userMap userList 0 []).*1.
Proof.
  induction userList as [|x userList IH] using rev_ind; [constructor|].
  rewrite reduce_userMap_snoc. by apply userMap_set_NoDup.
Qed.

(** [userMap[key]] is the last record of the batch with that key. *)
Lemma userMap_own_reduce userList key ref :
  userMap_own key (reduce_userMap userList 0 []) = Some ref
  ↔ ∃ user, userList !! ref = Some user
            ∧ User.externalSystemId user = key
            ∧ ∀ j user', userList !! j = Some user' →
                User.externalSystemId user' = key → (j ≤ ref)%nat.
Proof.
  revert ref. induction userList as [|x userList IH] using rev_ind; intros ref.
  - simpl. split; [done|]. intros (user & Hl & _). by rewrite lookup_nil in Hl.
  - rewrite reduce_userMap_snoc, userMap_own_set. simpl.
    destruct (decide (User.externalSystemId x = key)) as [Hx|Hx].
    + split.
      * intros [= <-]. exists x. split_and!; [|done|].
        -- by rewrite lookup_app_r, Nat.sub_diag by lia.
        -- intros j user' Hj _. apply lookup_lt_Some in Hj.
           rewrite length_app in Hj. simpl in Hj. lia.
      * intros (user & Hl & Hkey & Hmax). f_equal.
        specialize (Hmax (length userList) x).
        rewrite lookup_app_r, Nat.sub_diag in Hmax by lia.
        specialize (Hmax eq_refl Hx).
        apply lookup_lt_Some in Hl. rewrite length_app in Hl. simpl in Hl. lia.
    + rewrite IH. split.
      * intros (user & Hl & Hkey & Hmax). exists user. split_and!; [|done|].
        -- by apply lookup_app_l_Some.
        -- intros j user' Hj Hk.
           destruct (decide (j < length userList)%nat) as [Hlt|Hge].
           ++ rewrite lookup_app_l in Hj by done. by apply (Hmax j user').
           ++ rewrite lookup_app_r in Hj by lia.
              destruct (j - length userList)%nat; simpl in Hj;
                [congruence | by rewrite lookup_nil in Hj].
      * intros (user & Hl & Hkey & Hmax).
        assert (Hlt : (ref < length userList)%nat).
        { destruct (decide (ref < length userList)%nat) as [|Hge]; [done|].
          rewrite lookup_app_r in Hl by lia.
          destruct (ref - length userList)%nat; simpl in Hl;
            [congruence | by rewrite lookup_nil in Hl]. }
        rewrite lookup_app_l in Hl by done.
        exists user. split_and!; [done..|].
        intros j user' Hj. apply Hmax. by apply lookup_app_l_Some.
Qed.

Lemma userMap_own_reduce_None userList key :
  userMap_own key (reduce_userMap userList 0 []) = None
  ↔ ∀ user, user ∈ userList → User.externalSystemId user ≠ key.
Proof.
  induction userList as [|x userList IH] using rev_ind.
  - simpl. split; [|done]. by intros _ user ?%elem_of_nil.
  - rewrite reduce_userMap_snoc, userMap_own_set. simpl.
    destruct (decide (User.externalSystemId x = key)) as [Hx|Hx].
    + split; [done|]. intros Hall. destruct (Hall x); [|done].
      apply elem_of_app. right. left.
    + rewrite IH. split.
      * intros Hall user [Hin| ->%list_elem_of_singleton]%elem_of_app;
          [by apply Hall | done].
      * intros Hall user Hin. apply Hall, elem_of_app. by left.
Qed.

Lemma own_values_Permutation map : own_values map ≡ₚ map.*2.
Proof.
  unfold own_values. apply fmap_Permutation.
  rewrite merge_sort_Permutation. apply filter_app_complement.
Qed.

(** The records that [async.each] visits are the last ones with their
    external identifier. *)
Lemma elem_of_own_values_reduce userList ref :
  ref ∈ own_values (reduce_userMap userList 0 [])
  ↔ ∃ user, userList !! ref = Some user
            ∧ ∀ j user', userList !! j = Some user' →
                User.externalSystemId user' = User.externalSystemId user →
                (j ≤ ref)%nat.
Proof.
  rewrite own_values_Permutation, list_elem_of_fmap. split.
  - intros ([key r] & -> & Hin). simpl.
    apply userMap_own_elem_of in Hin; [|apply reduce_userMap_NoDup].
    apply userMap_own_reduce in Hin as (user & Hl & <- & Hmax). eauto.
  - intros (user & Hl & Hmax).
    exists (User.externalSystemId user, ref). split; [done|].
    apply userMap_own_elem_of; [apply reduce_userMap_NoDup|].
    apply userMap_own_reduce. eauto.
Qed.

Lemma own_values_reduce_NoDup userList :
  NoDup (own_values (reduce_userMap userList 0 [])).
Proof.
  rewrite own_values_Permutation.
  apply NoDup_fmap_2_strong.
  - intros [k1 r1] [k2 r2] H1 H2. simpl. intros <-.
    apply userMap_own_elem_of in H1, H2; try apply reduce_userMap_NoDup.
    apply userMap_own_reduce in H1 as (u1 & Hl1 & <- & _).
    apply userMap_own_reduce in H2 as (u2 & Hl2 & <- & _).
    congruence.
  - eapply NoDup_fmap_1, reduce_userMap_NoDup.
Qed.

Lemma own_values_reduce_lt userList ref :
  ref ∈ own_values (reduce_userMap userList 0 []) →
  (ref < length userList)%nat.
Proof.
  intros (user & Hl & _)%elem_of_own_values_reduce.
  by apply lookup_lt_Some in Hl.
Qed.

End UserMapFacts.

Section AssignFacts.
Implicit Types (map : list (string * nat)) (heap : list User.t).
Implicit Types (existingUsers : list Remote.t).

Lemma set_id_set_id (v w : option string) (user : User.t) :
  User.set_id v (User.set_id w user) = User.set_id v user.
Proof. by destruct user. Qed.

Lemma assign_ids_cons map (r : Remote.t) existingUsers heap :
  assign_ids map (r :: existingUsers) heap
  = assign_ids map existingUsers
      match userMap_own (Remote.externalSystemId r) map with
      | Some userToUpdate =>
          alter (User.set_id (Remote.id r)) userToUpdate heap
      | None => heap
      end.
Proof.
  unfold assign_ids at 1. cbn [foldl]. unfold userMap_get.
  destruct (userMap_own _ _); [done|]. by case_bool_decide.
Qed.

Lemma assign_ids_app map (l1 l2 : list Remote.t) heap :
  assign_ids map (l1 ++ l2) heap = assign_ids map l2 (assign_ids map l1 heap).
Proof. apply foldl_app. Qed.

Lemma assign_ids_length map existingUsers heap :
  length (assign_ids map existingUsers heap) = length heap.
Proof.
  revert heap. induction existingUsers as [|r l IH]; intros heap; [done|].
  rewrite assign_ids_cons, IH. destruct (userMap_own _ _); [|done].
  apply length_alter.
Qed.

Lemma assign_ids_untouched map existingUsers heap (i : nat) :
  (∀ r, r ∈ existingUsers →
     userMap_own (Remote.externalSystemId r) map ≠ Some i) →
  assign_ids map existingUsers heap !! i = heap !! i.
Proof.
  revert heap. induction existingUsers as [|r l IH]; intros heap Hno; [done|].
  rewrite assign_ids_cons, IH.
  - destruct (userMap_own _ _) as [j|] eqn:Hj; [|done].
    apply list_lookup_alter_ne. intros ->. by apply (Hno r); [left|].
  - intros r' Hr'. apply Hno. by right.
Qed.

Lemma assign_ids_only_id map existingUsers heap (i : nat) (v : option string) :
  User.set_id v <$> (assign_ids map existingUsers heap !! i)
  = User.set_id v <$> (heap !! i).
Proof.
  revert heap. induction existingUsers as [|r l IH]; intros heap; [done|].
  rewrite assign_ids_cons, IH.
  destruct (userMap_own _ _) as [j|]; [|done].
  rewrite list_lookup_alter. case_decide as Hj; [|done]. subst j.
  destruct (heap !! i); [|done]. simpl. by rewrite set_id_set_id.
Qed.

(** The identifier that a record ends up with is that of the last
    returned user that [userMap] leads to it. *)
Lemma assign_ids_last map (pre post : list Remote.t) (r : Remote.t) heap
    (i : nat) :
  userMap_own (Remote.externalSystemId r) map = Some i →
  (∀ r', r' ∈ post → userMap_own (Remote.externalSystemId r') map ≠ Some i) →
  assign_ids map (pre ++ r :: post) heap !! i
  = User.set_id (Remote.id r) <$> (heap !! i).
Proof.
  intros Hr Hpost.
  rewrite assign_ids_app, assign_ids_cons, Hr.
  rewrite assign_ids_untouched by done.
  rewrite list_lookup_alter, decide_True by done.
  change (alter (User.set_id (Remote.id r)))
    with (fmap (M := option) (User.set_id (Remote.id r))).
  apply assign_ids_only_id.
Qed.

Lemma assign_ids_filter map existingUsers heap
    (P : Remote.t → Prop) `{∀ r, Decision (P r)} :
  (∀ r, ¬ P r → userMap_own (Remote.externalSystemId r) map = None) →
  assign_ids map (filter P existingUsers) heap
  = assign_ids map existingUsers heap.
Proof.
  intros Hnot. revert heap.
  induction existingUsers as [|r l IH]; intros heap; [done|].
  rewrite filter_cons. case_decide as HP.
  - by rewrite !assign_ids_cons, IH.
  - by rewrite assign_ids_cons, (Hnot r HP), IH.
Qed.

Lemma assign_ids_lookup map existingUsers heap (i : nat) (user : User.t) :
  heap !! i = Some user →
  ∃ v, assign_ids map existingUsers heap !! i = Some (User.set_id v user).
Proof.
  intros Hi.
  pose proof (assign_ids_only_id map existingUsers heap i None) as Hid.
  rewrite Hi in Hid. simpl in Hid.
  destruct (assign_ids _ _ _ !! i) as [u'|]; [|done].
  injection Hid as He Hn Hg Hp. exists (User.id u').
  destruct u' as [i' e' n' g' p'], user as [i0 e0 n0 g0 p0].
  simpl in *. by subst.
Qed.

(** The [id] of a record afterwards is the one it had or one of the
    returned ones. *)
Lemma assign_ids_ids (P : option string → Prop) map existingUsers heap :
  (∀ user, user ∈ heap → P (User.id user)) →
  (∀ r, r ∈ existingUsers → P (Remote.id r)) →
  ∀ user, user ∈ assign_ids map existingUsers heap → P (User.id user).
Proof.
  revert heap. induction existingUsers as [|r l IH]; intros heap Hh Hr;
    [done|].
  rewrite assign_ids_cons. apply IH; [|intros r' Hr'; apply Hr; by right].
  destruct (userMap_own _ _) as [j|]; [|done].
  intros user (i & Hi)%list_elem_of_lookup.
  rewrite list_lookup_alter in Hi. case_decide as Hj.
  - subst j. destruct (heap !! i) as [u|]; [|done]. injection Hi as <-.
    simpl. apply Hr. left.
  - apply Hh. by apply list_elem_of_lookup_2 in Hi.
Qed.

Lemma assign_ids_none_throws map existingUsers heap :
  (∀ user, user ∈ heap → fits_path (js_string (User.id user))) →
  (∀ r, r ∈ existingUsers → fits_path (js_string (Remote.id r))) →
  none_throws (assign_ids map existingUsers heap).
Proof.
  intros Hh Hr. unfold none_throws.
  by apply (assign_ids_ids (λ id, fits_path (js_string id))).
Qed.

(** Among the returned users that match a key there is a last one. *)
Lemma last_match (P : Remote.t → Prop) `{∀ r, Decision (P r)}
    (existingUsers : list Remote.t) (r : Remote.t) :
  r ∈ existingUsers → P r →
  ∃ pre r' post, existingUsers = pre ++ r' :: post ∧ P r'
                 ∧ ∀ r'', r'' ∈ post → ¬ P r''.
Proof.
  revert r. induction existingUsers as [|x l IH]; intros r Hin HP;
    [by apply elem_of_nil in Hin|].
  destruct (decide (Exists P l)) as [Hex|Hno].
  - apply Exists_exists in Hex as (y & Hy & HPy).
    destruct (IH y Hy HPy) as (pre & r' & post & -> & HP' & Hpost).
    by exists (x :: pre), r', post.
  - apply elem_of_cons in Hin as [->|Hin].
    + exists [], x, l. split_and!; [done..|].
      intros r'' Hr'' HP''. apply Hno, Exists_exists. eauto.
    + destruct Hno. apply Exists_exists. eauto.
Qed.

End AssignFacts.

Section DispatchFacts.
Variable patronGroups addressTypes : gmap string string.
Variable env : request → reply.
Variable uuidv1 : nat → string.
Implicit Types (refs : list nat) (heap : list User.t).

Lemma on_event_not_thrown (r : run) (e : error) : (on_event r).2 ≠ Throw e.
Proof. destruct r as [events [err|e'|e']]; by cbn. Qed.

Lemma http_request_thrown (opts : options) (written : payload)
    (onResponse : Z → raw → run) (onError : option (error → run))
    (e : error) :
  (http_request env opts written onResponse onError).2 = Throw e →
  unescaped (path opts) = true.
Proof.
  destruct (unescaped (path opts)) eqn:Hpath; [done|].
  rewrite http_request_sent by done. cbn [emit snd].
  destruct (env _) as [e'|c t].
  - destruct onError as [h|]; [|done]. by intros ?%on_event_not_thrown.
  - by intros ?%on_event_not_thrown.
Qed.

Lemma unescaped_users (s : string) : unescaped ("/users/" +:+ s) = unescaped s.
Proof. by rewrite unescaped_app. Qed.

Lemma createUser_not_thrown (k : nat) (user : User.t) (callback : callback_t)
    (e : error) :
  (createUser patronGroups addressTypes env uuidv1 k user callback).2.2
  ≠ Throw e.
Proof.
  cbn [createUser emit fst snd]. by intros ?%http_request_thrown.
Qed.

Lemma updateUser_thrown (user : User.t) (callback : callback_t) (e : error) :
  (updateUser patronGroups addressTypes env user callback).2.2 = Throw e →
  unescaped (js_string (User.id user)) = true.
Proof.
  cbn [updateUser emit fst snd]. intros Hpath%http_request_thrown.
  revert Hpath. unfold updateOptions, createRequest. cbn [path].
  by rewrite unescaped_users, mapUserData_fields.
Qed.

Lemma iteratee_thrown (k : nat) (user : User.t) (e : error) :
  (iteratee patronGroups addressTypes env uuidv1 k user).2.2 = Throw e →
  truthy (User.id user) = true ∧ unescaped (js_string (User.id user)) = true.
Proof.
  unfold iteratee. destruct (truthy (User.id user)).
  - destruct (updateUser _ _ _ _ _) as [u r] eqn:Hu.
    intros Hr. split; [done|]. apply (updateUser_thrown user userCallback e).
    by rewrite Hu.
  - destruct (createUser _ _ _ _ _ _ _) as [u r] eqn:Hu.
    intros Hr. by destruct (createUser_not_thrown k user userCallback e);
      rewrite Hu.
Qed.

Lemma dispatch_cons (ref : nat) refs heap (n : nat) (user : User.t) :
  heap !! ref = Some user →
  dispatch patronGroups addressTypes env uuidv1 (ref :: refs) heap n
  = let it := iteratee patronGroups addressTypes env uuidv1 n user in
    match it.2.2 with
    | Throw _ => (<[ref := it.1.1]> heap, it.1.2, [(ref, it.2)])
    | _ =>
        let d := dispatch patronGroups addressTypes env uuidv1 refs
                   (<[ref := it.1.1]> heap) it.1.2 in
        (d.1.1, d.1.2, (ref, it.2) :: d.2)
    end.
Proof.
  intros Hl. cbn [dispatch]. rewrite Hl.
  destruct (iteratee _ _ _ _ n user) as [[u' n'] r]. cbn [fst snd].
  destruct (dispatch _ _ _ _ refs _ n') as [[h n''] rs].
  by destruct r.2.
Qed.

(** What [async.each] has visited: an initial segment of the values, all
    of them when no iteratee threw; every visited record went through
    the iteratee, and the others are as they were. *)
Lemma dispatch_visited refs :
  NoDup refs → ∀ heap (n : nat),
  (∀ ref, ref ∈ refs → (ref < length heap)%nat) →
  let d := dispatch patronGroups addressTypes env uuidv1 refs heap n in
  d.2.*1 `prefix_of` refs
  ∧ (∀ i, i ∉ d.2.*1 → d.1.1 !! i = heap !! i)
  ∧ (∀ ref run, (ref, run) ∈ d.2 →
       ∃ user k, heap !! ref = Some user
         ∧ run = (iteratee patronGroups addressTypes env uuidv1 k user).2
         ∧ d.1.1 !! ref
           = Some (iteratee patronGroups addressTypes env uuidv1 k user).1.1)
  ∧ ((∀ ref run e, (ref, run) ∈ d.2 → run.2 ≠ Throw e) → d.2.*1 = refs).
Proof.
  induction 1 as [|ref refs Hnotin Hnd IH]; intros heap n Hlt.
  - simpl. split_and!; [done..| |done].
    by intros ref run ?%elem_of_nil.
  - destruct (lookup_lt_is_Some_2 heap ref) as [user Hl]; [apply Hlt; left|].
    rewrite (dispatch_cons ref refs heap n user Hl). cbn zeta.
    set (it := iteratee patronGroups addressTypes env uuidv1 n user).
    assert (Hhere : <[ref := it.1.1]> heap !! ref = Some it.1.1).
    { apply list_lookup_insert_eq. by apply lookup_lt_Some in Hl. }
    destruct (IH (<[ref := it.1.1]> heap) it.1.2)
      as (Hrefs & Hout & Hrun & Hall).
    { intros r Hr. rewrite length_insert. apply Hlt. by right. }
    assert (Hin : ∀ r, r ∈ (dispatch patronGroups addressTypes env uuidv1
                              refs (<[ref := it.1.1]> heap) it.1.2).2.*1 →
                       r ∈ refs).
    { intros r Hr. destruct Hrefs as [k ->]. apply elem_of_app. by left. }
    destruct (it.2.2) as [err|e|e] eqn:Hsig; cbn [fst snd].
    2: { split_and!.
         - exists refs. done.
         - intros i Hi. apply list_lookup_insert_ne. intros ->. apply Hi.
           csimpl. left.
         - intros r run [= -> ->]%list_elem_of_singleton.
           by exists user, n.
         - intros Hno. by destruct (Hno ref it.2 e); [left|]. }
    all: split_and!.
    all: try (csimpl; by apply prefix_cons).
    all: try (intros i Hi; csimpl in Hi; apply not_elem_of_cons in Hi as [Hne Hi];
              rewrite (Hout i Hi); by apply list_lookup_insert_ne).
    all: try (intros r run [[= -> ->]|Hr]%elem_of_cons;
              [exists user, n; split_and!; [done..|];
               rewrite Hout; [done|]; intros Hin'; by apply Hnotin, Hin
              |destruct (Hrun r run Hr) as (u & k & Hu & -> & Hafter);
               assert (r ∈ refs)
                 by (apply Hin, list_elem_of_fmap;
                     by exists (r, (iteratee patronGroups addressTypes env
                                      uuidv1 k u).2));
               rewrite list_lookup_insert_ne in Hu by (intros ->; done);
               by exists u, k]).
    all: intros Hno; csimpl; f_equal; apply Hall;
         intros r run e' Hr; apply (Hno r run e'); by right.
Qed.

Lemma dispatch_spec refs :
  NoDup refs → ∀ heap (n : nat),
  (∀ ref, ref ∈ refs → (ref < length heap)%nat) →
  none_throws heap →
  let d := dispatch patronGroups addressTypes env uuidv1 refs heap n in
  d.2.*1 = refs
  ∧ (∀ i, i ∉ refs → d.1.1 !! i = heap !! i)
  ∧ (∀ ref, ref ∈ refs →
       ∃ user k, heap !! ref = Some user
         ∧ (ref, (iteratee patronGroups addressTypes env uuidv1 k user).2)
             ∈ d.2
         ∧ d.1.1 !! ref
           = Some (iteratee patronGroups addressTypes env uuidv1 k user).1.1)
  ∧ (∀ ref run, (ref, run) ∈ d.2 →
       ∃ user k, heap !! ref = Some user
         ∧ run = (iteratee patronGroups addressTypes env uuidv1 k user).2).
Proof.
  intros Hnd heap n Hlt Hplain.
  destruct (dispatch_visited refs Hnd heap n Hlt)
    as (Hprefix & Hout & Hrun & Hall).
  cbn zeta.
  set (d := dispatch patronGroups addressTypes env uuidv1 refs heap n) in *.
  assert (Hrefs : d.2.*1 = refs).
  { apply Hall. intros ref run e Hr Hsig.
    destruct (Hrun ref run Hr) as (user & k & Hu & -> & _).
    apply iteratee_thrown in Hsig as [Hid Hpath].
    rewrite (Hplain user) in Hpath; [done|].
    by apply list_elem_of_lookup_2 in Hu. }
  split_and!; [done| | |].
  - intros i Hi. apply Hout. by rewrite Hrefs.
  - intros ref Href.
    assert (ref ∈ d.2.*1) as ([r run] & Heq & Hr)%list_elem_of_fmap
      by by rewrite Hrefs.
    simpl in Heq. subst r.
    destruct (Hrun ref run Hr) as (user & k & Hu & -> & Hafter).
    by exists user, k.
  - intros ref run Hr.
    destruct (Hrun ref run Hr) as (user & k & Hu & -> & Hafter).
    by exists user, k.
Qed.

End DispatchFacts.

(** ** [importUsers] *)

Section ImportFacts.
Variable patronGroups addressTypes : gmap string string.
Variable env : request → reply.
Variable uuidv1 : nat → string.
Implicit Types (userList : list User.t) (existingUsers : list Remote.t).

Lemma importUsers_dispatch userList existingUsers (callback : callback_t)
    (n : nat) :
  let userMap := reduce_userMap userList 0 [] in
  let d := dispatch patronGroups addressTypes env uuidv1 (own_values userMap)
             (assign_ids userMap existingUsers userList) n in
  let b := importUsers patronGroups addressTypes env uuidv1 userList
             (Some existingUsers) callback n in
  userList_after b = d.1.1 ∧ uuid_calls b = d.1.2 ∧ records b = d.2.
Proof.
  cbn zeta. unfold importUsers.
  by destruct (dispatch _ _ _ _ _ _ n) as [[h n'] rs].
Qed.

(** Without a condition on the identifiers: the records visited are an
    initial segment of the values of [userMap]. *)
Lemma importUsers_visited userList existingUsers (callback : callback_t)
    (n : nat) :
  let userMap := reduce_userMap userList 0 [] in
  let heap := assign_ids userMap existingUsers userList in
  let b := importUsers patronGroups addressTypes env uuidv1 userList
             (Some existingUsers) callback n in
  (records b).*1 `prefix_of` own_values userMap
  ∧ (∀ i, i ∉ (records b).*1 → userList_after b !! i = heap !! i)
  ∧ (∀ ref run, (ref, run) ∈ records b →
       ∃ user k, heap !! ref = Some user
         ∧ run = (iteratee patronGroups addressTypes env uuidv1 k user).2
         ∧ userList_after b !! ref
           = Some (iteratee patronGroups addressTypes env uuidv1 k user).1.1)
  ∧ ((∀ ref run e, (ref, run) ∈ records b → run.2 ≠ Throw e) →
     (records b).*1 = own_values userMap).
Proof.
  intros userMap heap b.
  destruct (importUsers_dispatch userList existingUsers callback n)
    as (Hafter & _ & Hrec).
  fold b in Hafter, Hrec. rewrite Hafter, Hrec.
  apply dispatch_visited; [apply own_values_reduce_NoDup|].
  intros ref Href. unfold heap. rewrite assign_ids_length.
  by apply own_values_reduce_lt.
Qed.

Lemma importUsers_spec userList existingUsers (callback : callback_t)
    (n : nat) :
  let userMap := reduce_userMap userList 0 [] in
  let heap := assign_ids userMap existingUsers userList in
  let b := importUsers patronGroups addressTypes env uuidv1 userList
             (Some existingUsers) callback n in
  none_throws heap →
  (records b).*1 = own_values userMap
  ∧ (∀ i, i ∉ own_values userMap → userList_after b !! i = heap !! i)
  ∧ (∀ ref, ref ∈ own_values userMap →
       ∃ user k, heap !! ref = Some user
         ∧ (ref, (iteratee patronGroups addressTypes env uuidv1 k user).2)
             ∈ records b
         ∧ userList_after b !! ref
           = Some (iteratee patronGroups addressTypes env uuidv1 k user).1.1)
  ∧ (∀ ref run, (ref, run) ∈ records b →
       ∃ user k, heap !! ref = Some user
         ∧ run = (iteratee patronGroups addressTypes env uuidv1 k user).2).
Proof.
  intros userMap heap b.
  destruct (importUsers_dispatch userList existingUsers callback n)
    as (Hafter & _ & Hrec).
  fold b in Hafter, Hrec. rewrite Hafter, Hrec. intros Hplain.
  apply dispatch_spec; [apply own_values_reduce_NoDup| |done].
  intros ref Href. unfold heap. rewrite assign_ids_length.
  by apply own_values_reduce_lt.
Qed.

Lemma iteratee_update (k : nat) (user : User.t) :
  truthy (User.id user) = true →
  iteratee patronGroups addressTypes env uuidv1 k user
  = ((updateUser patronGroups addressTypes env user userCallback).1, k,
     (updateUser patronGroups addressTypes env user userCallback).2).
Proof. unfold iteratee. by intros ->. Qed.

Lemma iteratee_create (k : nat) (user : User.t) :
  truthy (User.id user) = false →
  iteratee patronGroups addressTypes env uuidv1 k user
  = ((createUser patronGroups addressTypes env uuidv1 k user userCallback).1,
     S k,
     (createUser patronGroups addressTypes env uuidv1 k user userCallback).2).
Proof. unfold iteratee. by intros ->. Qed.

End ImportFacts.

(** C10, as the code has it.  When two records of a batch carry the same
    external identifier, the earlier one is not among the records that
    [importUsers] hands to [updateUser] or [createUser]: it has no chain
    of calls (no remote call is made for it, nothing is reported for it)
    and it is left in memory as it was read.  The records that are handed
    on are pairwise distinct.  The last record with the external
    identifier is handed to [updateUser] (when it has an [id], its own or
    one that the response gave it) or to [createUser] (when it has none),
    provided that no record visited before it makes [updateUser] throw:
    that the [id]s of the batch and of the response can stand in a path.
    (External identifiers are other than [__proto__].) *)
Theorem earlier_duplicate_is_dropped
    (patronGroups addressTypes : gmap string string) (env : request → reply)
    (uuidv1 : nat → string) (userList : list User.t)
    (existingUsers : list Remote.t) (callback : callback_t) (n : nat)
    (i j : nat) (ui uj : User.t) :
  userList !! i = Some ui → userList !! j = Some uj → (i < j)%nat →
  User.externalSystemId ui = User.externalSystemId uj →
  let b := importUsers patronGroups addressTypes env uuidv1 userList
             (Some existingUsers) callback n in
  (i ∉ (records b).*1)
  ∧ userList_after b !! i = Some ui
  ∧ NoDup (records b).*1
  ∧ ((∀ k uk, userList !! k = Some uk →
        User.externalSystemId uk = User.externalSystemId uj → (k ≤ j)%nat) →
     (∀ user, user ∈ userList →
        User.externalSystemId user ≠ "__proto__"
        ∧ fits_path (js_string (User.id user))) →
     (∀ r, r ∈ existingUsers →
        Remote.externalSystemId r ≠ "__proto__"
        ∧ fits_path (js_string (Remote.id r))) →
     ∃ id,
       (truthy id = true
        ∧ (j, (updateUser patronGroups addressTypes env (User.set_id id uj)
                 userCallback).2) ∈ records b
        ∧ userList_after b !! j
          = Some (mapUserData patronGroups addressTypes (User.set_id id uj)))
       ∨ (truthy id = false
          ∧ ∃ k,
              (j, (createUser patronGroups addressTypes env uuidv1 k
                     (User.set_id id uj) userCallback).2) ∈ records b
              ∧ userList_after b !! j
                = Some (mapUserData patronGroups addressTypes
                          (User.set_id (Some (uuidv1 k)) uj)))).
Proof.
  intros Hi Hj Hlt Hext b.
  destruct (importUsers_visited patronGroups addressTypes env uuidv1
              userList existingUsers callback n)
    as (Hprefix & Hout & _ & _).
  fold b in Hprefix, Hout.
  assert (Hnot : i ∉ own_values (reduce_userMap userList 0 [])).
  { intros (u & Hu & Hmax)%elem_of_own_values_reduce.
    assert (u = ui) as -> by congruence.
    specialize (Hmax j uj Hj (eq_sym Hext)). lia. }
  assert (Hnot' : i ∉ (records b).*1).
  { intros Hin. apply Hnot. destruct Hprefix as [rest ->].
    apply elem_of_app. by left. }
  split_and!.
  - done.
  - rewrite (Hout i Hnot'), assign_ids_untouched; [done|].
    intros r _ Hget.
    apply userMap_own_reduce in Hget as (u & Hu & Hkey & Hmax).
    assert (u = ui) as -> by congruence.
    specialize (Hmax j uj Hj ltac:(congruence)). lia.
  - destruct Hprefix as [rest Hrest].
    pose proof (own_values_reduce_NoDup userList) as Hnd.
    rewrite Hrest in Hnd. by apply NoDup_app in Hnd as [Hnd _].
  - intros Hmax Hrecords Hremotes.
    pose proof (importUsers_spec patronGroups addressTypes env uuidv1
                  userList existingUsers callback n) as Hspec.
    cbn zeta in Hspec. fold b in Hspec.
    destruct Hspec as (_ & _ & Hin & _).
    { apply assign_ids_none_throws.
      - intros user Hu. by apply Hrecords.
      - intros r Hr. by apply Hremotes. }
    destruct (Hin j) as (u & k & Hu & Hrun & Hafter).
    { apply elem_of_own_values_reduce. eauto. }
    destruct (assign_ids_lookup (reduce_userMap userList 0 []) existingUsers
                userList j uj Hj) as [id Hid].
    assert (u = User.set_id id uj) as -> by congruence.
    exists id. destruct (truthy id) eqn:Htruthy.
    + left. rewrite iteratee_update in Hrun, Hafter by done. done.
    + right. rewrite iteratee_create in Hrun, Hafter by done.
      split; [done|]. exists k. split; [done|].
      rewrite Hafter. cbn [fst]. rewrite createUser_object.
      by rewrite set_id_set_id.
Qed.

Lemma earlier_duplicate_is_dropped_witness :
  let twin := User.mk None "A" "alice2" None None in
  let env := server (Json (Some [])) accepts_all in
  let b := importUsers sample_patronGroups sample_addressTypes env
             sample_uuid [alice; bob; twin] (Some []) batchCallback 0 in
  ([alice; bob; twin] !! 0%nat = Some alice
   ∧ [alice; bob; twin] !! 2%nat = Some twin
   ∧ (0 < 2)%nat
   ∧ User.externalSystemId alice = User.externalSystemId twin
   ∧ (∀ k uk, [alice; bob; twin] !! k = Some uk →
        User.externalSystemId uk = User.externalSystemId twin → (k ≤ 2)%nat)
   ∧ (∀ user, user ∈ [alice; bob; twin] →
        User.externalSystemId user ≠ "__proto__"
        ∧ fits_path (js_string (User.id user)))
   ∧ (∀ r, r ∈ [] →
        Remote.externalSystemId r ≠ "__proto__"
        ∧ fits_path (js_string (Remote.id r))))
  ∧ (0%nat ∉ (records b).*1)
  ∧ userList_after b !! 0%nat = Some alice
  ∧ NoDup (records b).*1
  ∧ ∃ id,
      (truthy id = true
       ∧ (2%nat, (updateUser sample_patronGroups sample_addressTypes env
                    (User.set_id id twin) userCallback).2) ∈ records b
       ∧ userList_after b !! 2%nat
         = Some (mapUserData sample_patronGroups sample_addressTypes
                   (User.set_id id twin)))
      ∨ (truthy id = false
         ∧ ∃ k,
             (2%nat, (createUser sample_patronGroups sample_addressTypes env
                        sample_uuid k (User.set_id id twin) userCallback).2)
               ∈ records b
             ∧ userList_after b !! 2%nat
               = Some (mapUserData sample_patronGroups sample_addressTypes
                         (User.set_id (Some (sample_uuid k)) twin))).
Proof.
  intros twin env b.
  assert (Hlast : ∀ k uk, [alice; bob; twin] !! k = Some uk →
            User.externalSystemId uk = User.externalSystemId twin →
            (k ≤ 2)%nat).
  { intros k uk Hk _. apply lookup_lt_Some in Hk. simpl in Hk. lia. }
  assert (Hrecords : ∀ user, user ∈ [alice; bob; twin] →
            User.externalSystemId user ≠ "__proto__"
            ∧ fits_path (js_string (User.id user))).
  { intros user Hu.
    repeat (apply elem_of_cons in Hu as [->|Hu]); try done.
    by apply elem_of_nil in Hu. }
  assert (Hremotes : ∀ r : Remote.t, r ∈ [] →
            Remote.externalSystemId r ≠ "__proto__"
            ∧ fits_path (js_string (Remote.id r)))
    by (by intros r ?%elem_of_nil).
  split; [split_and!; [reflexivity | reflexivity | lia | reflexivity
                      | exact Hlast | exact Hrecords | exact Hremotes]|].
  destruct (earlier_duplicate_is_dropped sample_patronGroups
              sample_addressTypes env sample_uuid [alice; bob; twin] []
              batchCallback 0 0 2 alice twin eq_refl eq_refl
              ltac:(lia) eq_refl) as (H1 & H2 & H3 & H4).
  split_and!; [exact H1 | exact H2 | exact H3|].
  exact (H4 Hlast Hrecords Hremotes).
Defined.

(** C10 as stated fails: a record that is visited before the later
    duplicate and whose [id] cannot stand in a path makes [updateUser]
    throw; the exception leaves [async.each], and neither duplicate is
    handed to [updateUser] or [createUser]. *)
Lemma unsendable_record_stops_the_dispatch :
  let stray := User.mk (Some "no such id") "X" "xavier" None None in
  let twin := User.mk None "A" "alice2" None None in
  let b := importUsers sample_patronGroups sample_addressTypes
             (server (Json (Some [])) accepts_all) sample_uuid
             [stray; alice; twin] (Some []) batchCallback 0 in
  User.externalSystemId alice = User.externalSystemId twin
  ∧ records b
    = [(0%nat,
        ([], Throw (TypeError "Request path contains unescaped characters")))]
  ∧ userList_after b = [stray; alice; twin]
  ∧ (reported b).2
    = Throw (TypeError "Request path contains unescaped characters").
Proof. split_and!; reflexivity. Qed.

Lemma unique_key_is_last (userList : list User.t) (i : nat) (user : User.t) :
  NoDup (User.externalSystemId <$> userList) →
  userList !! i = Some user →
  ∀ j user', userList !! j = Some user' →
    User.externalSystemId user' = User.externalSystemId user → (j ≤ i)%nat.
Proof.
  intros Hnd Hi j user' Hj Hext.
  assert (i = j); [|lia].
  apply (NoDup_lookup _ i j (User.externalSystemId user) Hnd).
  - by rewrite list_lookup_fmap, Hi.
  - by rewrite list_lookup_fmap, Hj, <- Hext.
Qed.

(** C7, as the code has it.  [importUsers] decides by the [id] that a
    record has when it is visited, not by whether its external
    identifier was found.  For a batch whose records have pairwise
    distinct external identifiers and come without an [id] of their own,
    and a search response whose users all have an [id] that can stand in
    a path (external identifiers being other than [__proto__]):
    - a record whose external identifier is that of a returned user is
      handed to [updateUser] with the [id] of a returned user with that
      external identifier (of the last one, should there be several: of
      that user when it is the only one);
    - a record whose external identifier is that of no returned user is
      handed to [createUser];
    - returned users whose external identifier is that of no record of the
      batch make no difference to what [importUsers] does. *)
Theorem importUsers_classifies
    (patronGroups addressTypes : gmap string string) (env : request → reply)
    (uuidv1 : nat → string) (userList : list User.t)
    (existingUsers : list Remote.t) (callback : callback_t) (n : nat) :
  NoDup (User.externalSystemId <$> userList) →
  (∀ user, user ∈ userList →
     User.externalSystemId user ≠ "__proto__"
     ∧ truthy (User.id user) = false) →
  (∀ r, r ∈ existingUsers →
     Remote.externalSystemId r ≠ "__proto__"
     ∧ truthy (Remote.id r) = true
     ∧ fits_path (js_string (Remote.id r))) →
  let b := importUsers patronGroups addressTypes env uuidv1 userList
             (Some existingUsers) callback n in
  (∀ i user r,
     userList !! i = Some user → r ∈ existingUsers →
     Remote.externalSystemId r = User.externalSystemId user →
     ∃ r', r' ∈ existingUsers
       ∧ Remote.externalSystemId r' = User.externalSystemId user
       ∧ (i, (updateUser patronGroups addressTypes env
                (User.set_id (Remote.id r') user) userCallback).2)
           ∈ records b
       ∧ userList_after b !! i
         = Some (mapUserData patronGroups addressTypes
                   (User.set_id (Remote.id r') user)))
  ∧ (∀ i user pre r post,
       userList !! i = Some user → existingUsers = pre ++ r :: post →
       Remote.externalSystemId r = User.externalSystemId user →
       (∀ r', r' ∈ post →
          Remote.externalSystemId r' ≠ User.externalSystemId user) →
       (i, (updateUser patronGroups addressTypes env
              (User.set_id (Remote.id r) user) userCallback).2)
         ∈ records b)
  ∧ (∀ i user,
       userList !! i = Some user →
       (∀ r, r ∈ existingUsers →
          Remote.externalSystemId r ≠ User.externalSystemId user) →
       ∃ k, (i, (createUser patronGroups addressTypes env uuidv1 k user
                   userCallback).2) ∈ records b)
  ∧ importUsers patronGroups addressTypes env uuidv1 userList
      (Some (filter (λ r, Remote.externalSystemId r
                          ∈ User.externalSystemId <$> userList)
               existingUsers))
      callback n
    = b.
Proof.
  intros Hnd Hnoid Hrid b.
  pose proof (importUsers_spec patronGroups addressTypes env uuidv1
                userList existingUsers callback n) as Hspec.
  cbn zeta in Hspec. fold b in Hspec.
  destruct Hspec as (Hrefs & Hout & Hin & _).
  { apply assign_ids_none_throws.
    - intros user Hu. destruct (Hnoid user Hu) as [_ Hfalsy].
      by destruct (User.id user) as [[|??]|].
    - intros r Hr. by apply Hrid. }
  set (userMap := reduce_userMap userList 0 []) in *.
  assert (Hget : ∀ i user, userList !! i = Some user →
            userMap_own (User.externalSystemId user) userMap = Some i).
  { intros i user Hi. apply userMap_own_reduce. exists user.
    split_and!; [done..|]. by apply unique_key_is_last. }
  assert (Hother : ∀ i user key, userList !! i = Some user →
            key ≠ User.externalSystemId user →
            userMap_own key userMap ≠ Some i).
  { intros i user key Hi Hne Hk.
    apply userMap_own_reduce in Hk as (u & Hu & Hkey & _). congruence. }
  assert (Hvisited : ∀ i user, userList !! i = Some user →
            i ∈ own_values userMap).
  { intros i user Hi. apply elem_of_own_values_reduce. exists user.
    split; [done|]. by apply unique_key_is_last. }
  assert (Hupdate : ∀ i user pre r post,
       userList !! i = Some user → existingUsers = pre ++ r :: post →
       Remote.externalSystemId r = User.externalSystemId user →
       (∀ r', r' ∈ post →
          Remote.externalSystemId r' ≠ User.externalSystemId user) →
       (i, (updateUser patronGroups addressTypes env
              (User.set_id (Remote.id r) user) userCallback).2)
         ∈ records b
       ∧ userList_after b !! i
         = Some (mapUserData patronGroups addressTypes
                   (User.set_id (Remote.id r) user))).
  { intros i user pre r post Hi Hsplit Hext Hpost.
    destruct (Hin i (Hvisited i user Hi)) as (u & k & Hu & Hmem & Hafter).
    rewrite Hsplit in Hu.
    rewrite (assign_ids_last userMap pre post r userList i) in Hu.
    - rewrite Hi in Hu. injection Hu as <-.
      assert (Htruthy : truthy (User.id (User.set_id (Remote.id r) user))
                        = true).
      { simpl. apply Hrid. rewrite Hsplit. apply elem_of_app. right. left. }
      clear Hout.
      by rewrite (iteratee_update _ _ _ _ k _ Htruthy) in Hmem, Hafter.
    - rewrite Hext. by apply Hget.
    - intros r' Hr'. apply (Hother i user); [done|]. by apply Hpost. }
  split_and!.
  - intros i user r Hi Hr Hext.
    destruct (last_match
                (λ r, Remote.externalSystemId r = User.externalSystemId user)
                existingUsers r Hr Hext)
      as (pre & r' & post & Hsplit & Hext' & Hpost).
    exists r'. split_and!.
    + rewrite Hsplit. apply elem_of_app. right. left.
    + done.
    + by apply (Hupdate i user pre r' post).
    + by apply (Hupdate i user pre r' post).
  - intros i user pre r post Hi Hsplit Hext Hpost.
    by apply (Hupdate i user pre r post).
  - intros i user Hi Hnone.
    destruct (Hin i (Hvisited i user Hi)) as (u & k & Hu & Hmem & _).
    rewrite assign_ids_untouched in Hu.
    + rewrite Hi in Hu. injection Hu as <-.
      assert (Hfalsy : truthy (User.id user) = false).
      { apply Hnoid. by apply list_elem_of_lookup_2 in Hi. }
      clear Hout.
      rewrite (iteratee_create _ _ _ _ k _ Hfalsy) in Hmem. by exists k.
    + intros r Hr. apply (Hother i user); [done|]. by apply Hnone.
  - unfold b, importUsers. fold userMap.
    rewrite assign_ids_filter; [done|].
    intros r Hr. apply userMap_own_reduce_None.
    intros user Huser Hext. apply Hr.
    apply list_elem_of_fmap. by exists user.
Qed.

Lemma importUsers_classifies_witness :
  let env := server (Json (Some found_B_and_D)) accepts_all in
  let userList := [alice; bob; carol] in
  let b := importUsers sample_patronGroups sample_addressTypes env
             sample_uuid userList (Some found_B_and_D) batchCallback 0 in
  (NoDup (User.externalSystemId <$> userList)
   ∧ (∀ user, user ∈ userList →
        User.externalSystemId user ≠ "__proto__"
        ∧ truthy (User.id user) = false)
   ∧ (∀ r, r ∈ found_B_and_D →
        Remote.externalSystemId r ≠ "__proto__"
        ∧ truthy (Remote.id r) = true
        ∧ fits_path (js_string (Remote.id r))))
  ∧ (∀ i user r,
       userList !! i = Some user → r ∈ found_B_and_D →
       Remote.externalSystemId r = User.externalSystemId user →
       ∃ r', r' ∈ found_B_and_D
         ∧ Remote.externalSystemId r' = User.externalSystemId user
         ∧ (i, (updateUser sample_patronGroups sample_addressTypes env
                  (User.set_id (Remote.id r') user) userCallback).2)
             ∈ records b
         ∧ userList_after b !! i
           = Some (mapUserData sample_patronGroups sample_addressTypes
                     (User.set_id (Remote.id r') user)))
  ∧ (∀ i user pre r post,
       userList !! i = Some user → found_B_and_D = pre ++ r :: post →
       Remote.externalSystemId r = User.externalSystemId user →
       (∀ r', r' ∈ post →
          Remote.externalSystemId r' ≠ User.externalSystemId user) →
       (i, (updateUser sample_patronGroups sample_addressTypes env
              (User.set_id (Remote.id r) user) userCallback).2)
         ∈ records b)
  ∧ (∀ i user,
       userList !! i = Some user →
       (∀ r, r ∈ found_B_and_D →
          Remote.externalSystemId r ≠ User.externalSystemId user) →
       ∃ k, (i, (createUser sample_patronGroups sample_addressTypes env
                   sample_uuid k user userCallback).2) ∈ records b)
  ∧ importUsers sample_patronGroups sample_addressTypes env sample_uuid
      userList
      (Some (filter (λ r, Remote.externalSystemId r
                          ∈ User.externalSystemId <$> userList)
               found_B_and_D))
      batchCallback 0
    = b.
Proof.
  intros env userList b.
  assert (H1 : NoDup (User.externalSystemId <$> userList))
    by (apply (bool_decide_unpack _); vm_compute; exact I).
  assert (H2 : ∀ user, user ∈ userList →
            User.externalSystemId user ≠ "__proto__"
            ∧ truthy (User.id user) = false).
  { intros user Hu. unfold userList in Hu.
    repeat (apply elem_of_cons in Hu as [->|Hu]); try done.
    by apply elem_of_nil in Hu. }
  assert (H3 : ∀ r, r ∈ found_B_and_D →
            Remote.externalSystemId r ≠ "__proto__"
            ∧ truthy (Remote.id r) = true
            ∧ fits_path (js_string (Remote.id r))).
  { intros r Hr. unfold found_B_and_D in Hr.
    repeat (apply elem_of_cons in Hr as [->|Hr]); try done.
    by apply elem_of_nil in Hr. }
  split; [by split_and!|].
  exact (importUsers_classifies sample_patronGroups sample_addressTypes env
           sample_uuid userList found_B_and_D batchCallback 0 H1 H2 H3).
Defined.

(** C7 as stated fails: a record that comes with an [id] of its own is
    handed to [updateUser], with that [id], although the response has no
    user with its external identifier. *)
Lemma unmatched_record_with_id_is_updated :
  let dave := User.mk (Some "own-id") "D" "dave" None None in
  let env := server (Json (Some [])) accepts_all in
  let b := importUsers sample_patronGroups sample_addressTypes env
             sample_uuid [dave] (Some []) batchCallback 0 in
  records b = [(0%nat, (updateUser sample_patronGroups sample_addressTypes
                          env dave userCallback).2)]
  ∧ (λ '(ref, r), (ref, (λ q, (method (opts q), path (opts q)))
                          <$> requests r.1)) <$> records b
    = [(0%nat, [(PUT, "/users/own-id")])].
Proof. split; reflexivity. Qed.


(** The reconciliation example: records [A], [B], [C] and returned users
    [B], [D].  [B] is updated at the identifier of the returned [B]; [A]
    and [C] are created; nothing is sent for [D]. *)
Example reconcile_A_B_C_against_B_D :
  let env := server (Json (Some found_B_and_D)) accepts_all in
  let b := importUsers sample_patronGroups sample_addressTypes env
             sample_uuid [alice; bob; carol] (Some found_B_and_D)
             batchCallback 0 in
  (λ '(ref, r), (ref, (λ q, (method (opts q), path (opts q))) <$> requests r.1))
    <$> records b
  = [(0%nat, [(POST, "/users"); (POST, "/authn/credentials");
              (POST, "/perms/users")]);
     (1%nat, [(PUT, "/users/id-of-B")]);
     (2%nat, [(POST, "/users"); (POST, "/authn/credentials");
              (POST, "/perms/users")])].
Proof. reflexivity. Qed.

(** ** Failures that stay with their record *)

Section IsolationFacts.
Variable patronGroups addressTypes : gmap string string.
Variable env : request → reply.
Variable uuidv1 : nat → string.
Variable encodeURIComponent : string → string.

Hypothesis responds : ∀ req, ∃ c t, env req = Response c t.
Hypothesis credentials_accepted :
  ∀ req c t, opts req = credentialsOptions → env req = Response c t →
    status_failed c = false.
Hypothesis deletes_accepted :
  ∀ req c t, method (opts req) = DELETE → env req = Response c t →
    status_failed c = false.
Hypothesis uuids_fit : ∀ k, fits_path (uuidv1 k).

Ltac answer req c t H fits :=
  destruct (responds req) as (c & t & H);
  rewrite http_request_sent by fits;
  rewrite H; cbn [emit on_event try_catch fst snd].

Ltac logged :=
  eexists; repeat first [apply list_elem_of_here | apply list_elem_of_further].

(** Closes [followed_by_warning] on a list of events that is written
    out, with the answers and their statuses among the hypotheses. *)
Ltac warned :=
  unfold failure_is_logged;
  cbn [emit on_event try_catch fst snd app userCallback call];
  rewrite followed_by_warning_log; cbn [followed_by_warning];
  repeat match goal with
         | H : env ?req = _ |- context [env ?req] => rewrite H
         end;
  split_and!; try done; try congruence; intros _; logged.

Lemma updateUser_called (user : User.t) :
  fits_path (js_string (User.id user)) →
  let r := (updateUser patronGroups addressTypes env user userCallback).2 in
  r.2 = Called None ∧ failure_is_logged env r.
Proof.
  intros Hid. cbn zeta. unfold updateUser. cbn [snd].
  set (u := mapUserData patronGroups addressTypes user).
  answer {| opts := updateOptions u; written := UserBody u |} c t H
    ltac:(by apply updateOptions_fits).
  destruct (status_failed c) eqn:S; (split; [reflexivity|]); warned.
Qed.

Lemma createUser_called (k : nat) (user : User.t) :
  fits_path (User.username user) →
  let r := (createUser patronGroups addressTypes env uuidv1 k user
              userCallback).2 in
  r.2 = Called None ∧ failure_is_logged env r.
Proof.
  intros Hname. cbn zeta. unfold createUser. cbn [snd].
  set (u := mapUserData patronGroups addressTypes
              (User.set_id (Some (uuidv1 k)) user)).
  answer {| opts := createOptions; written := UserBody u |} c1 t1 H1
    ltac:(reflexivity).
  destruct (status_failed c1) eqn:S1.
  { split; [reflexivity|]. warned. }
  unfold createCredentials.
  answer {| opts := credentialsOptions;
            written := CredentialsBody (User.username u) "" |} c2 t2 H2
    ltac:(reflexivity).
  assert (S2 : status_failed c2 = false)
    by (eapply credentials_accepted; [|exact H2]; reflexivity).
  rewrite S2.
  unfold applyEmptyPermissionSet.
  answer {| opts := permissionsOptions;
            written := PermissionsBody (User.username u) [] |} c3 t3 H3
    ltac:(reflexivity).
  destruct (status_failed c3) eqn:S3.
  - unfold removeUserCredentials.
    answer {| opts := removeCredentialsOptions u; written := NoBody |}
      c4 t4 H4 ltac:(by apply removeCredentialsOptions_fits).
    assert (S4 : status_failed c4 = false)
      by (eapply deletes_accepted; [|exact H4]; reflexivity).
    rewrite S4.
    unfold deleteUser.
    answer {| opts := deleteOptions (Object u); written := NoBody |} c5 t5 H5
      ltac:(by apply deleteOptions_fits).
    assert (S5 : status_failed c5 = false)
      by (eapply deletes_accepted; [|exact H5]; reflexivity).
    rewrite S5.
    split; [reflexivity|]. warned.
  - split; [reflexivity|]. warned.
Qed.

Lemma iteratee_called (k : nat) (user : User.t) :
  fits_path (js_string (User.id user)) → fits_path (User.username user) →
  let r := (iteratee patronGroups addressTypes env uuidv1 k user).2 in
  r.2 = Called None ∧ failure_is_logged env r.
Proof.
  intros Hid Hname. destruct (truthy (User.id user)) eqn:Htruthy.
  - rewrite iteratee_update by done. by apply updateUser_called.
  - rewrite iteratee_create by done. by apply createUser_called.
Qed.

Lemma all_called (runs : list run) :
  (∀ r, r ∈ runs → r.2 = Called None) →
  thrown runs = None ∧ first_uncaught runs = None ∧ first_error runs = None.
Proof.
  induction runs as [|[events s] runs IH]; intros Hall; [done|].
  assert (s = Called None) as -> by (apply (Hall (events, s)); left).
  simpl. apply IH. intros r Hr. apply Hall. by right.
Qed.

Hypothesis searches_answered :
  ∀ req, method (opts req) = GET →
    ∃ c users, env req = Response c (Json (Some users)).
Hypothesis remotes_plain :
  ∀ req c users, env req = Response c (Json (Some users)) →
    ∀ r, r ∈ users → plain_remote r.

(** Under the hypotheses of this section every batch of plain records
    runs to its end: each record that is visited has a chain which calls
    back without an error, and the batch calls back without an error. *)
Lemma searchUsers_called (userList : list User.t) (n : nat) :
  (∀ user, user ∈ userList → plain_record user) →
  let b := searchUsers patronGroups addressTypes env uuidv1
             encodeURIComponent userList batchCallback n in
  (reported b).2 = Called None
  ∧ (records b).*1 = own_values (reduce_userMap userList 0 [])
  ∧ ∀ ref r, (ref, r) ∈ records b →
      (∃ user k v,
         userList !! ref = Some user
         ∧ r = (iteratee patronGroups addressTypes env uuidv1 k
                  (User.set_id v user)).2)
      ∧ r.2 = Called None ∧ failure_is_logged env r.
Proof.
  intros Hplain. cbn zeta. unfold searchUsers.
  destruct (searches_answered
              {| opts := searchOptions encodeURIComponent userList;
                 written := NoBody |} eq_refl) as (c & users & Hsearch).
  rewrite Hsearch.
  cbn [response_status js_ltb js_gtb orb].
  pose proof (importUsers_spec patronGroups addressTypes env uuidv1
                userList users batchCallback n) as Hspec.
  cbn zeta in Hspec.
  set (b := importUsers patronGroups addressTypes env uuidv1 userList
              (Some users) batchCallback n) in *.
  assert (Hfit : none_throws
            (assign_ids (reduce_userMap userList 0 []) users userList)).
  { apply assign_ids_none_throws.
    - intros user Hu. by apply Hplain.
    - intros r Hr. by apply (remotes_plain _ _ _ Hsearch). }
  destruct (Hspec Hfit) as (Hrefs & _ & _ & Hruns).
  assert (Hall : ∀ ref r, (ref, r) ∈ records b →
            (∃ user k v,
               userList !! ref = Some user
               ∧ r = (iteratee patronGroups addressTypes env uuidv1 k
                        (User.set_id v user)).2)
            ∧ r.2 = Called None ∧ failure_is_logged env r).
  { intros ref r Hr. destruct (Hruns ref r Hr) as (u & k & Hu & ->).
    assert (is_Some (userList !! ref)) as [user0 Huser0].
    { apply lookup_lt_is_Some. apply lookup_lt_Some in Hu.
      by rewrite assign_ids_length in Hu. }
    destruct (assign_ids_lookup (reduce_userMap userList 0 []) users
                userList ref user0 Huser0) as [v Hv].
    assert (u = User.set_id v user0) as Heq by congruence.
    split; [exists user0, k, v; by rewrite <- Heq|].
    apply iteratee_called.
    - apply Hfit. by apply list_elem_of_lookup_2 in Hu.
    - rewrite Heq. simpl. apply Hplain.
      by apply list_elem_of_lookup_2 in Huser0. }
  cbn [with_reported records reported]. split_and!; [|done..].
  destruct (importUsers_dispatch patronGroups addressTypes env uuidv1
              userList users batchCallback n) as (_ & _ & Hrec).
  fold b in Hrec.
  assert (Hrep : reported b
            = ([Logged TRACE "Updated existing users with ids.";
                Logged DEBUG "Imported user batch successfully."],
               Called None)).
  { destruct (all_called (records b).*2) as (Ht & Hu & He).
    { intros r (x & -> & Hx)%list_elem_of_fmap. destruct x as [ref r].
      by destruct (Hall ref r Hx) as (_ & ? & _). }
    unfold b, importUsers in *.
    destruct (dispatch _ _ _ _ _ _ n) as [[h n'] rs].
    cbn [records reported] in *. unfold async_each. by rewrite Ht, Hu, He. }
  by rewrite Hrep.
Qed.

Lemma eachLimit_called (userData : list (list User.t)) (n : nat) :
  (∀ userList user, userList ∈ userData → user ∈ userList →
     plain_record user) →
  let result := eachLimit patronGroups addressTypes env uuidv1
                  encodeURIComponent userData n in
  result.2 = Called None
  ∧ Forall2
      (λ userList b,
         (reported b).2 = Called None
         ∧ (records b).*1 = own_values (reduce_userMap userList 0 [])
         ∧ ∀ ref r, (ref, r) ∈ records b →
             (∃ user k v,
                userList !! ref = Some user
                ∧ r = (iteratee patronGroups addressTypes env uuidv1 k
                         (User.set_id v user)).2)
             ∧ r.2 = Called None ∧ failure_is_logged env r)
      userData result.1.
Proof.
  revert n. induction userData as [|userList userData IH]; intros n Hplain.
  - split; [done | constructor].
  - cbn zeta. cbn [eachLimit].
    pose proof (searchUsers_called userList n) as Hb. cbn zeta in Hb.
    set (b := searchUsers patronGroups addressTypes env uuidv1
                encodeURIComponent userList batchCallback n) in *.
    destruct Hb as (Hrep & Hb).
    { intros user Hu. apply (Hplain userList); [left|done]. }
    rewrite Hrep.
    specialize (IH (uuid_calls b)). cbn zeta in IH.
    destruct (eachLimit _ _ _ _ _ userData (uuid_calls b)) as [bs s].
    destruct IH as [Hs Hbs].
    { intros l user Hl Hu. apply (Hplain l); [by right|done]. }
    split; [done|].
    constructor; [by split | done].
Qed.

End IsolationFacts.

(** ** Errors that stop the run *)

Section AbortFacts.
Variable patronGroups addressTypes : gmap string string.
Variable env : request → reply.
Variable uuidv1 : nat → string.
Variable encodeURIComponent : string → string.



Lemma stops_unless_called (userList : list User.t)
    (userData : list (list User.t)) (n : nat) :
  let b := searchUsers patronGroups addressTypes env uuidv1
             encodeURIComponent userList batchCallback n in
  (reported b).2 ≠ Called None →
  eachLimit patronGroups addressTypes env uuidv1 encodeURIComponent
    (userList :: userData) n
  = ([b], (reported b).2).
Proof.
  intros b Hs. cbn [eachLimit]. fold b.
  by destruct (reported b).2 as [[e|]|e|e].
Qed.


(** When the answer to the search of a batch cannot be parsed, or has no
    list of users, nothing is done for the records of the batch and the
    batch calls back with an error. *)
Lemma searchUsers_unparsable (userList : list User.t) (n : nat) (c : Z)
    (t : raw) :
  env {| opts := searchOptions encodeURIComponent userList;
         written := NoBody |} = Response c t →
  t = Garbage ∨ t = Json None →
  let b := searchUsers patronGroups addressTypes env uuidv1
             encodeURIComponent userList batchCallback n in
  records b = [] ∧ userList_after b = userList ∧ uuid_calls b = n
  ∧ requests (reported b).1
    = [{| opts := searchOptions encodeURIComponent userList;
          written := NoBody |}]
  ∧ (∃ m, Logged ERROR m ∈ (reported b).1)
  ∧ ∃ e, (reported b).2 = Called (Some e).
Proof.
  intros Henv Ht b. unfold b, searchUsers. rewrite Henv.
  cbn [response_status js_ltb js_gtb orb].
  destruct Ht as [-> | ->]; cbn; split_and!; try done; eauto;
    eexists; apply list_elem_of_further, list_elem_of_here.
Qed.

Lemma eachLimit_app (pre rest : list (list User.t)) (n : nat)
    (bs : list imported) :
  eachLimit patronGroups addressTypes env uuidv1 encodeURIComponent pre n
  = (bs, Called None) →
  ∃ n', eachLimit patronGroups addressTypes env uuidv1 encodeURIComponent
          (pre ++ rest) n
        = (bs ++ (eachLimit patronGroups addressTypes env uuidv1
                    encodeURIComponent rest n').1,
           (eachLimit patronGroups addressTypes env uuidv1
              encodeURIComponent rest n').2).
Proof.
  revert n bs. induction pre as [|userList pre IH]; intros n bs Hpre.
  - injection Hpre as <-. exists n. simpl. by destruct (eachLimit _ _ _ _ _ _ _).
  - cbn [eachLimit app] in *.
    set (b := searchUsers patronGroups addressTypes env uuidv1
                encodeURIComponent userList batchCallback n) in *.
    destruct (reported b).2 as [[e|]|e|e]; try discriminate Hpre.
    destruct (eachLimit _ _ _ _ _ pre (uuid_calls b)) as [bs' s] eqn:Hrec.
    injection Hpre as <- ->.
    destruct (IH (uuid_calls b) bs' Hrec) as (n' & ->).
    by exists n'.
Qed.

End AbortFacts.

(** The sample data are plain. *)
Lemma sample_uuid_fits (k : nat) : fits_path (sample_uuid k).
Proof.
  unfold sample_uuid.
  assert (Hlt : (k mod 10 < 10)%nat) by (apply Nat.mod_upper_bound; lia).
  generalize dependent (k mod 10)%nat. intros m Hlt.
  do 10 (destruct m as [|m]; [reflexivity|]). lia.
Qed.

Lemma found_B_and_D_plain (r : Remote.t) :
  r ∈ found_B_and_D → plain_remote r.
Proof.
  intros Hr. unfold found_B_and_D in Hr.
  repeat (apply elem_of_cons in Hr as [->|Hr]); try done.
  by apply elem_of_nil in Hr.
Qed.

Lemma server_remotes_plain (found : list Remote.t) (status : request → Z) :
  (∀ r, r ∈ found → plain_remote r) →
  ∀ req c users,
    server (Json (Some found)) status req = Response c (Json (Some users)) →
    ∀ r, r ∈ users → plain_remote r.
Proof.
  intros Hfound req c users. unfold server.
  destruct (method (opts req)); by intros [= _ <-].
Qed.

Lemma sample_users_plain (user : User.t) :
  user ∈ [alice; bob; carol] → plain_record user.
Proof.
  intros Hu. repeat (apply elem_of_cons in Hu as [->|Hu]); try done.
  by apply elem_of_nil in Hu.
Qed.





(** C4, as the code has it.  When the answer to the search of a batch
    cannot be parsed (or holds no list of users), the batches before it
    keep what they did, for the records of the batch itself nothing is
    sent and nothing changes, an error is logged and passed to the run,
    and the run ends there: the batches after it are not searched or
    processed. *)
Theorem unparsable_search_ends_the_run
    (patronGroups addressTypes : gmap string string) (env : request → reply)
    (uuidv1 : nat → string) (encodeURIComponent : string → string)
    (pre : list (list User.t)) (userList : list User.t)
    (rest : list (list User.t)) (n : nat) (bs : list imported)
    (c : Z) (t : raw) :
  eachLimit patronGroups addressTypes env uuidv1 encodeURIComponent pre n
  = (bs, Called None) →
  env {| opts := searchOptions encodeURIComponent userList;
         written := NoBody |} = Response c t →
  t = Garbage ∨ t = Json None →
  ∃ b e,
    eachLimit patronGroups addressTypes env uuidv1 encodeURIComponent
      (pre ++ userList :: rest) n
    = (bs ++ [b], Called (Some e))
    ∧ records b = []
    ∧ userList_after b = userList
    ∧ requests (reported b).1
      = [{| opts := searchOptions encodeURIComponent userList;
            written := NoBody |}]
    ∧ ∃ m, Logged ERROR m ∈ (reported b).1.
Proof.
  intros Hpre Henv Ht.
  destruct (eachLimit_app patronGroups addressTypes env uuidv1
              encodeURIComponent pre (userList :: rest) n bs Hpre)
    as (n' & ->).
  destruct (searchUsers_unparsable patronGroups addressTypes env uuidv1
              encodeURIComponent userList n' c t Henv Ht)
    as (Hrec & Hafter & _ & Hreq & Hlog & e & Hs).
  set (b := searchUsers patronGroups addressTypes env uuidv1
              encodeURIComponent userList batchCallback n') in *.
  exists b, e.
  rewrite (stops_unless_called patronGroups addressTypes env uuidv1
             encodeURIComponent userList rest n'); fold b.
  - cbn [fst snd]. by rewrite Hs.
  - by rewrite Hs.
Qed.

Lemma unparsable_search_ends_the_run_witness :
  let env := search_fails_for [bob] in
  let before := eachLimit sample_patronGroups sample_addressTypes env
                  sample_uuid (λ s, s) [[alice]] 0 in
  (before = (before.1, Called None)
   ∧ env {| opts := searchOptions (λ s, s) [bob]; written := NoBody |}
     = Response 200 Garbage
   ∧ (Garbage = Garbage ∨ Garbage = Json None))
  ∧ ∃ b e,
      eachLimit sample_patronGroups sample_addressTypes env sample_uuid
        (λ s, s) ([[alice]] ++ [bob] :: [[carol]]) 0
      = (before.1 ++ [b], Called (Some e))
      ∧ records b = []
      ∧ userList_after b = [bob]
      ∧ requests (reported b).1
        = [{| opts := searchOptions (λ s, s) [bob]; written := NoBody |}]
      ∧ ∃ m, Logged ERROR m ∈ (reported b).1.
Proof.
  intros env before.
  assert (H1 : before = (before.1, Called None)) by reflexivity.
  assert (H2 : env {| opts := searchOptions (λ s, s) [bob];
                      written := NoBody |} = Response 200 Garbage)
    by reflexivity.
  split; [split_and!; [done | done | by left]|].
  exact (unparsable_search_ends_the_run sample_patronGroups
           sample_addressTypes env sample_uuid (λ s, s) [[alice]] [bob]
           [[carol]] 0 before.1 200 Garbage H1 H2 (or_introl eq_refl)).
Defined.

(** C4 as stated fails.  Page size 1, records [alice] and [bob]; only the
    answer to the search for [alice] cannot be parsed.  No record of her
    batch is processed, and the batch of [bob], whose search would have
    been answered, is never started. *)
Lemma unparsable_search_is_fatal_for_later_batches :
  let env := search_fails_for [alice] in
  let result :=
    processUsers sample_patronGroups sample_addressTypes env sample_uuid
      (λ s, s) 1 3 (Some [alice; bob]) in
  partition_loop 3 1 [alice; bob] [] = Some [[alice]; [bob]]
  ∧ env {| opts := searchOptions (λ s, s) [bob]; written := NoBody |}
    = Response 200 (Json (Some []))
  ∧ (λ p, (λ b, (userList_after b, records b)) <$> batches p) <$> result
    = Some [([alice], [])]
  ∧ (λ p, (final p, ended p)) <$> result
    = Some ([Logged ERROR "Failed to import all users."], Finished).
Proof. split_and!; reflexivity. Qed.

(** * Further properties of the code *)

(** ** Batches and the search query *)

Lemma partition_loop_Forall {A : Type} (P : list A → Prop) (p : Z) :
  (∀ data : list A, data ≠ [] → P (splice0 p data).1) →
  ∀ fuel (data : list A) userData result,
    partition_loop fuel p data userData = Some result →
    Forall P userData → Forall P result.
Proof.
  intros Hpage fuel. induction fuel as [|fuel IH];
    intros data userData result Hrun Hacc; [done|].
  destruct data as [|a data']; cbn [partition_loop] in Hrun.
  - by injection Hrun as <-.
  - destruct (splice0 p (a :: data')) as [page rest] eqn:Hsplice.
    apply (IH rest (userData ++ [page]) result Hrun).
    apply Forall_app. split; [done|]. apply Forall_singleton.
    specialize (Hpage (a :: data') ltac:(done)). by rewrite Hsplice in Hpage.
Qed.

(** X1.  With a page size [p > 0], every batch that the partition loop of
    [processUsers] leaves in [userData] holds at least one record and at
    most [p]: [searchUsers] is never given an empty batch or one larger
    than the page size. *)
Theorem partition_loop_batch_sizes {A : Type} (fuel : nat) (p : Z)
    (data : list A) (userData : list (list A)) :
  0 < p →
  partition_loop fuel p data [] = Some userData →
  ∀ page, page ∈ userData →
    (0 < length page)%nat ∧ Z.of_nat (length page) ≤ p.
Proof.
  intros Hp Hrun.
  apply Forall_forall.
  apply (partition_loop_Forall
           (λ page, (0 < length page)%nat ∧ Z.of_nat (length page) ≤ p) p)
    with (fuel := fuel) (data := data) (userData := []); [|done|constructor].
  intros d Hd. unfold splice0. cbn [fst]. rewrite length_take.
  assert (0 < length d)%nat by (destruct d; simpl; [done | lia]). lia.
Qed.

Lemma partition_loop_batch_sizes_witness :
  0 < 2
  ∧ partition_loop 4 2 [alice; bob; carol] [] = Some [[alice; bob]; [carol]]
  ∧ ∀ page, page ∈ [[alice; bob]; [carol]] →
      (0 < length page)%nat ∧ Z.of_nat (length page) ≤ 2.
Proof.
  split; [lia|]. split; [reflexivity|].
  apply (partition_loop_batch_sizes 4 2 [alice; bob; carol]); [lia|reflexivity].
Defined.

Lemma string_append_assoc (a b c : string) : (a +:+ b) +:+ c = a +:+ b +:+ c.
Proof.
  induction a as [|x a IH]; [done|].
  change (String x ((a +:+ b) +:+ c) = String x (a +:+ b +:+ c)).
  by f_equal.
Qed.

Lemma queryPath_loop_concat (userList : list User.t) (queryPath : string) :
  userList ≠ [] →
  queryPath_loop userList queryPath
  = queryPath +:+ String.concat " or " (disjunct <$> userList) +:+ ")".
Proof.
  revert queryPath. induction userList as [|user userList IH];
    intros queryPath Hne; [done|].
  destruct userList as [|user' userList].
  - cbn [queryPath_loop fmap list_fmap String.concat]. fold (disjunct user).
    by rewrite string_append_assoc.
  - change (queryPath_loop (user :: user' :: userList) queryPath)
      with (queryPath_loop (user' :: userList)
              ((queryPath +:+ disjunct user) +:+ " or ")).
    rewrite IH by done.
    change (disjunct <$> user :: user' :: userList)
      with (disjunct user :: (disjunct <$> user' :: userList)).
    change (String.concat " or "
              (disjunct user :: (disjunct <$> user' :: userList)))
      with (disjunct user +:+ " or "
            +:+ String.concat " or " (disjunct <$> user' :: userList)).
    by rewrite !string_append_assoc.
Qed.

(** X2.  The query that [searchUsers] builds for a batch with at least
    one record is the parenthesised disjunction of one equality on
    [externalSystemId] per record, in the order of the batch, joined by
    [ or ].  For an empty batch the loop body never runs and the query is
    the lone opening parenthesis. *)
Theorem queryPath_is_disjunction (userList : list User.t) :
  (userList ≠ [] →
   queryPath_loop userList "("
   = "(" +:+ String.concat " or " (disjunct <$> userList) +:+ ")")
  ∧ (userList = [] → queryPath_loop userList "(" = "(").
Proof.
  split.
  - apply queryPath_loop_concat.
  - by intros ->.
Qed.

Lemma queryPath_is_disjunction_witness :
  ([alice; bob] ≠ [] →
   queryPath_loop [alice; bob] "("
   = "(" +:+ String.concat " or " (disjunct <$> [alice; bob]) +:+ ")")
  ∧ ([alice; bob] = [] → queryPath_loop [alice; bob] "(" = "(").
Proof. exact (queryPath_is_disjunction [alice; bob]). Defined.

Section SearchFacts.
Variable patronGroups addressTypes : gmap string string.
Variable env : request → reply.
Variable uuidv1 : nat → string.
Variable encodeURIComponent : string → string.

(** What [async.each] and its final callback add to a batch: at most
    one log line, never a request, never a warning; nothing when an
    iteratee threw. *)
Lemma async_each_batch (runs : list run) :
  ∃ events s,
    async_each runs
      (λ err,
         match err with
         | Some _ =>
             emit [Logged INFO "Failed to import user batch."]
               (batchCallback err)
         | None =>
             emit [Logged DEBUG "Imported user batch successfully."]
               (batchCallback None)
         end)
    = (events, s)
    ∧ requests events = []
    ∧ (∀ m, Logged WARN m ∉ events)
    ∧ (∀ e, s = Throw e → events = []).
Proof.
  unfold async_each.
  destruct (thrown runs) as [e|].
  { eexists _, _. split_and!; [done..| |done]. by intros m ?%elem_of_nil. }
  destruct (first_uncaught runs) as [e|].
  - eexists _, _. split_and!; [done..| |done]. by intros m ?%elem_of_nil.
  - destruct (first_error runs) as [e|]; eexists _, _;
      (split_and!; [reflexivity | done | | done]);
      intros m [Hm|Hm]%elem_of_cons; (discriminate Hm || by apply elem_of_nil in Hm).
Qed.

Lemma searchUsers_events (userList : list User.t) (n : nat) :
  let b := searchUsers patronGroups addressTypes env uuidv1
             encodeURIComponent userList batchCallback n in
  requests (reported b).1
  = [{| opts := searchOptions encodeURIComponent userList;
        written := NoBody |}]
  ∧ ∀ m, Logged WARN m ∉ (reported b).1.
Proof.
  cbn zeta. unfold searchUsers.
  destruct (env _) as [e|c t].
  - split; [reflexivity|].
    intros m Hm. cbn in Hm.
    repeat (apply elem_of_cons in Hm as [Hm|Hm]; [discriminate Hm|]).
    by apply elem_of_nil in Hm.
  - cbn [response_status js_ltb js_gtb orb].
    destruct t as [|[users|]].
    + split; [reflexivity|].
      intros m Hm. cbn in Hm.
      repeat (apply elem_of_cons in Hm as [Hm|Hm]; [discriminate Hm|]).
      by apply elem_of_nil in Hm.
    + cbn [with_reported reported]. unfold importUsers.
      destruct (dispatch _ _ _ _ _ _ n) as [[h n'] rs]. cbn [reported].
      destruct (async_each_batch rs.*2) as (events & s & -> & Hreq & Hwarn & Hs).
      assert ((∃ e, s = Throw e) ∨ ∀ e, s ≠ Throw e) as [[e ->]|Hcalled]
        by (destruct s; eauto).
      { rewrite (Hs e eq_refl). split; [reflexivity|].
        intros m Hm. cbn in Hm.
        repeat (apply elem_of_cons in Hm as [Hm|Hm]; [discriminate Hm|]).
        by apply elem_of_nil in Hm. }
      assert (Hrun :
        emit [Sent {| opts := searchOptions encodeURIComponent userList;
                      written := NoBody |}]
          (on_event
             (try_catch
                (emit [Logged TRACE "Updated existing users with ids."]
                   (events, s))
                (λ e,
                   emit
                     [Logged ERROR
                        ("Failed to list and import existing users with query: "
                         +:+ queryPath_loop userList "(")]
                     (batchCallback (Some e)))))
        = (Sent {| opts := searchOptions encodeURIComponent userList;
                   written := NoBody |}
             :: Logged TRACE "Updated existing users with ids." :: events, s)).
      { destruct s as [err|e|e]; [done| |done]. by destruct (Hcalled e). }
      rewrite Hrun. cbn [fst]. split.
      * change (requests (?a :: ?b :: events))
          with (requests [a; b] ++ requests events) at 1.
        by rewrite Hreq.
      * intros m [Hm|[Hm|Hm]%elem_of_cons]%elem_of_cons;
          [discriminate Hm | discriminate Hm | by apply (Hwarn m)].
    + split; [reflexivity|].
      intros m Hm. cbn in Hm.
      repeat (apply elem_of_cons in Hm as [Hm|Hm]; [discriminate Hm|]).
      by apply elem_of_nil in Hm.
Qed.

Lemma eachLimit_reports (userData : list (list User.t)) (n : nat) :
  let result := eachLimit patronGroups addressTypes env uuidv1
                  encodeURIComponent userData n in
  (length result.1 ≤ length userData)%nat
  ∧ (∀ i b, result.1 !! i = Some b →
       ∃ userList n',
         userData !! i = Some userList
         ∧ b = searchUsers patronGroups addressTypes env uuidv1
                 encodeURIComponent userList batchCallback n'
         ∧ ((S i < length result.1)%nat → (reported b).2 = Called None))
  ∧ (result.2 = Called None → length result.1 = length userData)
  ∧ (result.2 ≠ Called None →
     ∃ b, last result.1 = Some b ∧ (reported b).2 = result.2).
Proof.
  revert n. induction userData as [|userList userData IH]; intros n.
  - cbn. split_and!; [lia | | done | done].
    intros i b Hi. by rewrite lookup_nil in Hi.
  - cbn zeta. cbn [eachLimit].
    set (b := searchUsers patronGroups addressTypes env uuidv1
                encodeURIComponent userList batchCallback n).
    destruct (reported b).2 as [[e|]|e|e] eqn:Hs.
    1,3,4: cbn [fst snd length]; split_and!; [lia | | done | ];
      [ intros [|i] b' Hi; [|by destruct i];
        injection Hi as <-; exists userList, n;
        split_and!; [done | done | simpl; lia]
      | intros _; by exists b ].
    specialize (IH (uuid_calls b)). cbn zeta in IH.
    destruct (eachLimit _ _ _ _ _ userData (uuid_calls b)) as [bs s].
    destruct IH as (Hlen & Hat & Hall & Hlast).
    cbn [fst snd length] in *. split_and!.
    + lia.
    + intros [|i] b' Hi.
      * injection Hi as <-. by exists userList, n.
      * destruct (Hat i b' Hi) as (ul & n' & Hul & -> & Hnext).
        exists ul, n'. split_and!; [done | done |]. intros ?. apply Hnext. lia.
    + intros Hcalled. by rewrite (Hall Hcalled).
    + intros Hne. destruct (Hlast Hne) as (b' & Hb' & Hsig).
      exists b'. split; [|done].
      destruct bs as [|b0 bs]; [done|]. by rewrite last_cons_cons.
Qed.

End SearchFacts.

(** X3.  Whatever the server answers, a batch that [searchUsers] is given
    costs exactly one search request, the one for the query over the
    batch; the creations and updates of its records are not among the
    batch's own requests. *)
Theorem searchUsers_sends_one_search
    (patronGroups addressTypes : gmap string string) (env : request → reply)
    (uuidv1 : nat → string) (encodeURIComponent : string → string)
    (userList : list User.t) (n : nat) :
  requests
    (reported (searchUsers patronGroups addressTypes env uuidv1
                 encodeURIComponent userList batchCallback n)).1
  = [{| opts := searchOptions encodeURIComponent userList;
        written := NoBody |}].
Proof.
  apply (searchUsers_events patronGroups addressTypes env uuidv1
           encodeURIComponent userList n).
Qed.



(** X5.  When the search request of a batch fails at the transport level,
    nothing is done for the records of the batch, the error is logged and
    handed to [async.eachLimit], and the batches after it are not
    started. *)
Theorem search_transport_error_ends_the_run
    (patronGroups addressTypes : gmap string string) (env : request → reply)
    (uuidv1 : nat → string) (encodeURIComponent : string → string)
    (userList : list User.t) (userData : list (list User.t)) (n : nat)
    (e : error) :
  env {| opts := searchOptions encodeURIComponent userList;
         written := NoBody |} = NoResponse e →
  let b := searchUsers patronGroups addressTypes env uuidv1
             encodeURIComponent userList batchCallback n in
  records b = []
  ∧ userList_after b = userList
  ∧ reported b
    = ([Sent {| opts := searchOptions encodeURIComponent userList;
                written := NoBody |};
        Logged ERROR ("Failed to list existing users with query: "
                      +:+ queryPath_loop userList "(")],
       Called (Some e))
  ∧ eachLimit patronGroups addressTypes env uuidv1 encodeURIComponent
      (userList :: userData) n
    = ([b], Called (Some e)).
Proof.
  intros Henv b.
  assert (Hb : b = not_imported userList n
                 ([Sent {| opts := searchOptions encodeURIComponent userList;
                           written := NoBody |};
                   Logged ERROR ("Failed to list existing users with query: "
                                 +:+ queryPath_loop userList "(")],
                  Called (Some e))).
  { unfold b, searchUsers. rewrite Henv. reflexivity. }
  split_and!; try by rewrite Hb.
  rewrite (stops_unless_called patronGroups addressTypes env uuidv1
             encodeURIComponent userList userData n); fold b.
  - by rewrite Hb.
  - by rewrite Hb.
Qed.

Lemma search_transport_error_ends_the_run_witness :
  let env := λ _ : request, NoResponse (SocketError "ECONNREFUSED") in
  let b := searchUsers sample_patronGroups sample_addressTypes env
             sample_uuid (λ s, s) [alice] batchCallback 0 in
  env {| opts := searchOptions (λ s, s) [alice]; written := NoBody |}
  = NoResponse (SocketError "ECONNREFUSED")
  ∧ records b = []
  ∧ userList_after b = [alice]
  ∧ reported b
    = ([Sent {| opts := searchOptions (λ s, s) [alice]; written := NoBody |};
        Logged ERROR ("Failed to list existing users with query: "
                      +:+ queryPath_loop [alice] "(")],
       Called (Some (SocketError "ECONNREFUSED")))
  ∧ eachLimit sample_patronGroups sample_addressTypes env sample_uuid
      (λ s, s) ([alice] :: [[bob]]) 0
    = ([b], Called (Some (SocketError "ECONNREFUSED"))).
Proof.
  intros env b. split; [reflexivity|].
  apply (search_transport_error_ends_the_run sample_patronGroups
           sample_addressTypes env sample_uuid (λ s, s) [alice] [[bob]] 0
           (SocketError "ECONNREFUSED")).
  reflexivity.
Defined.

(** X6.  [async.eachLimit(userData, 1, searchUsers, ...)] works through
    the batches in their order, one after the other: the batches that
    were started are an initial segment of [userData], the [i]-th of them
    is [searchUsers] on the [i]-th batch, a batch is followed by another
    only if it called back without an error, all batches are started when
    the run ends without an error, and otherwise the way the run ends is
    the way its last batch ended. *)
Theorem eachLimit_in_order
    (patronGroups addressTypes : gmap string string) (env : request → reply)
    (uuidv1 : nat → string) (encodeURIComponent : string → string)
    (userData : list (list User.t)) (n : nat) :
  let result := eachLimit patronGroups addressTypes env uuidv1
                  encodeURIComponent userData n in
  (length result.1 ≤ length userData)%nat
  ∧ (∀ i b, result.1 !! i = Some b →
       ∃ userList n',
         userData !! i = Some userList
         ∧ b = searchUsers patronGroups addressTypes env uuidv1
                 encodeURIComponent userList batchCallback n'
         ∧ ((S i < length result.1)%nat → (reported b).2 = Called None))
  ∧ (result.2 = Called None → length result.1 = length userData)
  ∧ (result.2 ≠ Called None →
     ∃ b, last result.1 = Some b ∧ (reported b).2 = result.2).
Proof. apply eachLimit_reports. Qed.

Lemma eachLimit_in_order_witness :
  let result := eachLimit sample_patronGroups sample_addressTypes
                  (search_fails_for [bob]) sample_uuid (λ s, s)
                  [[alice]; [bob]; [carol]] 0 in
  length result.1 = 2%nat
  ∧ (length result.1 ≤ length [[alice]; [bob]; [carol]])%nat
  ∧ (∀ i b, result.1 !! i = Some b →
       ∃ userList n',
         [[alice]; [bob]; [carol]] !! i = Some userList
         ∧ b = searchUsers sample_patronGroups sample_addressTypes
                 (search_fails_for [bob]) sample_uuid (λ s, s) userList
                 batchCallback n'
         ∧ ((S i < length result.1)%nat → (reported b).2 = Called None))
  ∧ (result.2 = Called None
     → length result.1 = length [[alice]; [bob]; [carol]])
  ∧ (result.2 ≠ Called None →
     ∃ b, last result.1 = Some b ∧ (reported b).2 = result.2).
Proof.
  intros result. split; [reflexivity|].
  exact (eachLimit_in_order sample_patronGroups sample_addressTypes
           (search_fails_for [bob]) sample_uuid (λ s, s)
           [[alice]; [bob]; [carol]] 0).
Defined.

(** ** The chains of [updateUser] and [createUser] *)

(** X7.  [updateUser] first translates the record, which logs a warning
    for each address that is skipped.  When the path, which ends in the
    record's [id], passes the check of [http.request], it then sends one
    request, a [PUT] addressed at that [id] whose body is the translated
    record, and when the server answers it calls the record's callback
    without an error whatever the status; a failure status is what makes
    it log the warning that the update failed.  When the path does not
    pass the check, nothing is sent and [updateUser] throws. *)
Theorem updateUser_one_put
    (patronGroups addressTypes : gmap string string) (env : request → reply)
    (user0 : User.t) (c : Z) (t : raw) :
  let updated := updateUser patronGroups addressTypes env user0 userCallback in
  let user := updated.1 in
  let put := {| opts := updateOptions user; written := UserBody user |} in
  let failed :=
    Logged WARN ("Failed to update user with externalSystemId: "
                 +:+ User.externalSystemId user) in
  user = mapUserData patronGroups addressTypes user0
  ∧ path (opts put) = "/users/" +:+ js_string (User.id user0)
  ∧ (fits_path (js_string (User.id user0)) → env put = Response c t →
     updated.2
     = (mapUserData_log addressTypes user0
        ++ Sent put
           :: Logged INFO ("User update status: "
                           +:+ User.externalSystemId user)
           :: (if status_failed c
               then [failed; Logged DEBUG "User data: "] else []),
        Called None)
     ∧ requests updated.2.1 = [put]
     ∧ (failed ∈ updated.2.1 ↔ status_failed c = true))
  ∧ (unescaped (js_string (User.id user0)) = true →
     updated.2
     = (mapUserData_log addressTypes user0,
        Throw (TypeError "Request path contains unescaped characters"))
     ∧ requests updated.2.1 = []).
Proof.
  intros updated user put failed. subst updated user put failed.
  cbn [updateUser fst snd].
  set (u := mapUserData patronGroups addressTypes user0).
  set (log := mapUserData_log addressTypes user0).
  assert (Hlog : requests log = []) by apply requests_mapUserData_log.
  assert (Hpath : path (updateOptions u)
                  = "/users/" +:+ js_string (User.id user0)).
  { unfold updateOptions. simpl. unfold u. by rewrite mapUserData_fields. }
  split_and!; [done | done | |].
  - intros Hfits H. rewrite http_request_sent, H
      by by apply updateOptions_fits.
    assert (Hrun : ∀ X (s : signal),
              emit log
                (emit [Sent {| opts := updateOptions u;
                               written := UserBody u |}] (X, s))
              = (log ++ Sent {| opts := updateOptions u;
                                written := UserBody u |} :: X, s))
      by done.
    destruct (status_failed c) eqn:S; cbn [on_event emit try_catch fst snd
                                            userCallback app];
      (split_and!; [done | by rewrite requests_app, Hlog |]).
    + split; [done|]. intros _. apply elem_of_app. right.
      repeat first [apply list_elem_of_here | apply list_elem_of_further].
    + split; [|done]. intros [Hin|Hin]%elem_of_app.
      * by apply (mapUserData_log_warnings addressTypes user0) in Hin.
      * repeat (apply elem_of_cons in Hin as [Hin|Hin]; [discriminate Hin|]).
        by apply elem_of_nil in Hin.
  - intros Hbad. rewrite http_request_refused.
    + unfold emit. cbn [fst snd]. by rewrite !app_nil_r.
    + by rewrite Hpath, unescaped_app.
Qed.

Lemma updateUser_one_put_witness :
  let env := server (Json (Some [])) (λ _, 422) in
  let user0 := User.set_id (Some "id-of-B") alice in
  let updated := updateUser sample_patronGroups sample_addressTypes env
                   user0 userCallback in
  let user := updated.1 in
  let put := {| opts := updateOptions user; written := UserBody user |} in
  let failed :=
    Logged WARN ("Failed to update user with externalSystemId: "
                 +:+ User.externalSystemId user) in
  (fits_path (js_string (User.id user0)) ∧ env put = Response 422 Garbage)
  ∧ user = mapUserData sample_patronGroups sample_addressTypes user0
  ∧ path (opts put) = "/users/" +:+ js_string (User.id user0)
  ∧ updated.2
    = (mapUserData_log sample_addressTypes user0
       ++ Sent put
          :: Logged INFO ("User update status: "
                          +:+ User.externalSystemId user)
          :: (if status_failed 422
              then [failed; Logged DEBUG "User data: "] else []),
       Called None)
  ∧ requests updated.2.1 = [put]
  ∧ (failed ∈ updated.2.1 ↔ status_failed 422 = true).
Proof.
  intros env user0 updated user put failed.
  destruct (updateUser_one_put sample_patronGroups sample_addressTypes env
              user0 422 Garbage) as (H1 & H2 & H3 & _).
  split; [by split|].
  destruct (H3 eq_refl eq_refl) as (H4 & H5 & H6).
  split_and!; [exact H1 | exact H2 | exact H4 | exact H5 | exact H6].
Defined.

(** X8.  When the create-record call is refused, [createUser] has nothing
    to unwind: after the warnings of the translation about skipped
    addresses, the refused request is the only one it sends, the refusal
    is logged as a warning, and the record's callback is called without
    an error. *)
Theorem createUser_refused
    (patronGroups addressTypes : gmap string string) (env : request → reply)
    (uuidv1 : nat → string) (n : nat) (user0 : User.t) (c : Z) (t : raw) :
  let created :=
    createUser patronGroups addressTypes env uuidv1 n user0 userCallback in
  let create :=
    {| opts := createOptions; written := UserBody created.1 |} in
  env create = Response c t → status_failed c = true →
  created.2
  = (mapUserData_log addressTypes (User.set_id (Some (uuidv1 n)) user0)
     ++ [Sent create;
         Logged INFO ("User create status: "
                      +:+ User.externalSystemId created.1);
         Logged WARN ("Failed to create user with externalSystemId: "
                      +:+ User.externalSystemId created.1)],
     Called None)
  ∧ requests created.2.1 = [create].
Proof.
  intros created create. subst created create. cbn [createUser fst snd].
  intros H S. rewrite http_request_sent by reflexivity. rewrite H.
  cbn [emit on_event try_catch fst snd]. rewrite S.
  split; [done|].
  cbn [emit fst snd]. by rewrite requests_app, requests_mapUserData_log.
Qed.

Lemma createUser_refused_witness :
  let env := server (Json (Some [])) (λ _, 422) in
  let created :=
    createUser sample_patronGroups sample_addressTypes env sample_uuid 0
      alice userCallback in
  let create :=
    {| opts := createOptions; written := UserBody created.1 |} in
  (env create = Response 422 Garbage ∧ status_failed 422 = true)
  ∧ created.2
    = (mapUserData_log sample_addressTypes
         (User.set_id (Some (sample_uuid 0)) alice)
       ++ [Sent create;
           Logged INFO ("User create status: "
                        +:+ User.externalSystemId created.1);
           Logged WARN ("Failed to create user with externalSystemId: "
                        +:+ User.externalSystemId created.1)],
       Called None)
  ∧ requests created.2.1 = [create].
Proof.
  intros env created create. split; [by split|].
  apply (createUser_refused sample_patronGroups sample_addressTypes env
           sample_uuid 0 alice 422 Garbage); reflexivity.
Defined.

(** X9.  When the create-record, create-credential and apply-permission
    calls all succeed, [createUser] sends exactly these three requests in
    this order (the record with its generated [id], the user name with an
    empty password, the user name with an empty permission list), sends no
    delete, and calls the record's callback without an error.  After the
    warnings of the translation about skipped addresses, it logs no
    warning and no error: every line is of level [INFO] or [DEBUG]. *)
Theorem createUser_succeeds
    (patronGroups addressTypes : gmap string string) (env : request → reply)
    (uuidv1 : nat → string) (n : nat) (user0 : User.t)
    (c1 c2 c3 : Z) (t1 t2 t3 : raw) :
  let created :=
    createUser patronGroups addressTypes env uuidv1 n user0 userCallback in
  let user := created.1 in
  let create := {| opts := createOptions; written := UserBody user |} in
  let credentials :=
    {| opts := credentialsOptions;
       written := CredentialsBody (User.username user) "" |} in
  let permissions :=
    {| opts := permissionsOptions;
       written := PermissionsBody (User.username user) [] |} in
  env create = Response c1 t1 → status_failed c1 = false →
  env credentials = Response c2 t2 → status_failed c2 = false →
  env permissions = Response c3 t3 → status_failed c3 = false →
  User.id user = Some (uuidv1 n)
  ∧ requests created.2.1 = [create; credentials; permissions]
  ∧ (∃ rest,
       created.2.1
       = mapUserData_log addressTypes (User.set_id (Some (uuidv1 n)) user0)
         ++ rest
       ∧ (∀ l m, Logged l m ∈ rest → l = INFO ∨ l = DEBUG)
       ∧ Logged DEBUG "Permissions added successfully." ∈ rest)
  ∧ created.2.2 = Called None.
Proof.
  intros created user create credentials permissions.
  assert (Hid : User.id user = Some (uuidv1 n)) by apply createUser_object_id.
  subst created. cbn [createUser fst snd] in *.
  set (u := mapUserData patronGroups addressTypes
              (User.set_id (Some (uuidv1 n)) user0)) in *.
  set (log := mapUserData_log addressTypes
                (User.set_id (Some (uuidv1 n)) user0)).
  assert (Hlog : requests log = []) by apply requests_mapUserData_log.
  subst user create credentials permissions.
  intros H1 S1 H2 S2 H3 S3.
  rewrite http_request_sent by reflexivity. rewrite H1.
  cbn [emit on_event try_catch fst snd]. rewrite S1.
  unfold createCredentials. rewrite http_request_sent by reflexivity.
  rewrite H2. cbn [emit on_event try_catch fst snd]. rewrite S2.
  unfold applyEmptyPermissionSet. rewrite http_request_sent by reflexivity.
  rewrite H3. cbn [emit on_event try_catch fst snd]. rewrite S3.
  cbn [emit on_event try_catch fst snd userCallback].
  split_and!; [done | by rewrite requests_app, Hlog | | reflexivity].
  eexists. split; [reflexivity|]. split.
  - intros l m Hm. cbn in Hm.
    repeat (apply elem_of_cons in Hm as [Hm|Hm];
            [first [discriminate Hm | injection Hm as -> _; auto]|]).
    by apply elem_of_nil in Hm.
  - cbn. repeat first [apply list_elem_of_here | apply list_elem_of_further].
Qed.

Lemma createUser_succeeds_witness :
  let env := server (Json (Some [])) accepts_all in
  let created :=
    createUser sample_patronGroups sample_addressTypes env sample_uuid 0
      alice userCallback in
  let user := created.1 in
  let create := {| opts := createOptions; written := UserBody user |} in
  let credentials :=
    {| opts := credentialsOptions;
       written := CredentialsBody (User.username user) "" |} in
  let permissions :=
    {| opts := permissionsOptions;
       written := PermissionsBody (User.username user) [] |} in
  (env create = Response 201 Garbage ∧ status_failed 201 = false
   ∧ env credentials = Response 201 Garbage
   ∧ env permissions = Response 201 Garbage)
  ∧ User.id user = Some (sample_uuid 0)
  ∧ requests created.2.1 = [create; credentials; permissions]
  ∧ (∃ rest,
       created.2.1
       = mapUserData_log sample_addressTypes
           (User.set_id (Some (sample_uuid 0)) alice)
         ++ rest
       ∧ (∀ l m, Logged l m ∈ rest → l = INFO ∨ l = DEBUG)
       ∧ Logged DEBUG "Permissions added successfully." ∈ rest)
  ∧ created.2.2 = Called None.
Proof.
  intros env created user create credentials permissions.
  split; [by split_and!|].
  apply (createUser_succeeds sample_patronGroups sample_addressTypes env
           sample_uuid 0 alice 201 201 201 Garbage Garbage Garbage);
    reflexivity.
Defined.

(** X10.  A request of [updateUser] or [createUser] that fails at the
    transport level ends the record's chain at once: no other request is
    sent for the record, and its callback is called with the transport
    error (which [async.each] passes on, so that the run stops after the
    batch).  (For [updateUser] the request is one that was sent: its
    path, which ends in the record's [id], passes the check of
    [http.request].) *)
Theorem save_transport_error
    (patronGroups addressTypes : gmap string string) (env : request → reply)
    (uuidv1 : nat → string) (n : nat) (user0 : User.t) (e : error) :
  (let updated :=
     updateUser patronGroups addressTypes env user0 userCallback in
   let put :=
     {| opts := updateOptions updated.1; written := UserBody updated.1 |} in
   unescaped (path (opts put)) = false →
   env put = NoResponse e →
   requests updated.2.1 = [put] ∧ updated.2.2 = Called (Some e))
  ∧ (let created :=
       createUser patronGroups addressTypes env uuidv1 n user0 userCallback in
     let create :=
       {| opts := createOptions; written := UserBody created.1 |} in
     env create = NoResponse e →
     requests created.2.1 = [create] ∧ created.2.2 = Called (Some e)).
Proof.
  split; cbn zeta; cbn [updateUser createUser fst snd opts].
  - intros Hpath H. rewrite http_request_sent, H by done.
    cbn [emit on_event fst snd userCallback].
    by rewrite requests_app, requests_mapUserData_log.
  - intros H. rewrite http_request_sent by reflexivity. rewrite H.
    cbn [emit on_event fst snd userCallback].
    by rewrite requests_app, requests_mapUserData_log.
Qed.

Lemma save_transport_error_witness :
  let env := λ _ : request, NoResponse (SocketError "ECONNRESET") in
  let e := SocketError "ECONNRESET" in
  let user0 := User.set_id (Some "id-of-B") bob in
  let updated :=
    updateUser sample_patronGroups sample_addressTypes env user0
      userCallback in
  let put :=
    {| opts := updateOptions updated.1; written := UserBody updated.1 |} in
  let created :=
    createUser sample_patronGroups sample_addressTypes env sample_uuid 0
      user0 userCallback in
  let create :=
    {| opts := createOptions; written := UserBody created.1 |} in
  (unescaped (path (opts put)) = false
   ∧ env put = NoResponse e ∧ env create = NoResponse e)
  ∧ (requests updated.2.1 = [put] ∧ updated.2.2 = Called (Some e))
  ∧ (requests created.2.1 = [create] ∧ created.2.2 = Called (Some e)).
Proof.
  intros env e user0 updated put created create.
  destruct (save_transport_error sample_patronGroups sample_addressTypes
              env sample_uuid 0 user0 e) as [H1 H2].
  split; [by split_and!|].
  split; [exact (H1 eq_refl eq_refl) | exact (H2 eq_refl)].
Defined.

(** X11.  When the create-record call has succeeded and the
    create-credential request fails at the transport level, nothing is
    rolled back: no delete is sent for the record just created, and the
    record's callback is called with the transport error. *)
Theorem credentials_transport_error_keeps_record
    (patronGroups addressTypes : gmap string string) (env : request → reply)
    (uuidv1 : nat → string) (n : nat) (user0 : User.t)
    (c1 : Z) (t1 : raw) (e : error) :
  let created :=
    createUser patronGroups addressTypes env uuidv1 n user0 userCallback in
  let user := created.1 in
  let create := {| opts := createOptions; written := UserBody user |} in
  let credentials :=
    {| opts := credentialsOptions;
       written := CredentialsBody (User.username user) "" |} in
  env create = Response c1 t1 → status_failed c1 = false →
  env credentials = NoResponse e →
  requests created.2.1 = [create; credentials]
  ∧ (∀ r, r ∈ requests created.2.1 → method (opts r) ≠ DELETE)
  ∧ created.2.2 = Called (Some e).
Proof.
  intros created user create credentials.
  subst created. cbn [createUser fst snd] in *.
  set (u := mapUserData patronGroups addressTypes
              (User.set_id (Some (uuidv1 n)) user0)) in *.
  subst user create credentials.
  intros H1 S1 H2.
  rewrite http_request_sent by reflexivity. rewrite H1.
  cbn [emit on_event try_catch fst snd]. rewrite S1.
  unfold createCredentials. rewrite http_request_sent by reflexivity.
  rewrite H2. cbn [emit on_event try_catch fst snd userCallback].
  rewrite requests_app, requests_mapUserData_log.
  split_and!; [reflexivity | | reflexivity].
  intros r Hr. cbn in Hr.
  repeat (apply elem_of_cons in Hr as [->|Hr]; [done|]).
  by apply elem_of_nil in Hr.
Qed.

Lemma credentials_transport_error_keeps_record_witness :
  let env := λ r,
    if String.eqb (path (opts r)) "/authn/credentials"
    then NoResponse (SocketError "ECONNRESET")
    else Response 201 Garbage in
  let created :=
    createUser sample_patronGroups sample_addressTypes env sample_uuid 0
      alice userCallback in
  let user := created.1 in
  let create := {| opts := createOptions; written := UserBody user |} in
  let credentials :=
    {| opts := credentialsOptions;
       written := CredentialsBody (User.username user) "" |} in
  (env create = Response 201 Garbage ∧ status_failed 201 = false
   ∧ env credentials = NoResponse (SocketError "ECONNRESET"))
  ∧ requests created.2.1 = [create; credentials]
  ∧ (∀ r, r ∈ requests created.2.1 → method (opts r) ≠ DELETE)
  ∧ created.2.2 = Called (Some (SocketError "ECONNRESET")).
Proof.
  intros env created user create credentials. split; [by split_and!|].
  apply (credentials_transport_error_keeps_record sample_patronGroups
           sample_addressTypes env sample_uuid 0 alice 201 Garbage
           (SocketError "ECONNRESET")); reflexivity.
Defined.

(** X12.  The request of [applyEmptyPermissionSet] has no ['error']
    handler.  When it fails at the transport level after the record and
    its credentials were created, the error is not caught by anything:
    no roll-back request follows and the record's callback is never
    called. *)
Theorem permissions_transport_error_is_uncaught
    (patronGroups addressTypes : gmap string string) (env : request → reply)
    (uuidv1 : nat → string) (n : nat) (user0 : User.t)
    (c1 c2 : Z) (t1 t2 : raw) (e : error) :
  let created :=
    createUser patronGroups addressTypes env uuidv1 n user0 userCallback in
  let user := created.1 in
  let create := {| opts := createOptions; written := UserBody user |} in
  let credentials :=
    {| opts := credentialsOptions;
       written := CredentialsBody (User.username user) "" |} in
  let permissions :=
    {| opts := permissionsOptions;
       written := PermissionsBody (User.username user) [] |} in
  env create = Response c1 t1 → status_failed c1 = false →
  env credentials = Response c2 t2 → status_failed c2 = false →
  env permissions = NoResponse e →
  requests created.2.1 = [create; credentials; permissions]
  ∧ created.2.2 = Uncaught e.
Proof.
  intros created user create credentials permissions.
  subst created. cbn [createUser fst snd] in *.
  set (u := mapUserData patronGroups addressTypes
              (User.set_id (Some (uuidv1 n)) user0)) in *.
  subst user create credentials permissions.
  intros H1 S1 H2 S2 H3.
  rewrite http_request_sent by reflexivity. rewrite H1.
  cbn [emit on_event try_catch fst snd]. rewrite S1.
  unfold createCredentials. rewrite http_request_sent by reflexivity.
  rewrite H2. cbn [emit on_event try_catch fst snd]. rewrite S2.
  unfold applyEmptyPermissionSet. rewrite http_request_sent by reflexivity.
  rewrite H3. cbn [emit on_event try_catch fst snd].
  by rewrite requests_app, requests_mapUserData_log.
Qed.

Lemma permissions_transport_error_is_uncaught_witness :
  let env := λ r,
    if String.eqb (path (opts r)) "/perms/users"
    then NoResponse (SocketError "ECONNRESET")
    else Response 201 Garbage in
  let created :=
    createUser sample_patronGroups sample_addressTypes env sample_uuid 0
      alice userCallback in
  let user := created.1 in
  let create := {| opts := createOptions; written := UserBody user |} in
  let credentials :=
    {| opts := credentialsOptions;
       written := CredentialsBody (User.username user) "" |} in
  let permissions :=
    {| opts := permissionsOptions;
       written := PermissionsBody (User.username user) [] |} in
  (env create = Response 201 Garbage ∧ status_failed 201 = false
   ∧ env credentials = Response 201 Garbage
   ∧ env permissions = NoResponse (SocketError "ECONNRESET"))
  ∧ requests created.2.1 = [create; credentials; permissions]
  ∧ created.2.2 = Uncaught (SocketError "ECONNRESET").
Proof.
  intros env created user create credentials permissions.
  split; [by split_and!|].
  apply (permissions_transport_error_is_uncaught sample_patronGroups
           sample_addressTypes env sample_uuid 0 alice 201 201
           Garbage Garbage (SocketError "ECONNRESET")); reflexivity.
Defined.

(** ** What [mapUserData] guarantees about its result *)

Section MaterializerResult.
Variable patronGroups addressTypes : gmap string string.

Lemma table_get_given_by (table : gmap string string) (name : option value)
    (v : value) :
  table_get table name = Some v ↔ given_by table name v.
Proof.
  unfold table_get, object_get, given_by.
  destruct (String.eqb_spec (property_key name) "__proto__") as [Hk|Hk].
  - rewrite Hk. split.
    + intros [= <-]. split_and!; [done| |by left].
      repeat first [apply list_elem_of_here | apply list_elem_of_further].
    + destruct v as [id|member]; [by intros [? _]|].
      by intros (<- & _ & _).
  - destruct (table !! property_key name) as [s|] eqn:Hs.
    + split.
      * by intros [= <-].
      * destruct v as [id|member]; [intros [_ Heq]; congruence|].
        intros (<- & _ & [Heq|Hnone]); [done|congruence].
    + case_bool_decide as Hmember.
      * split.
        -- intros [= <-]. split_and!; [done..|by right].
        -- destruct v as [id|member]; [by intros [_ ?]|].
           by intros (<- & _ & _).
      * split; [done|].
        destruct v as [id|member]; [by intros [_ ?]|].
        by intros (<- & ? & _).
Qed.

Lemma translate_known (table : gmap string string) (name : option value)
    (v : value) :
  translate table name = Some v → truthy_value (Some v) = true →
  truthy_value name = true ∧ given_by table name v.
Proof.
  unfold translate. intros Ht Hv.
  destruct (truthy_value name) eqn:Hname; [|congruence].
  destruct (truthy_value (table_get table name)) eqn:Hget; [|done].
  split; [done|]. by apply table_get_given_by.
Qed.

Lemma elem_of_omap_mapAddress (l : list Address.t) (a' : Address.t) :
  a' ∈ omap (pushed addressTypes) l
  ↔ ∃ a v,
      a ∈ l ∧ truthy_value (Address.addressTypeId a) = true
      ∧ given_by addressTypes (Address.addressTypeId a) v
      ∧ truthy_value (Some v) = true
      ∧ a' = Address.mk (Some v) (Address.addressLine1 a).
Proof.
  rewrite list_elem_of_omap. split.
  - intros (a & Ha & (Hty & Hid & ->)%pushed_Some).
    destruct (table_get addressTypes (Address.addressTypeId a)) as [v|] eqn:Hv;
      [|done].
    exists a, v. split_and!; [done..| |done |done].
    by apply table_get_given_by.
  - intros (a & v & Ha & Hty & Hv%table_get_given_by & Htruthy & ->).
    exists a. split; [done|]. apply pushed_Some. by rewrite Hv.
Qed.

Lemma length_omap_mapAddress (l : list Address.t) :
  (length (omap (pushed addressTypes) l) ≤ length l)%nat.
Proof.
  induction l as [|a l IH]; [done|]. csimpl.
  destruct (pushed addressTypes a); simpl; lia.
Qed.

(** Every address with a type is pushed or warned about. *)
Lemma pushed_or_warned (l : list Address.t) :
  (length (l ≫= λ a, (mapAddress addressTypes a).1)
   + length (omap (pushed addressTypes) l))%nat
  = length (filter (λ a, truthy_value (Address.addressTypeId a) = true) l).
Proof.
  induction l as [|a l IH]; [done|].
  rewrite filter_cons. csimpl. rewrite length_app.
  unfold pushed, mapAddress in *.
  destruct (truthy_value (Address.addressTypeId a));
    [|rewrite decide_False by done; simpl; lia].
  rewrite decide_True by done.
  destruct (truthy_value (table_get _ _)); simpl; lia.
Qed.

Lemma mapPersonal_addresses (p : Personal.t) :
  Personal.addresses (mapPersonal addressTypes p)
  = match Personal.addresses p with
    | Some (a :: l) => Some (omap (pushed addressTypes) (a :: l))
    | other => other
    end.
Proof. by rewrite mapPersonal_fields. Qed.

End MaterializerResult.

(** X13.  Whatever the record and the tables, a truthy patron group in
    the result of [mapUserData] is what the patron-group table gives for
    the patron group of the record: a string only as the entry of the
    table under that name, and otherwise the member of [Object.prototype]
    whose name the record carried.  In the same way a truthy preferred
    contact type in the result is one of the five built-in codes, the one
    for the record's contact type name, or such a member.  A name for
    which the table gives nothing never reaches the request. *)
Theorem mapUserData_writes_known_ids
    (patronGroups addressTypes : gmap string string) (user : User.t) :
  let user' := mapUserData patronGroups addressTypes user in
  (∀ v, User.patronGroup user' = Some v → truthy_value (Some v) = true →
     given_by patronGroups (User.patronGroup user) v)
  ∧ (∀ p' v,
       User.personal user' = Some p' →
       Personal.preferredContactTypeId p' = Some v →
       truthy_value (Some v) = true →
       ∃ p,
         User.personal user = Some p
         ∧ given_by preferredContactTypes (Personal.preferredContactTypeId p)
             v
         ∧ ∀ code, v = Str code →
             code ∈ ["001"; "002"; "003"; "004"; "005"]).
Proof.
  cbn zeta. rewrite mapUserData_fields. cbn [User.patronGroup User.personal].
  split.
  - intros v Hv Htruthy. by apply translate_known.
  - intros p' v Hp' Hv Htruthy.
    destruct (User.personal user) as [p|]; [|done].
    injection Hp' as <-. rewrite mapPersonal_fields in Hv.
    cbn [Personal.preferredContactTypeId] in Hv.
    destruct (translate_known _ _ _ Hv Htruthy) as [_ Hgiven].
    exists p. split_and!; [done..|].
    intros code ->. destruct Hgiven as [_ Hlook].
    unfold preferredContactTypes in Hlook.
    repeat (apply lookup_insert_Some in Hlook as [[_ <-]|[_ Hlook]];
            [repeat first [apply list_elem_of_here
                          | apply list_elem_of_further]|]).
    by rewrite lookup_empty in Hlook.
Qed.

Lemma mapUserData_writes_known_ids_witness :
  let user' := mapUserData sample_patronGroups sample_addressTypes alice in
  (User.patronGroup user' = Some (Str "pg-1")
   ∧ truthy_value (Some (Str "pg-1")) = true)
  ∧ given_by sample_patronGroups (User.patronGroup alice) (Str "pg-1")
  ∧ (∀ p' v,
       User.personal user' = Some p' →
       Personal.preferredContactTypeId p' = Some v →
       truthy_value (Some v) = true →
       ∃ p,
         User.personal alice = Some p
         ∧ given_by preferredContactTypes (Personal.preferredContactTypeId p)
             v
         ∧ ∀ code, v = Str code →
             code ∈ ["001"; "002"; "003"; "004"; "005"]).
Proof.
  intros user'.
  destruct (mapUserData_writes_known_ids sample_patronGroups
              sample_addressTypes alice) as [H1 H2].
  split; [by split|]. split; [exact (H1 (Str "pg-1") eq_refl eq_refl)|].
  exact H2.
Defined.

(** X14.  The address list in the result of [mapUserData], for a record
    that came with at least one address, holds exactly the addresses of
    the record that have a type for which the address-type table gives
    something truthy, with that in place of the type; the other addresses
    are left out, so the list may become empty, and it never grows.  One
    warning is logged for each address that has a type and is left out;
    an address without a type is left out in silence. *)
Theorem mapUserData_filters_addresses
    (patronGroups addressTypes : gmap string string) (user : User.t)
    (p : Personal.t) (a0 : Address.t) (l : list Address.t) :
  User.personal user = Some p →
  Personal.addresses p = Some (a0 :: l) →
  ∃ p' l',
    User.personal (mapUserData patronGroups addressTypes user) = Some p'
    ∧ Personal.addresses p' = Some l'
    ∧ (length l' ≤ length (a0 :: l))%nat
    ∧ (∀ a', a' ∈ l'
         ↔ ∃ a v,
             a ∈ a0 :: l ∧ truthy_value (Address.addressTypeId a) = true
             ∧ given_by addressTypes (Address.addressTypeId a) v
             ∧ truthy_value (Some v) = true
             ∧ a' = Address.mk (Some v) (Address.addressLine1 a))
    ∧ (length (mapUserData_log addressTypes user) + length l')%nat
      = length (filter (λ a, truthy_value (Address.addressTypeId a) = true)
                  (a0 :: l))
    ∧ ∀ e, e ∈ mapUserData_log addressTypes user →
        e = Logged WARN
              "Address does not have valid address type which is mandatory. Skipping.".
Proof.
  intros Hp Hl. rewrite mapUserData_fields. cbn [User.personal].
  rewrite Hp. cbn [fmap option_fmap option_map].
  exists (mapPersonal addressTypes p),
         (omap (pushed addressTypes) (a0 :: l)).
  split_and!; [done | | | | |].
  - by rewrite mapPersonal_addresses, Hl.
  - apply length_omap_mapAddress.
  - apply elem_of_omap_mapAddress.
  - unfold mapUserData_log. rewrite Hp, Hl. apply pushed_or_warned.
  - apply mapUserData_log_warnings.
Qed.

Lemma mapUserData_filters_addresses_witness :
  let p := Personal.mk "Liddell" (Some (Str "mail"))
             (Some [Address.mk (Some (Str "Home")) "1 Main St";
                    Address.mk (Some (Str "Nowhere")) "2 Side St"]) in
  let a0 := Address.mk (Some (Str "Home")) "1 Main St" in
  let l := [Address.mk (Some (Str "Nowhere")) "2 Side St"] in
  (User.personal alice = Some p ∧ Personal.addresses p = Some (a0 :: l))
  ∧ mapUserData_log sample_addressTypes alice
    = [Logged WARN
         "Address does not have valid address type which is mandatory. Skipping."]
  ∧ ∃ p' l',
      User.personal
        (mapUserData sample_patronGroups sample_addressTypes alice) = Some p'
      ∧ Personal.addresses p' = Some l'
      ∧ (length l' ≤ length (a0 :: l))%nat
      ∧ (∀ a', a' ∈ l'
           ↔ ∃ a v,
               a ∈ a0 :: l ∧ truthy_value (Address.addressTypeId a) = true
               ∧ given_by sample_addressTypes (Address.addressTypeId a) v
               ∧ truthy_value (Some v) = true
               ∧ a' = Address.mk (Some v) (Address.addressLine1 a))
      ∧ (length (mapUserData_log sample_addressTypes alice) + length l')%nat
        = length (filter (λ a, truthy_value (Address.addressTypeId a) = true)
                    (a0 :: l))
      ∧ ∀ e, e ∈ mapUserData_log sample_addressTypes alice →
          e = Logged WARN
                "Address does not have valid address type which is mandatory. Skipping.".
Proof.
  intros p a0 l. split; [by split|]. split; [reflexivity|].
  apply (mapUserData_filters_addresses sample_patronGroups
           sample_addressTypes alice p a0 l); reflexivity.
Defined.

(** X15.  With both reference tables empty (as they are when neither
    could be fetched), a record whose patron group and address types are
    not names of members of [Object.prototype] leaves [mapUserData]
    without a truthy patron group and without an address: the patron
    group name is removed and a non-empty address list becomes the empty
    list. *)
Theorem mapUserData_without_tables (user : User.t) :
  (property_key (User.patronGroup user) ∉ Object_prototype) →
  (∀ p l a, User.personal user = Some p → Personal.addresses p = Some l →
     a ∈ l → property_key (Address.addressTypeId a) ∉ Object_prototype) →
  let user' := mapUserData ∅ ∅ user in
  truthy_value (User.patronGroup user') = false
  ∧ ∀ p' l', User.personal user' = Some p' →
      Personal.addresses p' = Some l' → l' = [].
Proof.
  intros Hgroup Htypes. cbn zeta.
  assert (Hnone : ∀ name v, property_key name ∉ Object_prototype →
            ¬ given_by ∅ name v).
  { intros name [id|member] Hname; simpl.
    - intros [_ Hlook]. by rewrite lookup_empty in Hlook.
    - intros (<- & Hmember & _). done. }
  split.
  - destruct (truthy_value (User.patronGroup (mapUserData ∅ ∅ user))) eqn:Ht;
      [|done].
    destruct (User.patronGroup (mapUserData ∅ ∅ user)) as [v|] eqn:Hv;
      [|done].
    rewrite mapUserData_fields in Hv. cbn [User.patronGroup] in Hv.
    destruct (translate_known _ _ _ Hv Ht) as [_ Hgiven].
    destruct (Hnone _ v Hgroup Hgiven).
  - intros p' l' Hp' Hl'.
    rewrite mapUserData_fields in Hp'. cbn [User.personal] in Hp'.
    destruct (User.personal user) as [p|] eqn:Hp; [|done].
    injection Hp' as <-. rewrite mapPersonal_addresses in Hl'.
    destruct (Personal.addresses p) as [[|a0 l]|] eqn:Hl; [congruence| |done].
    injection Hl' as <-.
    destruct (omap (pushed ∅) (a0 :: l)) as [|a' l'] eqn:Homap; [done|].
    assert (Hin : a' ∈ omap (pushed ∅) (a0 :: l)) by (rewrite Homap; left).
    apply elem_of_omap_mapAddress in Hin as (a & v & Ha & _ & Hgiven & _).
    destruct (Hnone _ v (Htypes p (a0 :: l) a eq_refl Hl Ha) Hgiven).
Qed.

Lemma mapUserData_without_tables_witness :
  let user' := mapUserData ∅ ∅ alice in
  ((property_key (User.patronGroup alice) ∉ Object_prototype)
   ∧ (∀ p l a, User.personal alice = Some p → Personal.addresses p = Some l →
        a ∈ l → property_key (Address.addressTypeId a) ∉ Object_prototype))
  ∧ User.patronGroup alice = Some (Str "staff")
  ∧ truthy_value (User.patronGroup user') = false
  ∧ ∀ p' l', User.personal user' = Some p' →
      Personal.addresses p' = Some l' → l' = [].
Proof.
  intros user'.
  assert (H1 : property_key (User.patronGroup alice) ∉ Object_prototype)
    by (apply (bool_decide_unpack _); vm_compute; exact I).
  assert (H2 : ∀ p l a, User.personal alice = Some p →
            Personal.addresses p = Some l → a ∈ l →
            property_key (Address.addressTypeId a) ∉ Object_prototype).
  { intros p l a [= <-] [= <-] Ha.
    repeat (apply elem_of_cons in Ha as [->|Ha]);
      [| |by apply elem_of_nil in Ha];
      apply (bool_decide_unpack _); vm_compute; exact I. }
  split; [by split|]. split; [reflexivity|].
  exact (mapUserData_without_tables alice H1 H2).
Defined.

(** The member of [Object.prototype] that a table gives for a name such
    as [constructor] is kept by [mapUserData], and a second application
    looks it up under its source text and removes it. *)
Example inherited_member_is_kept :
  let user := User.mk None "E" "eve" (Some (Str "constructor")) None in
  User.patronGroup (mapUserData ∅ ∅ user) = Some (Builtin "constructor")
  ∧ User.patronGroup (mapUserData ∅ ∅ (mapUserData ∅ ∅ user)) = None.
Proof. split; reflexivity. Qed.

(** ** Reconciliation *)



(** X17.  Looking a key up in the [userMap] that [importUsers] builds
    from a batch, none of whose records has the external identifier
    [__proto__], gives the last record of the batch with that external
    identifier; when no record of the batch has it, the lookup gives the
    member of [Object.prototype] of that name, if the key is the name of
    one, and nothing otherwise. *)
Theorem userMap_lookup (userList : list User.t) (key : string) :
  (∀ user, user ∈ userList → User.externalSystemId user ≠ "__proto__") →
  match userMap_get key (reduce_userMap userList 0 []) with
  | Some (Record_at ref) =>
      ∃ user, userList !! ref = Some user
              ∧ User.externalSystemId user = key
              ∧ ∀ j user', userList !! j = Some user' →
                  User.externalSystemId user' = key → (j ≤ ref)%nat
  | Some (Member name) =>
      name = key ∧ key ∈ Object_prototype
      ∧ ∀ user, user ∈ userList → User.externalSystemId user ≠ key
  | None =>
      (key ∉ Object_prototype)
      ∧ ∀ user, user ∈ userList → User.externalSystemId user ≠ key
  end.
Proof.
  intros _. unfold userMap_get.
  destruct (userMap_own key (reduce_userMap userList 0 [])) as [ref|] eqn:Hget.
  - by apply userMap_own_reduce.
  - pose proof (proj1 (userMap_own_reduce_None _ _) Hget) as Hnone.
    by case_bool_decide.
Qed.

Lemma userMap_lookup_witness :
  let userList := [alice; bob; carol; User.mk None "B" "bob2" None None] in
  (∀ user, user ∈ userList → User.externalSystemId user ≠ "__proto__")
  ∧ userMap_get "B" (reduce_userMap userList 0 []) = Some (Record_at 3)
  ∧ ∃ user, userList !! 3%nat = Some user
            ∧ User.externalSystemId user = "B"
            ∧ ∀ j user', userList !! j = Some user' →
                User.externalSystemId user' = "B" → (j ≤ 3)%nat.
Proof.
  intros userList.
  assert (H : ∀ user, user ∈ userList →
                User.externalSystemId user ≠ "__proto__").
  { intros user Hin.
    repeat (apply elem_of_cons in Hin as [->|Hin]; [discriminate|]).
    by apply elem_of_nil in Hin. }
  split; [exact H|]. split; [reflexivity|].
  exact (userMap_lookup userList "B" H).
Defined.

(** A key that is the name of a member of [Object.prototype] and the
    external identifier of no record finds that member. *)
Example userMap_lookup_constructor :
  userMap_get "constructor" (reduce_userMap [alice; bob] 0 [])
  = Some (Member "constructor").
Proof. reflexivity. Qed.

(** ** Start-up *)

Section StartUpFacts.
Variable login_env : login_reply.
Variable table_env : options → table_reply.
Variable readFile : string → file_result.
Variable env : request → reply.
Variable uuidv1 : nat → string.
Variable encodeURIComponent : string → string.
Variable toInteger : string → Z.
Variable fuel : nat.



End StartUpFacts.



(** X19.  A reference table that cannot be had because the server
    answers with a failure status or with a text that cannot be parsed
    (or that lacks the list) does not stop the import.  When that happens
    for both tables, both requests are sent, in the order address types,
    patron groups, each failure is logged, the tables stay as they were,
    and the users of the input file are processed with those tables. *)
Theorem unavailable_tables_do_not_stop_the_import
    (table_env : options → table_reply) (readFile : string → file_result)
    (env : request → reply) (uuidv1 : nat → string)
    (encodeURIComponent : string → string) (toInteger : string → Z)
    (fuel : nat) (s : settings) (token : string)
    (addressTypes patronGroups : gmap string string)
    (c1 c2 : Z) (t1 t2 : table_raw) (usersData : option (list User.t)) :
  table_env addressTypeRequest = TableResponse c1 t1 →
  status_failed c1 = true ∨ t1 = TableGarbage ∨ t1 = TableJson None →
  table_env patronGroupRequest = TableResponse c2 t2 →
  status_failed c2 = true ∨ t2 = TableGarbage ∨ t2 = TableJson None →
  readFile (folioFilename s) = Content usersData →
  let b := getAddressTypes table_env readFile env uuidv1 encodeURIComponent
             toInteger fuel s token addressTypes patronGroups in
  boot_requests (boot b)
  = [TableRequested addressTypeRequest; TableRequested patronGroupRequest]
  ∧ (∃ l1 m1 l2 m2,
       boot b = [TableRequested addressTypeRequest; BootLogged l1 m1;
                 TableRequested patronGroupRequest; BootLogged l2 m2;
                 FileRead (folioFilename s)]
       ∧ (l1 = WARN ∨ l1 = ERROR) ∧ (l2 = WARN ∨ l2 = ERROR))
  ∧ addressTypes_loaded b = addressTypes
  ∧ patronGroups_loaded b = patronGroups
  ∧ boot_ended b
    = Ran (processUsers patronGroups addressTypes env uuidv1
             encodeURIComponent (toInteger (folioPageSize s)) fuel usersData).
Proof.
  intros H1 F1 H2 F2 Hfile b. unfold b, getAddressTypes. rewrite H1.
  assert (Hgroups :
    ∃ l2 m2, (l2 = WARN ∨ l2 = ERROR)
      ∧ getPatronGroups table_env readFile env uuidv1 encodeURIComponent
          toInteger fuel s token addressTypes patronGroups
        = {| boot := [TableRequested patronGroupRequest; BootLogged l2 m2;
                      FileRead (folioFilename s)];
             authToken := token;
             addressTypes_loaded := addressTypes;
             patronGroups_loaded := patronGroups;
             boot_ended :=
               Ran (processUsers patronGroups addressTypes env uuidv1
                      encodeURIComponent (toInteger (folioPageSize s)) fuel
                      usersData) |}).
  { unfold getPatronGroups, readUserData. rewrite H2, Hfile.
    destruct (status_failed c2) eqn:S2.
    - eexists _, _. split; [by left | reflexivity].
    - destruct F2 as [?|[-> | ->]]; [done| |];
        eexists _, _; (split; [by right | reflexivity]). }
  destruct Hgroups as (l2 & m2 & Hl2 & ->).
  destruct (status_failed c1) eqn:S1.
  - split_and!; try reflexivity. eexists _, _, _, _.
    split_and!; [reflexivity | by left | done].
  - destruct F1 as [?|[-> | ->]]; [done| |];
      (split_and!; try reflexivity; eexists _, _, _, _;
       split_and!; [reflexivity | by right | done]).
Qed.

Lemma unavailable_tables_do_not_stop_the_import_witness :
  let table_env := λ o : options,
    if String.eqb (path o) "/groups" then TableResponse 200 TableGarbage
    else TableResponse 403 (TableJson (Some [])) in
  let readFile := λ _ : string, Content (Some [alice]) in
  let env := server (Json (Some [])) accepts_all in
  let b := getAddressTypes table_env readFile env sample_uuid (λ s, s)
             (λ _, 10) 5 default_settings "token" ∅ ∅ in
  (table_env addressTypeRequest = TableResponse 403 (TableJson (Some []))
   ∧ status_failed 403 = true
   ∧ table_env patronGroupRequest = TableResponse 200 TableGarbage
   ∧ readFile (folioFilename default_settings) = Content (Some [alice]))
  ∧ boot_requests (boot b)
    = [TableRequested addressTypeRequest; TableRequested patronGroupRequest]
  ∧ (∃ l1 m1 l2 m2,
       boot b = [TableRequested addressTypeRequest; BootLogged l1 m1;
                 TableRequested patronGroupRequest; BootLogged l2 m2;
                 FileRead (folioFilename default_settings)]
       ∧ (l1 = WARN ∨ l1 = ERROR) ∧ (l2 = WARN ∨ l2 = ERROR))
  ∧ addressTypes_loaded b = ∅
  ∧ patronGroups_loaded b = ∅
  ∧ boot_ended b
    = Ran (processUsers ∅ ∅ env sample_uuid (λ s, s) 10 5 (Some [alice])).
Proof.
  intros table_env readFile env b. split; [by split_and!|].
  apply (unavailable_tables_do_not_stop_the_import table_env readFile env
           sample_uuid (λ s, s) (λ _, 10) 5 default_settings "token" ∅ ∅
           403 200 (TableJson (Some [])) TableGarbage (Some [alice]));
    [reflexivity | by left | reflexivity | right; by left | reflexivity].
Defined.

(** X20.  A request for a reference table that fails at the transport
    level is only logged: the handler does not call the next step.  When
    it is the request for the address types, nothing follows it; when it
    is the request for the patron groups, the input file is not read.  In
    both cases no user is processed. *)
Theorem table_transport_error_stops_the_import
    (table_env : options → table_reply) (readFile : string → file_result)
    (env : request → reply) (uuidv1 : nat → string)
    (encodeURIComponent : string → string) (toInteger : string → Z)
    (fuel : nat) (s : settings) (token : string)
    (addressTypes patronGroups : gmap string string) (e : error) :
  let b := getAddressTypes table_env readFile env uuidv1 encodeURIComponent
             toInteger fuel s token addressTypes patronGroups in
  (table_env addressTypeRequest = TableNoResponse e →
   boot b = [TableRequested addressTypeRequest;
             BootLogged ERROR "Failed to list address types."]
   ∧ boot_ended b = StoppedAtAddressTypes)
  ∧ (∀ c t,
       table_env addressTypeRequest = TableResponse c t →
       table_env patronGroupRequest = TableNoResponse e →
       boot_requests (boot b)
       = [TableRequested addressTypeRequest;
          TableRequested patronGroupRequest]
       ∧ (∀ f, FileRead f ∉ boot b)
       ∧ boot_ended b = StoppedAtPatronGroups).
Proof.
  cbn zeta. unfold getAddressTypes. split.
  - by intros ->.
  - intros c t -> H2.
    assert (Hgroups : ∀ at',
      getPatronGroups table_env readFile env uuidv1 encodeURIComponent
        toInteger fuel s token at' patronGroups
      = {| boot := [TableRequested patronGroupRequest;
                    BootLogged ERROR "Failed to list parton groups."];
           authToken := token;
           addressTypes_loaded := at';
           patronGroups_loaded := patronGroups;
           boot_ended := StoppedAtPatronGroups |}).
    { intros at'. unfold getPatronGroups. by rewrite H2. }
    destruct (status_failed c); [|destruct t as [|[entries|]]];
      rewrite Hgroups; (split_and!; [reflexivity | | reflexivity]);
      intros f Hf; cbn in Hf;
      repeat (apply elem_of_cons in Hf as [Hf|Hf]; [discriminate Hf|]);
      by apply elem_of_nil in Hf.
Qed.

Lemma table_transport_error_stops_the_import_witness :
  let e := SocketError "ETIMEDOUT" in
  let table_env := λ o : options,
    if String.eqb (path o) "/groups" then TableNoResponse e
    else TableResponse 200 (TableJson (Some [("Home", Some "at-1")])) in
  let readFile := λ _ : string, Content (Some [alice]) in
  let env := server (Json (Some [])) accepts_all in
  let b := getAddressTypes table_env readFile env sample_uuid (λ s, s)
             (λ _, 10) 5 default_settings "token" ∅ ∅ in
  (table_env addressTypeRequest
   = TableResponse 200 (TableJson (Some [("Home", Some "at-1")]))
   ∧ table_env patronGroupRequest = TableNoResponse e)
  ∧ (table_env addressTypeRequest = TableNoResponse e →
     boot b = [TableRequested addressTypeRequest;
               BootLogged ERROR "Failed to list address types."]
     ∧ boot_ended b = StoppedAtAddressTypes)
  ∧ (∀ c t,
       table_env addressTypeRequest = TableResponse c t →
       table_env patronGroupRequest = TableNoResponse e →
       boot_requests (boot b)
       = [TableRequested addressTypeRequest;
          TableRequested patronGroupRequest]
       ∧ (∀ f, FileRead f ∉ boot b)
       ∧ boot_ended b = StoppedAtPatronGroups).
Proof.
  intros e table_env readFile env b. split; [by split|].
  exact (table_transport_error_stops_the_import table_env readFile env
           sample_uuid (λ s, s) (λ _, 10) 5 default_settings "token" ∅ ∅ e).
Defined.

Lemma fill_table_other (table : gmap string string)
    (entries : list (string * option string)) (name : string) :
  (∀ entry, entry ∈ entries → entry.1 ≠ name) →
  fill_table table entries !! name = table !! name.
Proof.
  revert table. induction entries as [|[k v] entries IH]; intros table Hne;
    [done|].
  assert (Hk : k ≠ name) by (apply (Hne (k, v)); left).
  change (fill_table table ((k, v) :: entries))
    with (fill_table (<[k := default "" v]> table) entries).
  rewrite IH by (intros entry Hentry; apply Hne; by right).
  by apply lookup_insert_ne.
Qed.

(** X21.  After the entries of a response have been put into a reference
    table, a name is an entry of the table with the [id] of the last entry
    with that name (with a falsy value, here the empty string, when that
    entry has no [id]), so that reading the name gives this and no member
    of [Object.prototype]; and a name that no entry carries is an entry
    as it was before. *)
Theorem fill_table_lookup (table : gmap string string)
    (entries : list (string * option string)) (name : string) :
  (∀ pre post id,
     entries = pre ++ (name, id) :: post →
     (∀ entry, entry ∈ post → entry.1 ≠ name) →
     fill_table table entries !! name = Some (default "" id)
     ∧ (name ≠ "__proto__" →
        object_get (fill_table table entries) name
        = Some (Str (default "" id))))
  ∧ ((∀ entry, entry ∈ entries → entry.1 ≠ name) →
     fill_table table entries !! name = table !! name).
Proof.
  split; [|apply fill_table_other].
  intros pre post id -> Hpost.
  assert (Hlook : fill_table table (pre ++ (name, id) :: post) !! name
                  = Some (default "" id)).
  { unfold fill_table at 1.
    rewrite foldl_app. cbn [foldl]. fold (fill_table table pre).
    set (filled := fill_table table pre).
    change (foldl _ ?t post) with (fill_table t post).
    rewrite fill_table_other by done. cbn [fst snd].
    apply lookup_insert_eq. }
  split; [done|]. intros Hname. unfold object_get.
  destruct (String.eqb_spec name "__proto__") as [?|_]; [done|].
  by rewrite Hlook.
Qed.

Lemma fill_table_lookup_witness :
  let entries := [("Home", Some "at-0"); ("Work", Some "at-2");
                  ("Home", Some "at-1"); ("toString", None)] in
  fill_table ∅ entries !! "Home" = Some "at-1"
  ∧ object_get (fill_table ∅ entries) "toString" = Some (Str "")
  ∧ (∀ pre post id,
       entries = pre ++ ("Home", id) :: post →
       (∀ entry, entry ∈ post → entry.1 ≠ "Home") →
       fill_table ∅ entries !! "Home" = Some (default "" id)
       ∧ ("Home" ≠ "__proto__" →
          object_get (fill_table ∅ entries) "Home"
          = Some (Str (default "" id))))
  ∧ ((∀ entry, entry ∈ entries → entry.1 ≠ "Home") →
     fill_table ∅ entries !! "Home" = (∅ : gmap string string) !! "Home").
Proof.
  intros entries. split; [reflexivity|]. split; [reflexivity|].
  exact (fill_table_lookup ∅ entries "Home").
Defined.

(** X22.  [initConfig] logs the failure to load the configuration file
    with [logger], which has no value before the end of the first
    [initConfig].  So on the first start a configuration file that cannot
    be loaded makes [startImport] throw a [TypeError] before anything is
    sent, instead of going on with the settings it has; on a later start
    the failure is logged as a warning and the login is made with the
    settings unchanged. *)
Theorem unloadable_config_on_first_start
    (login_env : login_reply) (table_env : options → table_reply)
    (readFile : string → file_result) (env : request → reply)
    (uuidv1 : nat → string) (encodeURIComponent : string → string)
    (toInteger : string → Z) (fuel : nat)
    (configUrl : option string) (s : settings) (authToken0 : string)
    (addressTypes patronGroups : gmap string string) :
  truthy configUrl = true →
  (let b := startImport login_env table_env readFile env uuidv1
              encodeURIComponent toInteger fuel false configUrl None s
              authToken0 addressTypes patronGroups in
   boot b = []
   ∧ boot_ended b
     = ConfigThrew (TypeError "Cannot read property 'warn' of undefined"))
  ∧ startImport login_env table_env readFile env uuidv1
      encodeURIComponent toInteger fuel true configUrl None s
      authToken0 addressTypes patronGroups
    = before [BootLogged WARN "Failed to load config file.";
              BootLogged TRACE "Configuration has been initialized."]
        (login login_env table_env readFile env uuidv1 encodeURIComponent
           toInteger fuel s authToken0 addressTypes patronGroups).
Proof.
  intros Hurl. unfold startImport, initConfig. rewrite Hurl. by split.
Qed.

Lemma unloadable_config_on_first_start_witness :
  let login_env := LoginResponse (Some "token") in
  let table_env := λ _ : options, TableResponse 200 (TableJson (Some [])) in
  let readFile := λ _ : string, Content (Some [alice]) in
  let env := server (Json (Some [])) accepts_all in
  truthy (Some "./missing.json") = true
  ∧ (let b := startImport login_env table_env readFile env sample_uuid
                (λ s, s) (λ _, 10) 5 false (Some "./missing.json") None
                default_settings "" ∅ ∅ in
     boot b = []
     ∧ boot_ended b
       = ConfigThrew (TypeError "Cannot read property 'warn' of undefined"))
  ∧ startImport login_env table_env readFile env sample_uuid
      (λ s, s) (λ _, 10) 5 true (Some "./missing.json") None
      default_settings "" ∅ ∅
    = before [BootLogged WARN "Failed to load config file.";
              BootLogged TRACE "Configuration has been initialized."]
        (login login_env table_env readFile env sample_uuid (λ s, s)
           (λ _, 10) 5 default_settings "" ∅ ∅).
Proof.
  intros login_env table_env readFile env. split; [reflexivity|].
  apply (unloadable_config_on_first_start login_env table_env readFile env
           sample_uuid (λ s, s) (λ _, 10) 5 (Some "./missing.json")
           default_settings "" ∅ ∅).
  reflexivity.
Defined.



Lemma or_else_or_else (value : option string) (fallback : string) :
  or_else value (or_else value fallback) = or_else value fallback.
Proof.
  unfold or_else. destruct value as [v|]; [|done].
  by destruct (String.eqb v "").
Qed.

(** X24.  The assignments of [initConfig] take from the configuration
    file the values that are present and non-empty and keep the current
    setting for the others: a configuration without usable values changes
    no setting, and applying the same configuration a second time changes
    nothing more. *)
Theorem apply_config_keeps_and_settles (c : config) (s : settings) :
  ((∀ get : config → option string,
      get ∈ [FOLIO_HOST; FOLIO_PORT; FOLIO_PROTOCOL; FOLIO_TENANT;
             FOLIO_USERNAME; FOLIO_PASSWORD; FOLIO_FILENAME; FOLIO_PAGESIZE;
             FOLIO_LOGFILE; FOLIO_LOGLEVEL] →
      truthy (get c) = false) →
   apply_config c s = s)
  ∧ apply_config c (apply_config c s) = apply_config c s.
Proof.
  split.
  - intros Hnone. unfold apply_config.
    assert (Hkeep : ∀ get : config → option string,
              get ∈ [FOLIO_HOST; FOLIO_PORT; FOLIO_PROTOCOL; FOLIO_TENANT;
                     FOLIO_USERNAME; FOLIO_PASSWORD; FOLIO_FILENAME;
                     FOLIO_PAGESIZE; FOLIO_LOGFILE; FOLIO_LOGLEVEL] →
              ∀ x, or_else (get c) x = x).
    { intros get Hget x. specialize (Hnone get Hget). unfold or_else.
      destruct (get c) as [v|]; [|done]. simpl in Hnone.
      by destruct (String.eqb v ""). }
    rewrite !Hkeep
      by repeat first [apply list_elem_of_here | apply list_elem_of_further].
    by destruct s.
  - unfold apply_config. cbn. by rewrite !or_else_or_else.
Qed.

Lemma apply_config_keeps_and_settles_witness :
  let c := {| FOLIO_HOST := Some ""; FOLIO_PORT := None;
              FOLIO_PROTOCOL := None; FOLIO_TENANT := None;
              FOLIO_USERNAME := None; FOLIO_PASSWORD := None;
              FOLIO_FILENAME := None; FOLIO_PAGESIZE := None;
              FOLIO_LOGFILE := None; FOLIO_LOGLEVEL := None |} in
  (∀ get : config → option string,
     get ∈ [FOLIO_HOST; FOLIO_PORT; FOLIO_PROTOCOL; FOLIO_TENANT;
            FOLIO_USERNAME; FOLIO_PASSWORD; FOLIO_FILENAME; FOLIO_PAGESIZE;
            FOLIO_LOGFILE; FOLIO_LOGLEVEL] →
     truthy (get c) = false)
  ∧ apply_config c default_settings = default_settings
  ∧ apply_config c (apply_config c default_settings)
    = apply_config c default_settings.
Proof.
  intros c.
  assert (Hnone : ∀ get : config → option string,
     get ∈ [FOLIO_HOST; FOLIO_PORT; FOLIO_PROTOCOL; FOLIO_TENANT;
            FOLIO_USERNAME; FOLIO_PASSWORD; FOLIO_FILENAME; FOLIO_PAGESIZE;
            FOLIO_LOGFILE; FOLIO_LOGLEVEL] →
     truthy (get c) = false).
  { intros get Hget.
    repeat (apply elem_of_cons in Hget as [->|Hget]; [reflexivity|]).
    by apply elem_of_nil in Hget. }
  destruct (apply_config_keeps_and_settles c default_settings) as [H1 H2].
  split; [exact Hnone|]. split; [exact (H1 Hnone) | exact H2].
Defined.

(** ** The roll-back and the whole run *)

(** X25.  In the roll-back after a refused apply-permission call, a
    credential-delete that is refused or fails at the transport level
    makes [removeUserCredentials] call its callback with the error alone;
    that callback then calls its third argument, which is missing.  The
    [TypeError] is thrown again from the [catch] of the handler (or from
    the ['error'] handler), nobody catches it, the record is not deleted
    and the record's callback is never called. *)
Theorem failed_credential_delete_is_uncaught
    (patronGroups addressTypes : gmap string string) (env : request → reply)
    (uuidv1 : nat → string) (n : nat) (user0 : User.t)
    (c1 c2 c3 : Z) (t1 t2 t3 : raw) :
  let created :=
    createUser patronGroups addressTypes env uuidv1 n user0 userCallback in
  let user := created.1 in
  let create := {| opts := createOptions; written := UserBody user |} in
  let credentials :=
    {| opts := credentialsOptions;
       written := CredentialsBody (User.username user) "" |} in
  let permissions :=
    {| opts := permissionsOptions;
       written := PermissionsBody (User.username user) [] |} in
  let uncredential :=
    {| opts := removeCredentialsOptions user; written := NoBody |} in
  env create = Response c1 t1 → status_failed c1 = false →
  env credentials = Response c2 t2 → status_failed c2 = false →
  env permissions = Response c3 t3 → status_failed c3 = true →
  fits_path (User.username user0) →
  match env uncredential with
  | NoResponse _ => True
  | Response c4 _ => status_failed c4 = true
  end →
  requests created.2.1 = [create; credentials; permissions; uncredential]
  ∧ created.2.2 = Uncaught (TypeError "callback is not a function").
Proof.
  intros created user create credentials permissions uncredential.
  subst created. cbn [createUser fst snd] in *.
  set (u0 := User.set_id (Some (uuidv1 n)) user0) in *.
  set (u := mapUserData patronGroups addressTypes u0) in *.
  subst user create credentials permissions uncredential.
  intros H1 S1 H2 S2 H3 S3 Hname H4.
  assert (Hpath : unescaped (path (removeCredentialsOptions u)) = false).
  { subst u. apply removeCredentialsOptions_fits. by destruct user0. }
  rewrite http_request_sent by reflexivity. rewrite H1.
  cbn [emit on_event try_catch fst snd]. rewrite S1.
  unfold createCredentials.
  rewrite http_request_sent by reflexivity. rewrite H2.
  cbn [emit on_event try_catch fst snd]. rewrite S2.
  unfold applyEmptyPermissionSet.
  rewrite http_request_sent by reflexivity. rewrite H3.
  cbn [emit on_event try_catch fst snd]. rewrite S3.
  unfold removeUserCredentials.
  rewrite http_request_sent by done.
  rewrite !requests_app, requests_mapUserData_log.
  destruct (env {| opts := removeCredentialsOptions u; written := NoBody |})
    as [e|c4 t4]; [|rewrite H4]; by split.
Qed.

Lemma failed_credential_delete_is_uncaught_witness :
  let env := server (Json (Some [])) credentials_kept in
  let created :=
    createUser sample_patronGroups sample_addressTypes env sample_uuid 0
      alice userCallback in
  let user := created.1 in
  let create := {| opts := createOptions; written := UserBody user |} in
  let credentials :=
    {| opts := credentialsOptions;
       written := CredentialsBody (User.username user) "" |} in
  let permissions :=
    {| opts := permissionsOptions;
       written := PermissionsBody (User.username user) [] |} in
  let uncredential :=
    {| opts := removeCredentialsOptions user; written := NoBody |} in
  (env create = Response 201 Garbage ∧ status_failed 201 = false
   ∧ env credentials = Response 201 Garbage
   ∧ env permissions = Response 500 Garbage ∧ status_failed 500 = true
   ∧ fits_path (User.username alice)
   ∧ env uncredential = Response 500 Garbage)
  ∧ requests created.2.1 = [create; credentials; permissions; uncredential]
  ∧ created.2.2 = Uncaught (TypeError "callback is not a function").
Proof.
  intros env created user create credentials permissions uncredential.
  split; [by split_and!|].
  apply (failed_credential_delete_is_uncaught sample_patronGroups
           sample_addressTypes env sample_uuid 0 alice 201 201 500
           Garbage Garbage Garbage); reflexivity.
Defined.

(** X26.  A run in which no call fails at the transport level, the
    searches are answered with a list of users, and the create-credential
    calls and the deletes of a roll-back succeed: for a record list of
    length [n] and a page size [p > 0], [processUsers] (given more than
    [n] tests of the loop condition) starts [ceil(n/p)] batches, all of
    them call back without an error, and the import ends with the line
    that announces its end. *)
Theorem processUsers_starts_every_batch
    (patronGroups addressTypes : gmap string string) (env : request → reply)
    (uuidv1 : nat → string) (encodeURIComponent : string → string)
    (p : Z) (fuel : nat) (data : list User.t) :
  (∀ req, ∃ c t, env req = Response c t) →
  (∀ req c t, opts req = credentialsOptions → env req = Response c t →
     status_failed c = false) →
  (∀ req c t, method (opts req) = DELETE → env req = Response c t →
     status_failed c = false) →
  (∀ req, method (opts req) = GET →
     ∃ c users, env req = Response c (Json (Some users))) →
  (∀ req c users, env req = Response c (Json (Some users)) →
     ∀ r, r ∈ users → plain_remote r) →
  (∀ k, fits_path (uuidv1 k)) →
  (∀ user, user ∈ data → plain_record user) →
  0 < p → (length data < fuel)%nat →
  ∃ result,
    processUsers patronGroups addressTypes env uuidv1 encodeURIComponent
      p fuel (Some data) = Some result
    ∧ Z.of_nat (length (batches result))
      = (Z.of_nat (length data) + p - 1) / p
    ∧ Forall (λ b, (reported b).2 = Called None) (batches result)
    ∧ final result
      = [Logged INFO "Import has finished. See log for failed users."]
    ∧ ended result = Finished.
Proof.
  intros Hresponds Hcredentials Hdeletes Hsearches Hremotes Huuids Hplain
    Hp Hfuel.
  destruct (partition_loop_pages p (length data) Hp data (le_n _))
    as (userData & Hrun & Hcat & Hcount & _).
  specialize (Hrun fuel [] Hfuel). rewrite app_nil_l in Hrun.
  assert (Hpages : ∀ userList user, userList ∈ userData → user ∈ userList →
            plain_record user).
  { intros userList user Hl Hu. apply Hplain. rewrite <- Hcat.
    apply list_elem_of_In, in_concat. exists userList.
    by rewrite <- !list_elem_of_In. }
  destruct (eachLimit_called patronGroups addressTypes env uuidv1
              encodeURIComponent Hresponds Hcredentials Hdeletes Huuids
              Hsearches Hremotes userData 0%nat Hpages) as [Hs Hbs].
  unfold processUsers. rewrite Hrun.
  destruct (eachLimit _ _ _ _ _ userData 0%nat) as [bs s].
  cbn [fst snd] in Hs, Hbs. subst s.
  eexists. split; [reflexivity|]. cbn [batches final ended].
  split_and!; [|  | done | done].
  - by rewrite <- (Forall2_length _ _ _ Hbs).
  - apply Forall_forall. intros b Hb.
    apply list_elem_of_lookup in Hb as [i Hi].
    destruct (Forall2_lookup_r _ _ _ _ _ Hbs Hi) as (userList & _ & Hrep & _).
    done.
Qed.

Lemma processUsers_starts_every_batch_witness :
  let env := server (Json (Some found_B_and_D)) permissions_rejected in
  ((∀ req, ∃ c t, env req = Response c t)
   ∧ (∀ req c t, opts req = credentialsOptions → env req = Response c t →
        status_failed c = false)
   ∧ (∀ req c t, method (opts req) = DELETE → env req = Response c t →
        status_failed c = false)
   ∧ (∀ req, method (opts req) = GET →
        ∃ c users, env req = Response c (Json (Some users)))
   ∧ (∀ req c users, env req = Response c (Json (Some users)) →
        ∀ r, r ∈ users → plain_remote r)
   ∧ (∀ k, fits_path (sample_uuid k))
   ∧ (∀ user, user ∈ [alice; bob; carol] → plain_record user)
   ∧ 0 < 2 ∧ (length [alice; bob; carol] < 4)%nat)
  ∧ ∃ result,
      processUsers sample_patronGroups sample_addressTypes env sample_uuid
        (λ s, s) 2 4 (Some [alice; bob; carol]) = Some result
      ∧ Z.of_nat (length (batches result))
        = (Z.of_nat (length [alice; bob; carol]) + 2 - 1) / 2
      ∧ Forall (λ b, (reported b).2 = Called None) (batches result)
      ∧ final result
        = [Logged INFO "Import has finished. See log for failed users."]
      ∧ ended result = Finished.
Proof.
  intros env.
  assert (H1 : ∀ req, ∃ c t, env req = Response c t).
  { intros req. unfold env, server. destruct (method (opts req)); eauto. }
  assert (H2 : ∀ req c t, opts req = credentialsOptions →
            env req = Response c t → status_failed c = false).
  { intros req c t Hreq. unfold env, server, permissions_rejected.
    rewrite Hreq. simpl. by intros [= <- _]. }
  assert (H3 : ∀ req c t, method (opts req) = DELETE →
            env req = Response c t → status_failed c = false).
  { intros req c t Hreq. unfold env, server, permissions_rejected.
    rewrite Hreq. by intros [= <- _]. }
  assert (H4 : ∀ req, method (opts req) = GET →
            ∃ c users, env req = Response c (Json (Some users))).
  { intros req Hreq. unfold env, server. rewrite Hreq. eauto. }
  pose proof (server_remotes_plain found_B_and_D permissions_rejected
                found_B_and_D_plain) as H5.
  pose proof sample_uuid_fits as H6.
  pose proof sample_users_plain as H7.
  split; [split_and!; [done..| lia | simpl; lia]|].
  apply (processUsers_starts_every_batch sample_patronGroups
           sample_addressTypes env sample_uuid (λ s, s) 2 4
           [alice; bob; carol] H1 H2 H3 H4 H5 H6 H7); [lia | simpl; lia].
Defined.
